(** * hihat-a: a sequential model of the lock-free hash table of hatrack

    This development embeds [src/hihat-a.c] in Rocq and proves the testable
    properties of the table in a sequential execution: one operation runs at
    a time, so every atomic read sees the last write and every
    compare-and-swap is decided by comparing the cell with the expected
    value.

    Conventions of the embedding:
    - array sizes and bucket indices are [nat] (they are bounded by the
      length of the bucket array);
    - the 128-bit hash, the item pointer and the 64-bit [info] word are [Z];
      the 64-bit counters ([used_count], [item_count], [next_epoch]) are [Z]
      with their wrap-around written out ([wrap64]);
    - a store pointer is an index into the list of allocated stores; the null
      store pointer is [None];
    - a C function that can fault (an access outside the bucket array, a
      dangling store pointer) or whose retry recursion is cut by the fuel
      returns [None]. *)

From Stdlib Require Import ZArith Lia Bool.
From stdpp Require Import base option list sorting.

Open Scope Z_scope.

(** ** Data model (hihat.h) *)

Definition hatrack_hash_t := Z.

Record hihat_record_t := mk_record { item : Z; info : Z }.

Record hihat_bucket_t := mk_bucket { hv : hatrack_hash_t; record : hihat_record_t }.

Record hihat_store_t := mk_store {
  last_slot : nat;
  threshold : Z;
  used_count : Z;
  store_next : option nat;
  buckets : list hihat_bucket_t
}.

Record hihat_t := mk_top {
  store_current : nat;
  item_count : Z;
  next_epoch : Z
}.

(** The memory the table lives in: every store ever allocated (a retired
    store stays in the list, as safe memory reclamation keeps it readable
    until no operation can reach it) and the top-level object. *)
Record memory := mk_memory {
  stores : list hihat_store_t;
  top : hihat_t
}.

Record hatrack_view_t := mk_view { view_item : Z; sort_epoch : Z }.

Definition NULL : Z := 0.

Definition wrap64 (x : Z) : Z := x mod 2 ^ 64.

(** Modelled from the spec: hihat.h is not among the sources.  The spec
    gives the layout of [info]: bits 0..61 hold the epoch, bit 62 is
    MOVING and bit 63 is MOVED. *)
Definition HIHAT_EPOCH_MASK : Z := 2 ^ 62 - 1.
Definition HIHAT_F_MOVING : Z := 2 ^ 62.
Definition HIHAT_F_MOVED : Z := 2 ^ 63.

(** Modelled from the spec: the hash helpers of hatrack_common.h are not
    among the sources.  The unreserved hash is the all-zero value and two
    hashes are equal when their bits are. *)
Definition hatrack_bucket_unreserved (h : hatrack_hash_t) : bool := h =? 0.
Definition hatrack_hashes_eq (h1 h2 : hatrack_hash_t) : bool := h1 =? h2.

(** The remaining helpers of hatrack_common.h that hihat-a.c calls.  Their
    definitions are not among the sources, so the model takes them as
    parameters. *)
Class hatrack_common := {
  HATRACK_MIN_SIZE : nat;
  hatrack_bucket_index : hatrack_hash_t → nat → nat;
  hatrack_compute_table_threshold : nat → Z;
  hatrack_new_size : nat → nat → nat
}.

(** What the proofs require of these helpers: the index of a hash lies in
    the table, a store size is a power of two, and the size chosen for a
    migration leaves the migrated buckets below the threshold of the new
    store and below its size. *)
Class hatrack_common_ok `{hatrack_common} : Prop := {
  min_size_pow2 : ∃ n : nat, HATRACK_MIN_SIZE = (2 ^ n)%nat;
  bucket_index_lt : ∀ h (n : nat),
    (hatrack_bucket_index h (2 ^ n - 1) < 2 ^ n)%nat;
  new_size_pow2 : ∀ (n used : nat), (used ≤ 2 ^ n)%nat →
    ∃ n' : nat, hatrack_new_size (2 ^ n - 1) used = (2 ^ n')%nat;
  new_size_room : ∀ (n used : nat), (used ≤ 2 ^ n)%nat →
    (used < hatrack_new_size (2 ^ n - 1) used)%nat ∧
    Z.of_nat used <
      hatrack_compute_table_threshold (hatrack_new_size (2 ^ n - 1) used)
}.

(** ** Atomic cells in a sequential execution *)

(** [LCAS cell expected desired]: the new content of the cell, the new
    content of the caller's [expected] variable and the success flag. *)
Definition LCAS {A} (eqb : A → A → bool) (cell expected desired : A)
  : A * A * bool :=
  if eqb cell expected then (desired, expected, true) else (cell, cell, false).

Definition record_eqb (r1 r2 : hihat_record_t) : bool :=
  (item r1 =? item r2) && (info r1 =? info r2).

Definition store_ptr_eqb (p1 p2 : option nat) : bool :=
  match p1, p2 with
  | None, None => true
  | Some a, Some b => Nat.eqb a b
  | _, _ => false
  end.

Definition set_hv (b : hihat_bucket_t) (h : hatrack_hash_t) : hihat_bucket_t :=
  mk_bucket h (record b).

Definition set_record (b : hihat_bucket_t) (r : hihat_record_t) : hihat_bucket_t :=
  mk_bucket (hv b) r.

Definition set_buckets (s : hihat_store_t) (bs : list hihat_bucket_t) : hihat_store_t :=
  mk_store (last_slot s) (threshold s) (used_count s) (store_next s) bs.

Definition set_used_count (s : hihat_store_t) (n : Z) : hihat_store_t :=
  mk_store (last_slot s) (threshold s) n (store_next s) (buckets s).

Definition set_store_next (s : hihat_store_t) (p : option nat) : hihat_store_t :=
  mk_store (last_slot s) (threshold s) (used_count s) p (buckets s).

Definition set_bucket (s : hihat_store_t) (bix : nat) (b : hihat_bucket_t) : hihat_store_t :=
  set_buckets s (<[bix := b]> (buckets s)).

Definition set_store (m : memory) (p : nat) (s : hihat_store_t) : memory :=
  mk_memory (<[p := s]> (stores m)) (top m).

Definition set_top (m : memory) (t : hihat_t) : memory :=
  mk_memory (stores m) t.

Definition zero_bucket : hihat_bucket_t := mk_bucket 0 (mk_record NULL 0).

(** [(bix + 1) & self->last_slot] *)
Definition next_bix (s : hihat_store_t) (bix : nat) : nat :=
  Nat.land (bix + 1) (last_slot s).

Definition epoch_of (r : hihat_record_t) : Z := Z.land (info r) HIHAT_EPOCH_MASK.
Definition is_moving (r : hihat_record_t) : bool :=
  negb (Z.land (info r) HIHAT_F_MOVING =? 0).
Definition is_moved (r : hihat_record_t) : bool :=
  negb (Z.land (info r) HIHAT_F_MOVED =? 0).
Definition has_epoch (r : hihat_record_t) : bool := negb (epoch_of r =? 0).

Section hihat_a.
Context `{HC : hatrack_common}.

(** ** hihat_a_store_new

    The store comes zeroed from the allocator: every hash is unreserved,
    every record is [(NULL, 0)], [used_count] is 0 and [store_next] is
    null.  A store has one bucket at least, so [size - 1] does not wrap. *)
Definition hihat_a_store_new (size : nat) : hihat_store_t :=
  mk_store (size - 1) (hatrack_compute_table_threshold size) 0 None
           (replicate size zero_bucket).

(** Allocation appends the store to the memory and returns its pointer. *)
Definition alloc_store (m : memory) (s : hihat_store_t) : nat * memory :=
  (length (stores m), mk_memory (stores m ++ [s]) (top m)).

(** ** hihat_a_init *)
Definition hihat_a_init : memory :=
  mk_memory [hihat_a_store_new HATRACK_MIN_SIZE] (mk_top 0%nat 0 1).

(** ** hihat_a_store_get *)
Fixpoint hihat_a_store_get_loop (self : hihat_store_t) (hv1 : hatrack_hash_t)
    (n : nat) (bix : nat) : option (Z * bool) :=
  match n with
  | O => Some (NULL, false)
  | S n' =>
      bucket ← buckets self !! bix;
      let hv2 := hv bucket in
      if hatrack_bucket_unreserved hv2 then Some (NULL, false)
      else if negb (hatrack_hashes_eq hv1 hv2) then
        hihat_a_store_get_loop self hv1 n' (next_bix self bix)
      else
        let record := record bucket in
        if has_epoch record then Some (item record, true)
        else Some (NULL, false)
  end.

Definition hihat_a_store_get (self : hihat_store_t) (hv1 : hatrack_hash_t)
  : option (Z * bool) :=
  hihat_a_store_get_loop self hv1 (S (last_slot self))
    (hatrack_bucket_index hv1 (last_slot self)).

(** ** hihat_a_get *)
Definition hihat_a_get (m : memory) (hv1 : hatrack_hash_t) : option (Z * bool) :=
  store ← stores m !! store_current (top m);
  hihat_a_store_get store hv1.

(** ** hihat_a_store_migrate

    The first loop of the migration: every record is marked MOVING (a
    record with no info is marked MOVING and MOVED at once), and the
    records that carry an epoch are counted.  The record was read just
    before the compare-and-swap, so the swap succeeds and the do-while
    body runs once. *)
Definition migrate_freeze_bucket (bucket : hihat_bucket_t) : hihat_bucket_t :=
  let record0 := record bucket in
  let candidate_item := item record0 in
  if is_moving record0 then bucket
  else
    let candidate_info :=
      if negb (info record0 =? 0) then Z.lor (info record0) HIHAT_F_MOVING
      else Z.lor HIHAT_F_MOVING HIHAT_F_MOVED in
    let '(cell, _, _) :=
      LCAS record_eqb (record bucket) record0
           (mk_record candidate_item candidate_info) in
    set_record bucket cell.

Fixpoint hihat_a_store_migrate_freeze (self : hihat_store_t) (n i new_used : nat)
  : option (hihat_store_t * nat) :=
  match n with
  | O => Some (self, new_used)
  | S n' =>
      bucket ← buckets self !! i;
      let self' := set_bucket self i (migrate_freeze_bucket bucket) in
      let new_used' :=
        if has_epoch (record bucket) then S new_used else new_used in
      hihat_a_store_migrate_freeze self' n' (S i) new_used'
  end.

(** The inner loop of the second pass: the slot of [hv0] in the new store.
    [new_bucket] is the bucket the previous iteration looked at; when the
    loop runs out, the code goes on with that bucket. *)
Fixpoint hihat_a_store_migrate_probe (new_store : hihat_store_t)
    (hv0 : hatrack_hash_t) (n bix : nat) (new_bucket : option nat)
  : option (hihat_store_t * nat) :=
  match n with
  | O => nb ← new_bucket; Some (new_store, nb)
  | S n' =>
      b ← buckets new_store !! bix;
      let expected_hv := hv b in
      let '(cell, expected_hv', ok) :=
        if hatrack_bucket_unreserved expected_hv
        then LCAS Z.eqb (hv b) expected_hv hv0
        else (hv b, expected_hv, false) in
      if ok then Some (set_bucket new_store bix (set_hv b cell), bix)
      else if negb (hatrack_hashes_eq expected_hv' hv0) then
        hihat_a_store_migrate_probe new_store hv0 n'
          (next_bix new_store bix) (Some bix)
      else Some (new_store, bix)
  end.

(** One iteration of the second pass. *)
Definition migrate_copy_bucket (self new_store : hihat_store_t) (i new_used : nat)
  : option (hihat_store_t * hihat_store_t * nat) :=
  bucket ← buckets self !! i;
  let record0 := record bucket in
  let new_used' := if has_epoch record0 then S new_used else new_used in
  if is_moved record0 then Some (self, new_store, new_used')
  else
    let hv0 := hv bucket in
    '(new_store1, nbix) ←
      hihat_a_store_migrate_probe new_store hv0 (S (last_slot new_store))
        (hatrack_bucket_index hv0 (last_slot new_store)) None;
    new_bucket ← buckets new_store1 !! nbix;
    let candidate_record := mk_record (item record0) (epoch_of record0) in
    let expected_record := mk_record NULL 0 in
    let '(cell, _, _) :=
      LCAS record_eqb (record new_bucket) expected_record candidate_record in
    let new_store2 := set_bucket new_store1 nbix (set_record new_bucket cell) in
    let candidate_record' :=
      mk_record (item record0) (Z.lor (info record0) HIHAT_F_MOVED) in
    let '(cell', _, _) :=
      LCAS record_eqb (record bucket) record0 candidate_record' in
    Some (set_bucket self i (set_record bucket cell'), new_store2, new_used').

Fixpoint hihat_a_store_migrate_copy (self new_store : hihat_store_t)
    (n i new_used : nat) : option (hihat_store_t * hihat_store_t * nat) :=
  match n with
  | O => Some (self, new_store, new_used)
  | S n' =>
      '(self', new_store', new_used') ←
        migrate_copy_bucket self new_store i new_used;
      hihat_a_store_migrate_copy self' new_store' n' (S i) new_used'
  end.

(** From the label [have_new_store] to the end of the function.  The old
    store and the new one are two allocations ([store_next] only ever
    receives a fresh store): the second pass runs on the two stores and
    both are written back. *)
Definition migrate_have_new_store (self new_store : nat) (m : memory)
  : option (nat * memory) :=
  s ← stores m !! self;
  ns ← stores m !! new_store;
  '(s', ns', new_used) ←
    hihat_a_store_migrate_copy s ns (S (last_slot s)) 0 0;
  let expected_used := 0 in
  let '(cell, _, _) :=
    LCAS Z.eqb (used_count ns') expected_used (Z.of_nat new_used) in
  let m1 := set_store (set_store m self s') new_store (set_used_count ns' cell) in
  (* when the swap succeeds the old store is retired; it stays readable *)
  let '(cur, _, _) := LCAS Nat.eqb (store_current (top m1)) self new_store in
  let m2 := set_top m1 (mk_top cur (item_count (top m1)) (next_epoch (top m1))) in
  Some (store_current (top m2), m2).

Definition hihat_a_store_migrate (self : nat) (m : memory)
  : option (nat * memory) :=
  let new_store := store_current (top m) in
  if negb (Nat.eqb new_store self) then Some (new_store, m)
  else
    s ← stores m !! self;
    match store_next s with
    | Some ns =>
        (* nanosleep, then look again; twice *)
        if Nat.eqb ns (store_current (top m)) then Some (ns, m)
        else if Nat.eqb ns (store_current (top m)) then Some (ns, m)
        else migrate_have_new_store self ns m
    | None =>
        '(s1, new_used) ←
          hihat_a_store_migrate_freeze s (S (last_slot s)) 0 0;
        let m1 := set_store m self s1 in
        match store_next s1 with
        | Some ns => migrate_have_new_store self ns m1
        | None =>
            let new_size := hatrack_new_size (last_slot s1) new_used in
            let '(candidate_store, m2) :=
              alloc_store m1 (hihat_a_store_new new_size) in
            let '(cell, seen, ok) :=
              LCAS store_ptr_eqb (store_next s1) None (Some candidate_store) in
            let m3 := set_store m2 self (set_store_next s1 cell) in
            (* a losing candidate is handed back with mmm_retire_unused *)
            ns ← (if ok then Some candidate_store else seen);
            migrate_have_new_store self ns m3
        end
    end.

(** ** The probe loops of the writers

    [hihat_a_store_put] and [hihat_a_store_add] open with the same loop: it
    ends at [found_bucket] with the bucket of the hash, claiming an
    unreserved bucket on the way, or at [migrate_and_retry]. *)
Inductive acquire_t :=
| found_bucket (self : hihat_store_t) (bix : nat)
| migrate_and_retry (self : hihat_store_t).

Fixpoint acquire_loop (self : hihat_store_t) (hv1 : hatrack_hash_t)
    (n bix : nat) : option acquire_t :=
  match n with
  | O => Some (migrate_and_retry self)
  | S n' =>
      bucket ← buckets self !! bix;
      let hv2 := hv bucket in
      let '(cell, hv2', ok) :=
        if hatrack_bucket_unreserved hv2
        then LCAS Z.eqb (hv bucket) hv2 hv1
        else (hv bucket, hv2, false) in
      if ok then
        let self1 := set_bucket self bix (set_hv bucket cell) in
        let old := used_count self1 in
        let self2 := set_used_count self1 (wrap64 (old + 1)) in
        if old >=? threshold self then Some (migrate_and_retry self2)
        else Some (found_bucket self2 bix)
      else if negb (hatrack_hashes_eq hv1 hv2') then
        acquire_loop self hv1 n' (next_bix self bix)
      else Some (found_bucket self bix)
  end.

(** [hihat_a_store_replace] and [hihat_a_store_remove] open with the same
    loop: the bucket of the hash, or nothing when an unreserved bucket is
    met first or the loop runs out. *)
Fixpoint find_loop (self : hihat_store_t) (hv1 : hatrack_hash_t)
    (n bix : nat) : option (option nat) :=
  match n with
  | O => Some None
  | S n' =>
      bucket ← buckets self !! bix;
      let hv2 := hv bucket in
      if hatrack_bucket_unreserved hv2 then Some None
      else if negb (hatrack_hashes_eq hv1 hv2) then
        find_loop self hv1 n' (next_bix self bix)
      else Some (Some bix)
  end.

Definition next_epoch_incr (t : hihat_t) : hihat_t :=
  mk_top (store_current t) (item_count t) (wrap64 (next_epoch t + 1)).

Definition item_count_add (t : hihat_t) (d : Z) : hihat_t :=
  mk_top (store_current t) (wrap64 (item_count t + d)) (next_epoch t).

(** ** hihat_a_store_put *)
Fixpoint hihat_a_store_put (fuel : nat) (self : nat) (m : memory)
    (hv1 : hatrack_hash_t) (item0 : Z) : option (memory * (Z * bool)) :=
  match fuel with
  | O => None
  | S fuel' =>
      store ← stores m !! self;
      acq ← acquire_loop store hv1 (S (last_slot store))
               (hatrack_bucket_index hv1 (last_slot store));
      let retry (m0 : memory) :=
        '(self', m') ← hihat_a_store_migrate self m0;
        hihat_a_store_put fuel' self' m' hv1 item0 in
      match acq with
      | migrate_and_retry store' => retry (set_store m self store')
      | found_bucket store' bix =>
          bucket ← buckets store' !! bix;
          let record0 := record bucket in
          if is_moving record0 then retry (set_store m self store')
          else
            let '(found, old_item, new_item, candidate_info, top1) :=
              if has_epoch record0
              then (true, item record0, false, info record0, top m)
              else (false, NULL, true, next_epoch (top m),
                    next_epoch_incr (top m)) in
            let candidate := mk_record item0 candidate_info in
            let '(cell, record1, ok) :=
              LCAS record_eqb (record bucket) record0 candidate in
            let store1 := set_bucket store' bix (set_record bucket cell) in
            let m1 := set_top (set_store m self store1) top1 in
            if ok then
              let top2 := if new_item then item_count_add top1 1 else top1 in
              Some (set_top m1 top2, (old_item, found))
            else if is_moving record1 then retry m1
            else Some (m1, (item0, found))
      end
  end.

(** ** hihat_a_store_replace *)
Fixpoint hihat_a_store_replace (fuel : nat) (self : nat) (m : memory)
    (hv1 : hatrack_hash_t) (item0 : Z) : option (memory * (Z * bool)) :=
  match fuel with
  | O => None
  | S fuel' =>
      store ← stores m !! self;
      fb ← find_loop store hv1 (S (last_slot store))
              (hatrack_bucket_index hv1 (last_slot store));
      match fb with
      | None => Some (m, (NULL, false))
      | Some bix =>
          bucket ← buckets store !! bix;
          let record0 := record bucket in
          if is_moving record0 then
            '(self', m') ← hihat_a_store_migrate self m;
            hihat_a_store_replace fuel' self' m' hv1 item0
          else if info record0 =? 0 then Some (m, (NULL, false))
          else
            let candidate := mk_record item0 (info record0) in
            (* the record was just read: the swap succeeds at once *)
            let '(cell, record1, _) :=
              LCAS record_eqb (record bucket) record0 candidate in
            let store1 := set_bucket store bix (set_record bucket cell) in
            Some (set_store m self store1, (item record1, true))
      end
  end.

(** ** hihat_a_store_add *)
Fixpoint hihat_a_store_add (fuel : nat) (self : nat) (m : memory)
    (hv1 : hatrack_hash_t) (item0 : Z) : option (memory * bool) :=
  match fuel with
  | O => None
  | S fuel' =>
      store ← stores m !! self;
      acq ← acquire_loop store hv1 (S (last_slot store))
               (hatrack_bucket_index hv1 (last_slot store));
      let retry (m0 : memory) :=
        '(self', m') ← hihat_a_store_migrate self m0;
        hihat_a_store_add fuel' self' m' hv1 item0 in
      match acq with
      | migrate_and_retry store' => retry (set_store m self store')
      | found_bucket store' bix =>
          bucket ← buckets store' !! bix;
          let record0 := record bucket in
          if is_moving record0 then retry (set_store m self store')
          else if negb (info record0 =? 0) then
            Some (set_store m self store', false)
          else
            let candidate := mk_record item0 (next_epoch (top m)) in
            let top1 := next_epoch_incr (top m) in
            let '(cell, record1, ok) :=
              LCAS record_eqb (record bucket) record0 candidate in
            let store1 := set_bucket store' bix (set_record bucket cell) in
            let m1 := set_top (set_store m self store1) top1 in
            if ok then Some (set_top m1 (item_count_add top1 1), true)
            else if is_moving record1 then retry m1
            else Some (m1, false)
      end
  end.

(** ** hihat_a_store_remove *)
Fixpoint hihat_a_store_remove (fuel : nat) (self : nat) (m : memory)
    (hv1 : hatrack_hash_t) : option (memory * (Z * bool)) :=
  match fuel with
  | O => None
  | S fuel' =>
      store ← stores m !! self;
      fb ← find_loop store hv1 (S (last_slot store))
              (hatrack_bucket_index hv1 (last_slot store));
      match fb with
      | None => Some (m, (NULL, false))
      | Some bix =>
          bucket ← buckets store !! bix;
          let record0 := record bucket in
          let retry (m0 : memory) :=
            '(self', m') ← hihat_a_store_migrate self m0;
            hihat_a_store_remove fuel' self' m' hv1 in
          if is_moving record0 then retry m
          else if info record0 =? 0 then Some (m, (NULL, false))
          else
            let old_item := item record0 in
            let candidate := mk_record NULL 0 in
            let '(cell, record1, ok) :=
              LCAS record_eqb (record bucket) record0 candidate in
            let store1 := set_bucket store bix (set_record bucket cell) in
            let m1 := set_store m self store1 in
            if ok then
              Some (set_top m1 (item_count_add (top m1) (-1)), (old_item, true))
            else if is_moving record1 then retry m1
            else Some (m1, (NULL, false))
      end
  end.

(** ** The top-level operations

    [mmm_start_basic_op] and [mmm_end_op] only publish and clear the
    reservation of the calling thread; they do not touch the table. *)
Definition hihat_a_put (fuel : nat) (m : memory) (hv1 : hatrack_hash_t) (item0 : Z)
  : option (memory * (Z * bool)) :=
  hihat_a_store_put fuel (store_current (top m)) m hv1 item0.

Definition hihat_a_replace (fuel : nat) (m : memory) (hv1 : hatrack_hash_t) (item0 : Z)
  : option (memory * (Z * bool)) :=
  hihat_a_store_replace fuel (store_current (top m)) m hv1 item0.

Definition hihat_a_add (fuel : nat) (m : memory) (hv1 : hatrack_hash_t) (item0 : Z)
  : option (memory * bool) :=
  hihat_a_store_add fuel (store_current (top m)) m hv1 item0.

Definition hihat_a_remove (fuel : nat) (m : memory) (hv1 : hatrack_hash_t)
  : option (memory * (Z * bool)) :=
  hihat_a_store_remove fuel (store_current (top m)) m hv1.

Definition hihat_a_len (m : memory) : Z := item_count (top m).

(** ** hihat_a_view *)
Fixpoint hihat_a_view_loop (store : hihat_store_t) (n cur : nat)
  : option (list hatrack_view_t) :=
  match n with
  | O => Some []
  | S n' =>
      bucket ← buckets store !! cur;
      rest ← hihat_a_view_loop store n' (S cur);
      let record_epoch := epoch_of (record bucket) in
      if record_epoch =? 0 then Some rest
      else Some (mk_view (item (record bucket)) record_epoch :: rest)
  end.

(** Modelled from the spec: [hatrack_quicksort_cmp] is not among the
    sources.  The spec has the view sorted by epoch, ascending, so the
    comparator orders two entries by their [sort_epoch]. *)
Definition hatrack_quicksort_cmp (a b : hatrack_view_t) : comparison :=
  sort_epoch a ?= sort_epoch b.

Definition cmp_le (cmp : hatrack_view_t → hatrack_view_t → comparison)
  : relation hatrack_view_t := λ a b, cmp a b ≠ Gt.

(** [qsort] of the C library sorts the array by the comparator. *)
Definition qsort (cmp : hatrack_view_t → hatrack_view_t → comparison)
    (l : list hatrack_view_t) : list hatrack_view_t :=
  merge_sort (cmp_le cmp) l.

(** The result is the number of items and the array; the array is the null
    pointer ([None]) when there is no item. *)
Definition hihat_a_view (m : memory) (sort : bool)
  : option (nat * option (list hatrack_view_t)) :=
  store ← stores m !! store_current (top m);
  view ← hihat_a_view_loop store (S (last_slot store)) 0;
  let num_items := length view in
  if Nat.eqb num_items 0 then Some (num_items, None)
  else Some (num_items,
             Some (if sort then qsort hatrack_quicksort_cmp view else view)).

Definition view_entries (r : option (list hatrack_view_t)) : list hatrack_view_t :=
  default [] r.

(** ** The interface of the table

    One call of the interface.  A reader ([get], [len], [view]) is handed
    the table and only reads it: the memory after the call is the memory
    before it. *)
Inductive hihat_op :=
| op_get (hv1 : hatrack_hash_t)
| op_put (hv1 : hatrack_hash_t) (item0 : Z)
| op_replace (hv1 : hatrack_hash_t) (item0 : Z)
| op_add (hv1 : hatrack_hash_t) (item0 : Z)
| op_remove (hv1 : hatrack_hash_t)
| op_len
| op_view (sort : bool).

Inductive hihat_result :=
| res_item (item0 : Z) (found : bool)
| res_bool (ok : bool)
| res_len (n : Z)
| res_view (num : nat) (view : option (list hatrack_view_t)).

Definition is_reader (op : hihat_op) : bool :=
  match op with
  | op_get _ | op_len | op_view _ => true
  | _ => false
  end.

Definition hihat_a_call (fuel : nat) (m : memory) (op : hihat_op)
  : option (memory * hihat_result) :=
  match op with
  | op_get hv1 =>
      '(item0, found) ← hihat_a_get m hv1; Some (m, res_item item0 found)
  | op_put hv1 item0 =>
      '(m', (old, found)) ← hihat_a_put fuel m hv1 item0;
      Some (m', res_item old found)
  | op_replace hv1 item0 =>
      '(m', (old, found)) ← hihat_a_replace fuel m hv1 item0;
      Some (m', res_item old found)
  | op_add hv1 item0 =>
      '(m', ok) ← hihat_a_add fuel m hv1 item0; Some (m', res_bool ok)
  | op_remove hv1 =>
      '(m', (old, found)) ← hihat_a_remove fuel m hv1;
      Some (m', res_item old found)
  | op_len => Some (m, res_len (hihat_a_len m))
  | op_view sort =>
      '(num, view) ← hihat_a_view m sort; Some (m, res_view num view)
  end.

(** The hash a call is about, and a run of calls. *)
Definition op_key (op : hihat_op) : option hatrack_hash_t :=
  match op with
  | op_get k | op_put k _ | op_replace k _ | op_add k _ | op_remove k => Some k
  | op_len | op_view _ => None
  end.

Fixpoint hihat_a_run (fuel : nat) (m : memory) (ops : list hihat_op)
  : option memory :=
  match ops with
  | [] => Some m
  | op :: ops' =>
      '(m', _) ← hihat_a_call fuel m op;
      hihat_a_run fuel m' ops'
  end.

(** ** Specification vocabulary *)

(** The slot a probe for [hv1] ends at: the first bucket on the probe path
    that is unreserved or holds [hv1]. *)
Fixpoint probe (self : hihat_store_t) (hv1 : hatrack_hash_t) (n bix : nat)
  : option nat :=
  match n with
  | O => None
  | S n' =>
      match buckets self !! bix with
      | None => None
      | Some b =>
          if hatrack_bucket_unreserved (hv b) then Some bix
          else if hatrack_hashes_eq hv1 (hv b) then Some bix
          else probe self hv1 n' (next_bix self bix)
      end
  end.

Definition slot_of (self : hihat_store_t) (hv1 : hatrack_hash_t) : option nat :=
  probe self hv1 (S (last_slot self)) (hatrack_bucket_index hv1 (last_slot self)).

End hihat_a.

(** The size of a store is a power of two and is the length of its bucket
    array. *)
Definition sized (s : hihat_store_t) : Prop :=
  ∃ n : nat, last_slot s = (2 ^ n - 1)%nat ∧ length (buckets s) = (2 ^ n)%nat.

Definition count_if (f : hihat_bucket_t → bool) (l : list hihat_bucket_t) : nat :=
  length (List.filter f l).

Definition reserved (b : hihat_bucket_t) : bool :=
  negb (hatrack_bucket_unreserved (hv b)).

Definition live (b : hihat_bucket_t) : bool := has_epoch (record b).

(** A probe stops at an unreserved bucket and at a bucket of its hash. *)
Definition stops (k : hatrack_hash_t) (b : hihat_bucket_t) : Prop :=
  hv b = 0%Z ∨ hv b = k.

(** The store after an unreserved bucket is claimed for a hash. *)
Definition claimed (s : hihat_store_t) (j : nat) (k : hatrack_hash_t)
  : hihat_store_t :=
  set_used_count
    (set_bucket s j (mk_bucket k (mk_record NULL 0)))
    (wrap64 (used_count s + 1)).

(** Every reserved bucket is the end of the probe path of its own hash. *)
Definition probe_inv `{HC : hatrack_common} (s : hihat_store_t) : Prop :=
  ∀ i b, buckets s !! i = Some b → hv b ≠ 0%Z → slot_of s (hv b) = Some i.

(** The record live under a hash, if any: what the table maps the hash
    to. *)
Definition content `{HC : hatrack_common} (s : hihat_store_t)
    (k : hatrack_hash_t) : option hihat_record_t :=
  b ← slot_of s k ≫= λ j, buckets s !! j;
  if reserved b && live b then Some (record b) else None.

(** A store no migration has touched, as an operation finds the current
    store in a sequential execution: the probe invariant holds, an
    unreserved bucket holds no record, no record carries a flag, and no
    successor store is installed. *)
Record wf_store `{HC : hatrack_common} (s : hihat_store_t) : Prop := {
  wf_sized : sized s;
  wf_probe : probe_inv s;
  wf_unres : ∀ i b, buckets s !! i = Some b → hv b = 0%Z →
               record b = mk_record NULL 0;
  wf_info : ∀ i b, buckets s !! i = Some b →
               (0 ≤ info (record b) < 2 ^ 62)%Z;
  wf_next : store_next s = None
}.

(** The epochs of the live records are below [next_epoch] and pairwise
    distinct. *)
Record epochs_ok (s : hihat_store_t) (ne : Z) : Prop := {
  epochs_lt : ∀ i b, buckets s !! i = Some b → (info (record b) < ne)%Z;
  epochs_inj : ∀ i1 i2 b1 b2,
    buckets s !! i1 = Some b1 → buckets s !! i2 = Some b2 →
    info (record b1) ≠ 0%Z → info (record b1) = info (record b2) → i1 = i2
}.

Record wf `{HC : hatrack_common} (m : memory) : Prop := {
  wf_current : ∃ s, stores m !! store_current (top m) = Some s ∧
                    wf_store s ∧ epochs_ok s (next_epoch (top m));
  wf_next_epoch : (0 < next_epoch (top m) ≤ 2 ^ 62)%Z
}.

(** No MOVING flag of the first store is cleared in the second. *)
Definition store_flags_le (s s' : hihat_store_t) : Prop :=
  ∀ i b, buckets s !! i = Some b →
    ∃ b', buckets s' !! i = Some b' ∧
          (is_moving (record b) = true → is_moving (record b') = true).

Definition flags_le (m m' : memory) : Prop :=
  ∀ p s, stores m !! p = Some s →
    ∃ s', stores m' !! p = Some s' ∧ store_flags_le s s'.

(** Every record with MOVED set has MOVING set, in every store. *)
Definition moved_implies_moving (m : memory) : Prop :=
  ∀ p s i b, stores m !! p = Some s → buckets s !! i = Some b →
    is_moved (record b) = true → is_moving (record b) = true.

(** The operations the invariants are stated for: the hash is not the
    unreserved value, and an inserting operation finds room in the epoch
    counter. *)
Definition op_fits (m : memory) (op : hihat_op) : Prop :=
  match op with
  | op_put k _ | op_add k _ => k ≠ 0%Z ∧ (next_epoch (top m) < 2 ^ 62)%Z
  | op_replace k _ | op_remove k | op_get k => k ≠ 0%Z
  | op_len | op_view _ => True
  end.

Definition op_valid (op : hihat_op) : Prop :=
  match op_key op with
  | Some k => k ≠ 0%Z
  | None => True
  end.

(** The entry of the view a bucket contributes, if its record has epoch
    bits. *)
Definition view_of_bucket (b : hihat_bucket_t) : option hatrack_view_t :=
  if has_epoch (record b)
  then Some (mk_view (item (record b)) (epoch_of (record b)))
  else None.

Definition epoch_before (a b : hatrack_view_t) : Prop :=
  (sort_epoch a < sort_epoch b)%Z.

(** The store an operation starts from and what the table maps a hash
    to. *)
Definition current_store (m : memory) : option hihat_store_t :=
  stores m !! store_current (top m).

Definition table_content `{HC : hatrack_common} (m : memory)
    (k : hatrack_hash_t) : option hihat_record_t :=
  s ← current_store m; content s k.

(** The store an acquiring probe leaves behind. *)
Definition acquired_store (a : acquire_t) : hihat_store_t :=
  match a with
  | found_bucket s _ => s
  | migrate_and_retry s => s
  end.

(** A store with room for one more hash below its threshold. *)
Definition has_room (s : hihat_store_t) : Prop :=
  (used_count s < threshold s)%Z ∧
  (count_if reserved (buckets s) < length (buckets s))%nat.

(** Two stores that differ in their buckets at most. *)
Definition same_fields (s s' : hihat_store_t) : Prop :=
  last_slot s' = last_slot s ∧ threshold s' = threshold s ∧
  used_count s' = used_count s ∧ store_next s' = store_next s.

(** A bucket after the first pass of a migration, and after the second. *)
Definition frozen_bucket (b : hihat_bucket_t) : hihat_bucket_t :=
  mk_bucket (hv b)
    (mk_record (item (record b))
       (if (info (record b) =? 0)%Z
        then Z.lor HIHAT_F_MOVING HIHAT_F_MOVED
        else Z.lor (info (record b)) HIHAT_F_MOVING)).

Definition moved_bucket (b : hihat_bucket_t) : hihat_bucket_t :=
  mk_bucket (hv b)
    (mk_record (item (record b))
       (if (info (record b) =? 0)%Z
        then Z.lor HIHAT_F_MOVING HIHAT_F_MOVED
        else Z.lor (Z.lor (info (record b)) HIHAT_F_MOVING) HIHAT_F_MOVED)).

(** What a migration leaves of the store it migrated. *)
Definition retired (s : hihat_store_t) (next : nat) : hihat_store_t :=
  set_store_next (set_buckets s (moved_bucket <$> buckets s)) (Some next).

Arguments frozen_bucket : simpl never.
Arguments moved_bucket : simpl never.

(** The record a hash is mapped to, as the pair [get] returns. *)
Definition lookup_result (r : option hihat_record_t) : Z * bool :=
  match r with
  | Some r => (item r, true)
  | None => (NULL, false)
  end.

(** The operation ended in the store it started from, and changed one
    bucket of it at most. *)
Definition one_bucket (m m' : memory) : Prop :=
  store_current (top m') = store_current (top m) ∧
  ∃ s s' j b',
    current_store m = Some s ∧
    buckets s' = <[j := b']> (buckets s) ∧
    stores m' = <[store_current (top m) := s']> (stores m).

(** The operation migrated: the current store is a new one, and the store
    it started from is left frozen behind. *)
Definition migrated (m m' : memory) : Prop :=
  store_current (top m') = length (stores m) ∧
  ∃ s1 s', stores m' !! store_current (top m) =
             Some (retired s1 (length (stores m))) ∧
           current_store m' = Some s' ∧ store_next s' = None ∧
           length (stores m') = S (length (stores m)) ∧
           ∀ p, p ≠ store_current (top m) → (p < length (stores m))%nat →
                stores m' !! p = stores m !! p.

(** The table after [put k v]. *)
Record put_post `{HC : hatrack_common} (m : memory) (k : hatrack_hash_t)
    (v : Z) (m' : memory) (res : Z * bool) : Prop := {
  pp_wf : wf m';
  pp_res : res = lookup_result (table_content m k);
  pp_new : table_content m' k =
    Some (mk_record v (match table_content m k with
                       | Some r => info r
                       | None => next_epoch (top m)
                       end));
  pp_frame : ∀ k', k' ≠ k → k' ≠ 0%Z →
    table_content m' k' = table_content m k';
  pp_epoch : next_epoch (top m') =
    match table_content m k with
    | Some _ => next_epoch (top m)
    | None => (next_epoch (top m) + 1)%Z
    end;
  pp_count : item_count (top m') =
    match table_content m k with
    | Some _ => item_count (top m)
    | None => wrap64 (item_count (top m) + 1)
    end;
  pp_where : one_bucket m m' ∨ migrated m m'
}.

(** The table after [remove k]. *)
Record remove_post `{HC : hatrack_common} (m : memory) (k : hatrack_hash_t)
    (m' : memory) (res : Z * bool) : Prop := {
  rp_wf : wf m';
  rp_res : res = lookup_result (table_content m k);
  rp_gone : table_content m' k = None;
  rp_frame : ∀ k', k' ≠ k → k' ≠ 0%Z →
    table_content m' k' = table_content m k';
  rp_epoch : next_epoch (top m') = next_epoch (top m);
  rp_count : item_count (top m') =
    match table_content m k with
    | Some _ => wrap64 (item_count (top m) - 1)
    | None => item_count (top m)
    end;
  rp_same : table_content m k = None → m' = m;
  rp_where : one_bucket m m'
}.

(** The table after [replace k v]. *)
Record replace_post `{HC : hatrack_common} (m : memory) (k : hatrack_hash_t)
    (v : Z) (m' : memory) (res : Z * bool) : Prop := {
  xp_wf : wf m';
  xp_res : res = lookup_result (table_content m k);
  xp_new : table_content m' k =
    match table_content m k with
    | Some r => Some (mk_record v (info r))
    | None => None
    end;
  xp_frame : ∀ k', k' ≠ k → k' ≠ 0%Z →
    table_content m' k' = table_content m k';
  xp_top : top m' = top m;
  xp_same : table_content m k = None → m' = m;
  xp_where : one_bucket m m'
}.

(** The table after [add k v]. *)
Record add_post `{HC : hatrack_common} (m : memory) (k : hatrack_hash_t)
    (v : Z) (m' : memory) (res : bool) : Prop := {
  ap_wf : wf m';
  ap_res : res = negb (snd (lookup_result (table_content m k)));
  ap_same : res = false → m' = m;
  ap_new : res = true →
    table_content m' k = Some (mk_record v (next_epoch (top m))) ∧
    next_epoch (top m') = (next_epoch (top m) + 1)%Z ∧
    item_count (top m') = wrap64 (item_count (top m) + 1);
  ap_frame : ∀ k', k' ≠ k → k' ≠ 0%Z →
    table_content m' k' = table_content m k';
  ap_where : one_bucket m m' ∨ migrated m m'
}.

(** The second pass of the migration of the store [s], frozen as [F], into
    the store allocated as [N], once the buckets below [i] are done: [self]
    and [ns] are the two stores and [cnt] is the count of live buckets so
    far. *)
Record copy_inv `{HC : hatrack_common} (s F N : hihat_store_t) (i : nat)
    (self ns : hihat_store_t) (cnt : nat) : Prop := {
  ci_self : same_fields F self;
  ci_ns : same_fields N ns;
  ci_len : length (buckets self) = length (buckets s);
  ci_done : ∀ i', (i' < i)%nat →
      buckets self !! i' = moved_bucket <$> buckets s !! i';
  ci_todo : ∀ i', (i ≤ i')%nat →
      buckets self !! i' = frozen_bucket <$> buckets s !! i';
  ci_wf : wf_store ns;
  ci_from : ∀ j b, buckets ns !! j = Some b → hv b ≠ 0%Z →
      ∃ i', (i' < i)%nat ∧ buckets s !! i' = Some b ∧ live b = true;
  ci_to : ∀ i' b, (i' < i)%nat → buckets s !! i' = Some b → live b = true →
      ∃ j, buckets ns !! j = Some b;
  ci_count : count_if reserved (buckets ns) = cnt;
  ci_live : cnt = count_if live (take i (buckets s))
}.

(** ** A concrete choice of the helpers

    Used to run the model on examples: the index of a hash is the hash
    masked by [last_slot], the threshold is three quarters of the size, and
    a migration doubles the size when half of the buckets or more are
    live and keeps it otherwise. *)
Definition example_common : hatrack_common := {|
  HATRACK_MIN_SIZE := 4;
  hatrack_bucket_index := λ h last, Z.to_nat (Z.land h (Z.of_nat last));
  hatrack_compute_table_threshold := λ size, Z.of_nat (size - size / 4);
  hatrack_new_size := λ last used,
    if Nat.leb ((last + 1) / 2) used then (2 * (last + 1))%nat
    else (last + 1)%nat
|}.

(** A run of [put]s, and three tables the examples start from: the empty
    table, a table of three hashes that collide in a store of four buckets
    (its [used_count] has reached the threshold), and what a migration
    makes of that table. *)
Fixpoint put_all `{HC : hatrack_common} (m : memory) (kvs : list (Z * Z))
  : option memory :=
  match kvs with
  | [] => Some m
  | (k, v) :: kvs' =>
      '(m', _) ← hihat_a_put 2 m k v;
      put_all m' kvs'
  end.

Definition example_empty : memory := @hihat_a_init example_common.

Definition example_full : memory :=
  Eval vm_compute in
    default example_empty
      (@put_all example_common example_empty [(1, 10); (5, 50); (9, 90)]%Z).

Definition example_grown : memory :=
  Eval vm_compute in
    default example_empty
      (@put_all example_common example_empty
         [(1, 10); (5, 50); (9, 90); (13, 130)]%Z).

(** The empty table once [next_epoch] has reached the end of the epoch
    field. *)
Definition example_exhausted : memory :=
  mk_memory (stores example_empty) (mk_top 0 0 (2 ^ 62)).

(** The store of [example_full], and the store [example_grown] left
    behind: every record of it carries MOVING and MOVED. *)
Definition example_full_store : hihat_store_t :=
  Eval vm_compute in
    default (@hihat_a_store_new example_common 0) (stores example_full !! 0%nat).

Definition example_frozen_store : hihat_store_t :=
  Eval vm_compute in
    default (@hihat_a_store_new example_common 0) (stores example_grown !! 0%nat).

(** ** Vocabulary of the further properties *)

(** The hashes with a live item, in bucket order, and their number. *)
Definition live_hashes (s : hihat_store_t) : list hatrack_hash_t :=
  hv <$> List.filter live (buckets s).

Definition live_count (m : memory) : nat :=
  default 0%nat (s ← current_store m; Some (count_if live (buckets s))).

(** [item_count] is the number of live items, as a 64-bit number. *)
Definition count_ok (m : memory) : Prop :=
  item_count (top m) = wrap64 (Z.of_nat (live_count m)).

(** [used_count] counts the reserved buckets of a store and has not
    passed the threshold. *)
Record load_ok (s : hihat_store_t) : Prop := {
  load_range : (0 ≤ used_count s ≤ threshold s)%Z;
  load_le : (used_count s ≤ Z.of_nat (count_if reserved (buckets s)))%Z;
  load_mod :
    wrap64 (used_count s) = wrap64 (Z.of_nat (count_if reserved (buckets s)))
}.

Definition table_load_ok (m : memory) : Prop :=
  ∃ s, current_store m = Some s ∧ load_ok s.

(** The table read as a finite map from hashes to items. *)
Definition items `{HC : hatrack_common} (m : memory) (k : hatrack_hash_t)
  : option Z :=
  item <$> table_content m k.

(** A finite map from hashes to items and the calls of the interface on
    it: what the calls do to the map and what they return.  [len] and
    [view] return more than the map determines (a wrapped counter,
    epochs), so the map gives no result for them. *)
Definition map_t : Type := hatrack_hash_t → option Z.

Definition map_empty : map_t := λ _, None.

Definition map_set (f : map_t) (k : hatrack_hash_t) (o : option Z) : map_t :=
  λ k', if (k' =? k)%Z then o else f k'.

Definition map_step (f : map_t) (op : hihat_op) : map_t :=
  match op with
  | op_put k v => map_set f k (Some v)
  | op_replace k v =>
      map_set f k (match f k with Some _ => Some v | None => None end)
  | op_add k v =>
      map_set f k (match f k with Some x => Some x | None => Some v end)
  | op_remove k => map_set f k None
  | op_get _ | op_len | op_view _ => f
  end.

Definition map_item (f : map_t) (k : hatrack_hash_t) : hihat_result :=
  match f k with
  | Some v => res_item v true
  | None => res_item NULL false
  end.

Definition map_result (f : map_t) (op : hihat_op) : option hihat_result :=
  match op with
  | op_get k | op_put k _ | op_replace k _ | op_remove k => Some (map_item f k)
  | op_add k _ =>
      Some (res_bool (match f k with Some _ => false | None => true end))
  | op_len | op_view _ => None
  end.

Fixpoint map_trace (f : map_t) (ops : list hihat_op)
  : list (option hihat_result) * map_t :=
  match ops with
  | [] => ([], f)
  | op :: ops' =>
      let '(rs, f') := map_trace (map_step f op) ops' in
      (map_result f op :: rs, f')
  end.

(** An insertion-ordered dictionary: the hashes and their items, oldest
    insertion first, and the calls of the interface on it.  [put] keeps the
    place of a hash it overwrites and appends a hash it inserts; [remove]
    takes the hash out, so that a later insertion appends it again. *)
Definition dict_t : Type := list (hatrack_hash_t * Z).

Definition dict_has (d : dict_t) (k : hatrack_hash_t) : bool :=
  existsb (λ kv, (kv.1 =? k)%Z) d.

Definition dict_set (d : dict_t) (k : hatrack_hash_t) (v : Z) : dict_t :=
  (λ kv, if (kv.1 =? k)%Z then (k, v) else kv) <$> d.

Definition dict_del (d : dict_t) (k : hatrack_hash_t) : dict_t :=
  List.filter (λ kv, negb (kv.1 =? k)%Z) d.

Definition dict_step (d : dict_t) (op : hihat_op) : dict_t :=
  match op with
  | op_put k v => if dict_has d k then dict_set d k v else d ++ [(k, v)]
  | op_add k v => if dict_has d k then d else d ++ [(k, v)]
  | op_replace k v => if dict_has d k then dict_set d k v else d
  | op_remove k => dict_del d k
  | op_get _ | op_len | op_view _ => d
  end.

Definition dict_run (ops : list hihat_op) : dict_t := foldl dict_step [] ops.

(** The dictionary with the epoch of each insertion, and its relation to
    a table: the entries are in ascending order of epoch and are the
    records the table maps the hashes to. *)
Definition stamped_t : Type := list (hatrack_hash_t * Z * Z).

Definition stamped_set (T : stamped_t) (k : hatrack_hash_t) (v : Z)
  : stamped_t :=
  (λ t, if (t.1.1 =? k)%Z then (k, v, t.2) else t) <$> T.

Definition stamped_del (T : stamped_t) (k : hatrack_hash_t) : stamped_t :=
  List.filter (λ t, negb (t.1.1 =? k)%Z) T.

Definition stamped_step (T : stamped_t) (op : hihat_op) (ne : Z) : stamped_t :=
  match op with
  | op_put k v =>
      if dict_has (fst <$> T) k then stamped_set T k v else T ++ [(k, v, ne)]
  | op_add k v => if dict_has (fst <$> T) k then T else T ++ [(k, v, ne)]
  | op_replace k v => if dict_has (fst <$> T) k then stamped_set T k v else T
  | op_remove k => stamped_del T k
  | op_get _ | op_len | op_view _ => T
  end.

Definition stamp_before (a b : hatrack_hash_t * Z * Z) : Prop := (a.2 < b.2)%Z.

Definition stamped_view (T : stamped_t) : list hatrack_view_t :=
  (λ t, mk_view t.1.2 t.2) <$> T.

Record stamped_ok `{HC : hatrack_common} (m : memory) (T : stamped_t)
  : Prop := {
  so_sorted : StronglySorted stamp_before T;
  so_elem : ∀ k v e,
    (k, v, e) ∈ T ↔ k ≠ 0%Z ∧ table_content m k = Some (mk_record v e)
}.

(** A run of calls with the results they return. *)
Fixpoint hihat_a_trace `{HC : hatrack_common} (fuel : nat) (m : memory)
    (ops : list hihat_op) : option (list hihat_result * memory) :=
  match ops with
  | [] => Some ([], m)
  | op :: ops' =>
      '(m', r) ← hihat_a_call fuel m op;
      '(rs, m'') ← hihat_a_trace fuel m' ops';
      Some (r :: rs, m'')
  end.

(** A result agrees with what the map gives, where the map gives one. *)
Definition result_agrees (r : hihat_result) (o : option hihat_result) : Prop :=
  ∀ r0, o = Some r0 → r = r0.

(** * Proofs *)

(** ** The example helpers meet the requirements *)

Lemma example_common_ok : @hatrack_common_ok example_common.
Proof.
  split.
  - by exists 2%nat.
  - intros h n. cbn [hatrack_bucket_index example_common].
    pose proof (Nat.pow_nonzero 2 n) as Hnz.
    replace (Z.of_nat (2 ^ n - 1)) with (Z.ones (Z.of_nat n)).
    2: { rewrite Z.ones_equiv, Nat2Z.inj_sub, Nat2Z.inj_pow by lia. simpl. lia. }
    rewrite Z.land_ones by lia.
    pose proof (Z.mod_pos_bound h (2 ^ Z.of_nat n)) as Hb.
    assert (0 < 2 ^ Z.of_nat n)%Z as Hpos by (apply Z.pow_pos_nonneg; lia).
    specialize (Hb Hpos).
    apply Nat2Z.inj_lt. rewrite Z2Nat.id by lia.
    rewrite Nat2Z.inj_pow. simpl. lia.
  - intros n used Hused. cbn [hatrack_new_size example_common].
    pose proof (Nat.pow_nonzero 2 n) as Hnz.
    replace (2 ^ n - 1 + 1)%nat with (2 ^ n)%nat by lia.
    destruct (Nat.leb (2 ^ n / 2) used).
    + exists (S n). by rewrite Nat.pow_succ_r'.
    + by exists n.
  - intros n used Hused.
    cbn [hatrack_new_size hatrack_compute_table_threshold example_common].
    pose proof (Nat.pow_nonzero 2 n) as Hnz.
    replace (2 ^ n - 1 + 1)%nat with (2 ^ n)%nat by lia.
    assert (0 < 2 ^ n)%nat as Hpos by lia.
    generalize dependent (2 ^ n)%nat. intros x Hused _ Hpos.
    destruct (Nat.leb_spec (x / 2) used) as [Hle | Hlt].
    + split; [lia |]. apply Nat2Z.inj_lt.
      pose proof (Nat.div_mod_eq x 2). pose proof (Nat.div_mod_eq (2 * x) 4).
      pose proof (Nat.mod_upper_bound x 2). pose proof (Nat.mod_upper_bound (2 * x) 4).
      lia.
    + pose proof (Nat.div_mod_eq x 2). pose proof (Nat.div_mod_eq x 4).
      pose proof (Nat.mod_upper_bound x 2). pose proof (Nat.mod_upper_bound x 4).
      split; [lia |]. apply Nat2Z.inj_lt. lia.
Qed.

(** ** The info word *)

Lemma land_small_moving x : (0 ≤ x < 2 ^ 62)%Z → Z.land x HIHAT_F_MOVING = 0%Z.
Proof.
  intros Hx. apply Z.bits_inj'. intros n Hn.
  rewrite Z.land_spec, Z.bits_0. unfold HIHAT_F_MOVING.
  rewrite Z.pow2_bits_eqb by lia.
  destruct (Z.eqb_spec 62 n) as [<- | Hne]; [| apply andb_false_r].
  rewrite andb_true_r. apply Z.bits_above_log2; [lia |].
  destruct (Z.eq_dec x 0) as [-> | ?]; [simpl; lia |].
  apply Z.log2_lt_pow2; lia.
Qed.

Lemma land_small_moved x : (0 ≤ x < 2 ^ 62)%Z → Z.land x HIHAT_F_MOVED = 0%Z.
Proof.
  intros Hx. apply Z.bits_inj'. intros n Hn.
  rewrite Z.land_spec, Z.bits_0. unfold HIHAT_F_MOVED.
  rewrite Z.pow2_bits_eqb by lia.
  destruct (Z.eqb_spec 63 n) as [<- | Hne]; [| apply andb_false_r].
  rewrite andb_true_r. apply Z.bits_above_log2; [lia |].
  destruct (Z.eq_dec x 0) as [-> | ?]; [simpl; lia |].
  apply Z.log2_lt_pow2; lia.
Qed.

Lemma land_small_mask x : (0 ≤ x < 2 ^ 62)%Z → Z.land x HIHAT_EPOCH_MASK = x.
Proof.
  intros Hx. change HIHAT_EPOCH_MASK with (Z.ones 62).
  rewrite Z.land_ones by lia. apply Z.mod_small. lia.
Qed.

Lemma epoch_of_lor_moving r :
  Z.land (Z.lor (info r) HIHAT_F_MOVING) HIHAT_EPOCH_MASK = epoch_of r.
Proof.
  unfold epoch_of. rewrite Z.land_lor_distr_l.
  change (Z.land HIHAT_F_MOVING HIHAT_EPOCH_MASK) with 0%Z. apply Z.lor_0_r.
Qed.

Lemma epoch_of_lor_moved r :
  Z.land (Z.lor (info r) HIHAT_F_MOVED) HIHAT_EPOCH_MASK = epoch_of r.
Proof.
  unfold epoch_of. rewrite Z.land_lor_distr_l.
  change (Z.land HIHAT_F_MOVED HIHAT_EPOCH_MASK) with 0%Z. apply Z.lor_0_r.
Qed.

Lemma lor_flag_nonzero x f g :
  Z.land f g ≠ 0%Z → Z.land (Z.lor x f) g ≠ 0%Z.
Proof.
  intros Hf. rewrite Z.land_lor_distr_l. rewrite Z.lor_eq_0_iff. tauto.
Qed.

Lemma lor_keeps_flag x f g :
  Z.land x g ≠ 0%Z → Z.land (Z.lor x f) g ≠ 0%Z.
Proof.
  intros Hf. rewrite Z.land_lor_distr_l. rewrite Z.lor_eq_0_iff. tauto.
Qed.

Lemma lor_other_flag x f g :
  Z.land f g = 0%Z → Z.land (Z.lor x f) g = Z.land x g.
Proof.
  intros Hf. rewrite Z.land_lor_distr_l, Hf. apply Z.lor_0_r.
Qed.

Section record_facts.
Implicit Types r : hihat_record_t.

Lemma record_eqb_refl r : record_eqb r r = true.
Proof. unfold record_eqb. by rewrite !Z.eqb_refl. Qed.

Lemma record_eqb_eq r1 r2 : record_eqb r1 r2 = true → r1 = r2.
Proof.
  destruct r1, r2. unfold record_eqb. simpl.
  rewrite andb_true_iff, !Z.eqb_eq. intros [-> ->]. done.
Qed.

Lemma LCAS_record_same r c : LCAS record_eqb r r c = (c, r, true).
Proof. unfold LCAS. by rewrite record_eqb_refl. Qed.

Lemma LCAS_hv_same (h c : Z) : LCAS Z.eqb h h c = (c, h, true).
Proof. unfold LCAS. by rewrite Z.eqb_refl. Qed.

(** A record without flags. *)
Lemma plain_not_moving r :
  (0 ≤ info r < 2 ^ 62)%Z → is_moving r = false.
Proof. intros H. unfold is_moving. by rewrite land_small_moving. Qed.

Lemma plain_not_moved r :
  (0 ≤ info r < 2 ^ 62)%Z → is_moved r = false.
Proof. intros H. unfold is_moved. by rewrite land_small_moved. Qed.

Lemma plain_epoch_of r :
  (0 ≤ info r < 2 ^ 62)%Z → epoch_of r = info r.
Proof. intros H. unfold epoch_of. by rewrite land_small_mask. Qed.

Lemma plain_has_epoch r :
  (0 ≤ info r < 2 ^ 62)%Z → has_epoch r = negb (info r =? 0)%Z.
Proof. intros H. unfold has_epoch. by rewrite plain_epoch_of. Qed.

End record_facts.

(** ** Probe paths *)

Lemma next_bix_mod s bix :
  sized s → next_bix s bix = ((bix + 1) mod length (buckets s))%nat.
Proof.
  intros (n & Hl & Hlen). unfold next_bix. rewrite Hl, Hlen.
  replace (2 ^ n - 1)%nat with (Nat.ones n)
    by (rewrite Nat.ones_equiv; lia).
  apply Nat.land_ones.
Qed.

Lemma sized_pos s : sized s → (0 < length (buckets s))%nat.
Proof.
  intros (n & _ & ->). pose proof (Nat.pow_nonzero 2 n). lia.
Qed.

Lemma sized_last_slot s : sized s → S (last_slot s) = length (buckets s).
Proof.
  intros (n & -> & ->). pose proof (Nat.pow_nonzero 2 n). lia.
Qed.

Lemma next_bix_lt s bix : sized s → (next_bix s bix < length (buckets s))%nat.
Proof.
  intros Hs. rewrite next_bix_mod by done.
  apply Nat.mod_upper_bound. pose proof (sized_pos s Hs). lia.
Qed.

Section probes.
Context `{HC : hatrack_common}.
Implicit Types (s : hihat_store_t) (k : hatrack_hash_t) (b : hihat_bucket_t).

Lemma probe_Some s k n bix j :
  probe s k n bix = Some j → ∃ b, buckets s !! j = Some b ∧ stops k b.
Proof.
  revert bix. induction n as [| n IH]; intros bix; simpl; [done |].
  destruct (buckets s !! bix) as [b |] eqn:Hb; [| done].
  unfold hatrack_bucket_unreserved, hatrack_hashes_eq.
  destruct (Z.eqb_spec (hv b) 0).
  { intros [= <-]. exists b. split; [done | by left]. }
  destruct (Z.eqb_spec k (hv b)).
  { intros [= <-]. exists b. split; [done | by right]. }
  apply IH.
Qed.

Lemma probe_lt s k n bix j :
  probe s k n bix = Some j → (j < length (buckets s))%nat.
Proof.
  intros (b & Hb & _)%probe_Some. by eapply lookup_lt_Some.
Qed.

(** The probe reads the hashes only. *)
Lemma probe_ext s s' k n bix :
  last_slot s' = last_slot s →
  (∀ i, hv <$> buckets s' !! i = hv <$> buckets s !! i) →
  probe s' k n bix = probe s k n bix.
Proof.
  intros Hl Hhv. revert bix. induction n as [| n IH]; intros bix; simpl; [done |].
  specialize (Hhv bix).
  destruct (buckets s' !! bix) as [b' |], (buckets s !! bix) as [b |];
    simpl in Hhv; try done.
  injection Hhv as ->.
  unfold next_bix. rewrite Hl. fold (next_bix s bix). by rewrite IH.
Qed.

Lemma slot_of_ext s s' k :
  last_slot s' = last_slot s →
  (∀ i, hv <$> buckets s' !! i = hv <$> buckets s !! i) →
  slot_of s' k = slot_of s k.
Proof.
  intros Hl Hhv. unfold slot_of. rewrite Hl. by apply probe_ext.
Qed.

(** Writing a hash into an unreserved bucket keeps every probe that did not
    end there, and a probe for the written hash still ends there. *)
Lemma probe_claim s j bj b' k n bix i :
  buckets s !! j = Some bj → hv bj = 0%Z →
  probe s k n bix = Some i →
  i ≠ j ∨ hv b' = k →
  probe (set_bucket s j b') k n bix = Some i.
Proof.
  intros Hj Hbj. revert bix. induction n as [| n IH]; intros bix; simpl; [done |].
  destruct (decide (bix = j)) as [-> | Hne].
  - rewrite Hj, list_lookup_insert_eq by (by eapply lookup_lt_Some).
    unfold hatrack_bucket_unreserved at 1. rewrite Hbj. simpl.
    intros [= <-] [? | Hk]; [done |].
    unfold hatrack_bucket_unreserved, hatrack_hashes_eq. rewrite Hk.
    destruct (k =? 0)%Z; [done |]. by rewrite Z.eqb_refl.
  - rewrite list_lookup_insert_ne by done.
    destruct (buckets s !! bix) as [b |]; [| done].
    destruct (hatrack_bucket_unreserved (hv b)); [done |].
    destruct (hatrack_hashes_eq k (hv b)); [done |].
    apply IH.
Qed.

(** A probe over a whole store finds a bucket it can stop at whenever there
    is one. *)
Lemma probe_reaches s k n bix :
  sized s → (bix < length (buckets s))%nat →
  (∃ d b, (d < n)%nat ∧
          buckets s !! ((bix + d) mod length (buckets s))%nat = Some b ∧
          stops k b) →
  is_Some (probe s k n bix).
Proof.
  intros Hs. revert bix.
  induction n as [| n IH]; intros bix Hbix (d & b & Hd & Hb & Hstop); [lia |].
  simpl.
  destruct (lookup_lt_is_Some_2 _ _ Hbix) as [b0 Hb0]. rewrite Hb0.
  unfold hatrack_bucket_unreserved, hatrack_hashes_eq.
  destruct (Z.eqb_spec (hv b0) 0); [done |].
  destruct (Z.eqb_spec k (hv b0)); [done |].
  apply IH; [by apply next_bix_lt |].
  destruct d as [| d].
  { rewrite Nat.add_0_r, Nat.mod_small in Hb by done.
    rewrite Hb0 in Hb. injection Hb as <-. destruct Hstop; congruence. }
  exists d, b. split; [lia |]. split; [| done].
  rewrite next_bix_mod by done.
  rewrite Nat.Div0.add_mod_idemp_l.
  by replace (bix + 1 + d)%nat with (bix + S d)%nat by lia.
Qed.

Lemma probe_total s k bix t b :
  sized s → (bix < length (buckets s))%nat →
  buckets s !! t = Some b → stops k b →
  is_Some (probe s k (length (buckets s)) bix).
Proof.
  intros Hs Hbix Ht Hstop. apply probe_reaches; [done.. |].
  pose proof (lookup_lt_Some _ _ _ Ht) as Hlt.
  set (len := length (buckets s)) in *.
  exists ((t + len - bix) mod len)%nat, b.
  split; [apply Nat.mod_upper_bound; lia |]. split; [| done].
  rewrite Nat.Div0.add_mod_idemp_r.
  replace (bix + (t + len - bix))%nat with (t + 1 * len)%nat by lia.
  by rewrite Nat.Div0.mod_add, Nat.mod_small.
Qed.

(** *** The loops of the operations, in terms of the probe *)

Lemma get_loop_probe s k n bix :
  sized s → (bix < length (buckets s))%nat →
  hihat_a_store_get_loop s k n bix =
    Some (match probe s k n bix ≫= λ j, buckets s !! j with
          | Some b =>
              if hatrack_bucket_unreserved (hv b) then (NULL, false)
              else if has_epoch (record b) then (item (record b), true)
              else (NULL, false)
          | None => (NULL, false)
          end).
Proof.
  intros Hs. revert bix. induction n as [| n IH]; intros bix Hbix; simpl; [done |].
  destruct (lookup_lt_is_Some_2 _ _ Hbix) as [b Hb]. rewrite Hb. simpl.
  destruct (hatrack_bucket_unreserved (hv b)) eqn:Hu.
  { simpl. by rewrite Hb, Hu. }
  destruct (hatrack_hashes_eq k (hv b)) eqn:He; simpl.
  { rewrite Hb, Hu. by destruct (has_epoch (record b)). }
  apply IH. by apply next_bix_lt.
Qed.

Lemma find_loop_probe s k n bix :
  sized s → (bix < length (buckets s))%nat →
  find_loop s k n bix =
    Some (match probe s k n bix with
          | Some j =>
              match buckets s !! j with
              | Some b => if hatrack_bucket_unreserved (hv b) then None else Some j
              | None => None
              end
          | None => None
          end).
Proof.
  intros Hs. revert bix. induction n as [| n IH]; intros bix Hbix; simpl; [done |].
  destruct (lookup_lt_is_Some_2 _ _ Hbix) as [b Hb]. rewrite Hb. simpl.
  destruct (hatrack_bucket_unreserved (hv b)) eqn:Hu.
  { by rewrite Hb, Hu. }
  destruct (hatrack_hashes_eq k (hv b)) eqn:He; simpl.
  { by rewrite Hb, Hu. }
  apply IH. by apply next_bix_lt.
Qed.

Lemma acquire_loop_probe s k n bix :
  sized s → (bix < length (buckets s))%nat →
  (∀ i b, buckets s !! i = Some b → hv b = 0%Z → record b = mk_record NULL 0) →
  acquire_loop s k n bix =
    Some (match probe s k n bix with
          | Some j =>
              match buckets s !! j with
              | Some b =>
                  if hatrack_bucket_unreserved (hv b) then
                    if (used_count s >=? threshold s)%Z
                    then migrate_and_retry (claimed s j k)
                    else found_bucket (claimed s j k) j
                  else found_bucket s j
              | None => migrate_and_retry s
              end
          | None => migrate_and_retry s
          end).
Proof.
  intros Hs Hbix Hun. revert bix Hbix.
  induction n as [| n IH]; intros bix Hbix; simpl; [done |].
  destruct (lookup_lt_is_Some_2 _ _ Hbix) as [b Hb]. rewrite Hb. simpl.
  destruct (hatrack_bucket_unreserved (hv b)) eqn:Hu.
  { rewrite LCAS_hv_same, Hb, Hu. simpl.
    unfold claimed, set_hv.
    rewrite (Hun bix b Hb) by (by apply Z.eqb_eq).
    by destruct (used_count s >=? threshold s)%Z. }
  destruct (hatrack_hashes_eq k (hv b)) eqn:He; simpl.
  { by rewrite Hb, Hu. }
  apply IH. by apply next_bix_lt.
Qed.

Lemma migrate_probe_probe s k n bix nb j b :
  probe s k n bix = Some j → buckets s !! j = Some b →
  hihat_a_store_migrate_probe s k n bix nb =
    Some (if hatrack_bucket_unreserved (hv b)
          then set_bucket s j (set_hv b k) else s, j).
Proof.
  revert bix nb. induction n as [| n IH]; intros bix nb; simpl; [done |].
  destruct (buckets s !! bix) as [b0 |] eqn:Hb0; [| done]. simpl.
  destruct (hatrack_bucket_unreserved (hv b0)) eqn:Hu.
  { intros [= <-] Hb. rewrite Hb0 in Hb. injection Hb as <-.
    by rewrite LCAS_hv_same, Hu. }
  unfold hatrack_hashes_eq. rewrite (Z.eqb_sym (hv b0) k).
  destruct (k =? hv b0)%Z eqn:He; simpl.
  { intros [= <-] Hb. rewrite Hb0 in Hb. injection Hb as <-. by rewrite Hu. }
  apply IH.
Qed.

End probes.

(** ** Counting buckets *)

Lemma count_if_cons f b l :
  count_if f (b :: l) = ((if f b then 1 else 0) + count_if f l)%nat.
Proof. unfold count_if. simpl. by destruct (f b). Qed.

Lemma count_if_app f l1 l2 :
  count_if f (l1 ++ l2) = (count_if f l1 + count_if f l2)%nat.
Proof. unfold count_if. by rewrite List.filter_app, length_app. Qed.

Lemma count_if_le_length f l : (count_if f l ≤ length l)%nat.
Proof.
  induction l as [| b l IH]; [done |].
  rewrite count_if_cons. simpl. destruct (f b); lia.
Qed.

Lemma count_if_insert f l j b b' :
  l !! j = Some b → f b = false → f b' = true →
  count_if f (<[j := b']> l) = S (count_if f l).
Proof.
  revert j. induction l as [| a l IH]; intros [| j]; simpl; try done.
  - intros [= ->] Hb Hb'. rewrite !count_if_cons, Hb, Hb'. done.
  - intros Hl Hb Hb'. rewrite !count_if_cons, (IH j) by done. lia.
Qed.

Lemma count_if_free f l :
  (count_if f l < length l)%nat → ∃ j b, l !! j = Some b ∧ f b = false.
Proof.
  induction l as [| a l IH]; simpl; [lia |].
  rewrite count_if_cons. destruct (f a) eqn:Ha.
  - intros Hlt. destruct IH as (j & b & Hj & Hb); [lia |].
    by exists (S j), b.
  - intros _. by exists 0%nat, a.
Qed.

Lemma count_if_take_S f l i b :
  l !! i = Some b →
  count_if f (take (S i) l) = (count_if f (take i l) + (if f b then 1 else 0))%nat.
Proof.
  intros Hi. rewrite (take_S_r _ _ _ Hi), count_if_app, count_if_cons.
  change (count_if f []) with 0%nat. lia.
Qed.

Lemma count_if_take_le f l i : (count_if f (take i l) ≤ count_if f l)%nat.
Proof.
  rewrite <- (take_drop i l) at 2. rewrite count_if_app. lia.
Qed.

(** ** Stores *)

Section store_facts.
Context `{HC : hatrack_common} `{!hatrack_common_ok}.
Implicit Types (s : hihat_store_t) (k : hatrack_hash_t) (b : hihat_bucket_t).

Lemma index_lt s k :
  sized s → (hatrack_bucket_index k (last_slot s) < length (buckets s))%nat.
Proof. intros (n & -> & ->). apply bucket_index_lt. Qed.

Lemma slot_of_Some s k j :
  slot_of s k = Some j → ∃ b, buckets s !! j = Some b ∧ stops k b.
Proof. apply probe_Some. Qed.

Lemma slot_of_total s k t b :
  sized s → buckets s !! t = Some b → stops k b → is_Some (slot_of s k).
Proof.
  intros Hs Ht Hstop. unfold slot_of. rewrite (sized_last_slot s Hs).
  eapply probe_total; eauto using index_lt.
Qed.

Lemma store_get_content s k :
  sized s →
  hihat_a_store_get s k =
    Some (match content s k with
          | Some r => (item r, true)
          | None => (NULL, false)
          end).
Proof.
  intros Hs. unfold hihat_a_store_get, content, slot_of.
  rewrite get_loop_probe by eauto using index_lt.
  destruct (probe s k _ _ ≫= _) as [b |]; simpl; [| done].
  unfold reserved, live.
  destruct (hatrack_bucket_unreserved (hv b)); simpl; [done |].
  by destruct (has_epoch (record b)).
Qed.

Lemma probe_inv_unique s i1 i2 b1 b2 :
  probe_inv s →
  buckets s !! i1 = Some b1 → buckets s !! i2 = Some b2 →
  hv b1 = hv b2 → hv b1 ≠ 0%Z → i1 = i2.
Proof.
  intros Hp H1 H2 Heq Hne.
  pose proof (Hp _ _ H1 Hne) as E1.
  pose proof (Hp _ _ H2) as E2. rewrite <- Heq in E2.
  specialize (E2 Hne). congruence.
Qed.

Lemma content_Some s k r :
  sized s → probe_inv s → k ≠ 0%Z →
  content s k = Some r ↔
  ∃ i b, buckets s !! i = Some b ∧ hv b = k ∧ live b = true ∧ record b = r.
Proof.
  intros Hs Hp Hk. unfold content. split.
  - destruct (slot_of s k) as [j |] eqn:Hj; simpl; [| done].
    destruct (buckets s !! j) as [b |] eqn:Hb; simpl; [| done].
    destruct (reserved b) eqn:Hr; simpl; [| done].
    destruct (live b) eqn:Hl; [| done].
    intros [= <-]. exists j, b. repeat split; try done.
    apply slot_of_Some in Hj as (b' & Hb' & [H0 | Hkb]).
    + rewrite Hb in Hb'. injection Hb' as <-.
      unfold reserved, hatrack_bucket_unreserved in Hr. rewrite H0 in Hr. done.
    + congruence.
  - intros (i & b & Hb & <- & Hl & <-).
    rewrite (Hp _ _ Hb Hk). simpl. rewrite Hb. simpl.
    unfold reserved, hatrack_bucket_unreserved.
    destruct (Z.eqb_spec (hv b) 0); [done |]. simpl. by rewrite Hl.
Qed.

Lemma content_None s k :
  sized s → probe_inv s → k ≠ 0%Z →
  content s k = None ↔
  ∀ i b, buckets s !! i = Some b → hv b = k → live b = false.
Proof.
  intros Hs Hp Hk. split.
  - intros Hnone i b Hb Hkb. destruct (live b) eqn:Hl; [| done].
    assert (content s k = Some (record b)) as E; [| congruence].
    apply content_Some; [done.. |]. by exists i, b.
  - intros Hall. destruct (content s k) as [r |] eqn:E; [| done].
    apply content_Some in E as (i & b & Hb & Hkb & Hl & _); [| done..].
    rewrite (Hall _ _ Hb Hkb) in Hl. done.
Qed.

(** The probe invariant survives a change of records. *)
Lemma probe_inv_ext s s' :
  probe_inv s → last_slot s' = last_slot s →
  (∀ i, hv <$> buckets s' !! i = hv <$> buckets s !! i) →
  probe_inv s'.
Proof.
  intros Hp Hl Hhv i b' Hb' Hne.
  rewrite (slot_of_ext s s') by done.
  specialize (Hhv i). rewrite Hb' in Hhv. simpl in Hhv.
  destruct (buckets s !! i) as [b |] eqn:Hb; [| done].
  injection Hhv as Hhv. rewrite Hhv. apply (Hp _ _ Hb). congruence.
Qed.

(** The probe invariant survives the claim of the bucket a probe ended at. *)
Lemma probe_inv_claim s k j bj b' :
  probe_inv s → slot_of s k = Some j →
  buckets s !! j = Some bj → hv bj = 0%Z → hv b' = k →
  probe_inv (set_bucket s j b').
Proof.
  intros Hp Hslot Hj Hbj Hb' i b Hb Hne.
  unfold slot_of. change (last_slot (set_bucket s j b')) with (last_slot s).
  change (buckets (set_bucket s j b')) with (<[j:=b']> (buckets s)) in Hb.
  destruct (decide (i = j)) as [-> | Hij].
  - pose proof (lookup_lt_Some _ _ _ Hj) as Hlt.
    rewrite list_lookup_insert_eq in Hb by exact Hlt.
    injection Hb as <-. rewrite Hb'.
    eapply probe_claim; eauto.
  - rewrite list_lookup_insert_ne in Hb by done.
    eapply probe_claim; eauto.
Qed.

End store_facts.

(** ** Migration *)

Section migration.
Context `{HC : hatrack_common} `{!hatrack_common_ok}.
Implicit Types (s : hihat_store_t) (k : hatrack_hash_t) (b : hihat_bucket_t).

(** The first pass applies [migrate_freeze_bucket] to every bucket and
    counts the records that carry an epoch. *)
Lemma freeze_loop s n i cnt :
  (i + n = length (buckets s))%nat →
  hihat_a_store_migrate_freeze s n i cnt =
    Some (set_buckets s
            (take i (buckets s) ++ (migrate_freeze_bucket <$> drop i (buckets s))),
          (cnt + count_if live (drop i (buckets s)))%nat).
Proof.
  revert s i cnt. induction n as [| n IH]; intros s i cnt Hlen; simpl.
  - rewrite drop_ge by lia. simpl. rewrite app_nil_r.
    change (count_if live []) with 0%nat. rewrite Nat.add_0_r.
    rewrite take_ge by lia. by destruct s.
  - destruct (lookup_lt_is_Some_2 (buckets s) i) as [b Hb]; [lia |].
    rewrite Hb. simpl.
    rewrite IH by (simpl; rewrite length_insert; lia).
    pose proof (lookup_lt_Some _ _ _ Hb) as Hlt.
    f_equal. f_equal.
    + unfold set_buckets, set_bucket. simpl. f_equal.
      rewrite (take_S_r _ _ (migrate_freeze_bucket b))
        by (by apply list_lookup_insert_eq).
      rewrite take_insert_ge, drop_insert_lt by lia.
      rewrite (drop_S _ _ _ Hb). simpl. by rewrite <- app_assoc.
    + unfold set_bucket. simpl. rewrite drop_insert_lt by lia.
      rewrite (drop_S _ _ _ Hb), count_if_cons. unfold live at 2.
      destruct (has_epoch (record b)); lia.
Qed.

Lemma freeze_bucket_plain b :
  (0 ≤ info (record b) < 2 ^ 62)%Z → migrate_freeze_bucket b = frozen_bucket b.
Proof.
  intros Hp. unfold migrate_freeze_bucket, frozen_bucket.
  rewrite plain_not_moving by done. rewrite LCAS_record_same.
  unfold set_record. by destruct (info (record b) =? 0)%Z.
Qed.

Lemma freeze_spec s :
  sized s →
  (∀ i b, buckets s !! i = Some b → (0 ≤ info (record b) < 2 ^ 62)%Z) →
  hihat_a_store_migrate_freeze s (S (last_slot s)) 0 0 =
    Some (set_buckets s (frozen_bucket <$> buckets s),
          count_if live (buckets s)).
Proof.
  intros Hs Hplain. rewrite (sized_last_slot s Hs), freeze_loop by done.
  rewrite drop_0. simpl. do 3 f_equal.
  apply list_eq. intros i. rewrite !list_lookup_fmap.
  destruct (buckets s !! i) as [b |] eqn:Hb; simpl; [| done].
  f_equal. apply freeze_bucket_plain. eauto.
Qed.

Lemma frozen_has_epoch b :
  (0 ≤ info (record b) < 2 ^ 62)%Z →
  has_epoch (record (frozen_bucket b)) = live b.
Proof.
  intros Hp. unfold live. rewrite (plain_has_epoch _ Hp).
  unfold frozen_bucket, has_epoch. simpl.
  destruct (Z.eqb_spec (info (record b)) 0) as [E | E]; [done |].
  unfold epoch_of at 1. simpl.
  rewrite epoch_of_lor_moving, plain_epoch_of by done.
  by destruct (Z.eqb_spec (info (record b)) 0).
Qed.

Lemma frozen_is_moved b :
  (0 ≤ info (record b) < 2 ^ 62)%Z →
  is_moved (record (frozen_bucket b)) = negb (live b).
Proof.
  intros Hp. unfold live. rewrite (plain_has_epoch _ Hp).
  unfold frozen_bucket, is_moved. simpl.
  destruct (Z.eqb_spec (info (record b)) 0) as [E | E]; [done |].
  simpl. rewrite lor_other_flag by done. by rewrite land_small_moved.
Qed.

Lemma frozen_epoch_of b :
  (0 ≤ info (record b) < 2 ^ 62)%Z → live b = true →
  epoch_of (record (frozen_bucket b)) = info (record b).
Proof.
  intros Hp. unfold live. rewrite (plain_has_epoch _ Hp).
  unfold frozen_bucket. simpl.
  destruct (Z.eqb_spec (info (record b)) 0) as [E | E]; [done |]. intros _.
  unfold epoch_of at 1. simpl.
  by rewrite epoch_of_lor_moving, plain_epoch_of.
Qed.

Lemma copy_bucket_dead self ns i cnt b :
  buckets self !! i = Some (frozen_bucket b) →
  (0 ≤ info (record b) < 2 ^ 62)%Z → live b = false →
  migrate_copy_bucket self ns i cnt = Some (self, ns, cnt).
Proof.
  intros Hi Hp Hl. unfold migrate_copy_bucket. rewrite Hi.
  cbn [mbind option_bind].
  rewrite frozen_has_epoch, frozen_is_moved, Hl by done. done.
Qed.

Lemma copy_bucket_live self ns i cnt b j bj :
  buckets self !! i = Some (frozen_bucket b) →
  (0 ≤ info (record b) < 2 ^ 62)%Z → live b = true →
  slot_of ns (hv b) = Some j → buckets ns !! j = Some bj →
  hv bj = 0%Z → record bj = mk_record NULL 0 →
  migrate_copy_bucket self ns i cnt =
    Some (set_bucket self i (moved_bucket b), set_bucket ns j b, S cnt).
Proof.
  intros Hi Hp Hl Hslot Hj Hbj Hrec. unfold migrate_copy_bucket.
  rewrite Hi. cbn [mbind option_bind].
  rewrite frozen_has_epoch, frozen_is_moved, Hl by done. cbn [negb].
  change (hv (frozen_bucket b)) with (hv b).
  unfold slot_of in Hslot.
  rewrite (migrate_probe_probe _ _ _ _ _ _ _ Hslot Hj).
  unfold hatrack_bucket_unreserved. rewrite Hbj. simpl.
  rewrite list_lookup_insert_eq by (by eapply lookup_lt_Some). simpl.
  rewrite Hrec. rewrite LCAS_record_same, LCAS_record_same.
  apply f_equal. apply (f_equal2 pair); [apply (f_equal2 pair) | done].
  - apply f_equal. unfold set_record, moved_bucket, frozen_bucket. simpl.
    unfold live in Hl. rewrite (plain_has_epoch _ Hp) in Hl.
    by destruct (info (record b) =? 0)%Z.
  - unfold set_bucket, set_buckets. simpl. rewrite list_insert_insert_eq.
    do 2 f_equal. unfold set_record, set_hv. simpl.
    pose proof (frozen_epoch_of b Hp Hl) as E.
    unfold frozen_bucket in E. simpl in E. rewrite E.
    by destruct b as [h [it inf]].
Qed.

Lemma same_fields_eq s s' : same_fields s s' → s' = set_buckets s (buckets s').
Proof.
  destruct s'. unfold same_fields, set_buckets. simpl.
  by intros (-> & -> & -> & ->).
Qed.

Lemma live_reserved s i b :
  wf_store s → buckets s !! i = Some b → live b = true → hv b ≠ 0%Z.
Proof.
  intros Hwf Hb Hl E. unfold live in Hl.
  by rewrite (wf_unres s Hwf i b Hb E) in Hl.
Qed.

Lemma wf_store_install s j bj b :
  wf_store s → slot_of s (hv b) = Some j →
  buckets s !! j = Some bj → hv bj = 0%Z →
  hv b ≠ 0%Z → (0 ≤ info (record b) < 2 ^ 62)%Z →
  wf_store (set_bucket s j b).
Proof.
  intros Hwf Hslot Hj Hbj Hne Hp.
  pose proof (lookup_lt_Some _ _ _ Hj) as Hlt.
  split.
  - destruct (wf_sized s Hwf) as (n & Hl & Hlen). exists n. simpl.
    by rewrite length_insert.
  - eapply probe_inv_claim; eauto using wf_probe.
  - intros i b0. simpl. destruct (decide (i = j)) as [-> | Hij].
    + rewrite list_lookup_insert_eq by done. intros [= <-]. done.
    + rewrite list_lookup_insert_ne by done. apply (wf_unres s Hwf).
  - intros i b0. simpl. destruct (decide (i = j)) as [-> | Hij].
    + rewrite list_lookup_insert_eq by done. by intros [= <-].
    + rewrite list_lookup_insert_ne by done. apply (wf_info s Hwf).
  - apply (wf_next s Hwf).
Qed.

Lemma copy_step s F N i self ns cnt :
  wf_store s →
  (count_if live (buckets s) < length (buckets ns))%nat →
  (i < length (buckets s))%nat →
  copy_inv s F N i self ns cnt →
  ∃ self' ns' cnt',
    migrate_copy_bucket self ns i cnt = Some (self', ns', cnt') ∧
    copy_inv s F N (S i) self' ns' cnt'.
Proof.
  intros Hwf Hroom Hi Hinv.
  destruct (lookup_lt_is_Some_2 _ _ Hi) as [b Hb].
  pose proof (wf_info s Hwf i b Hb) as Hp.
  assert (buckets self !! i = Some (frozen_bucket b)) as Hself.
  { by rewrite (ci_todo _ _ _ _ _ _ _ Hinv), Hb. }
  pose proof (lookup_lt_Some _ _ _ Hself) as Hlts.
  destruct (live b) eqn:Hl.
  - pose proof (live_reserved s i b Hwf Hb Hl) as Hhv.
    assert (∀ j bj, buckets ns !! j = Some bj → hv bj ≠ hv b) as Hfresh.
    { intros j bj Hj E.
      destruct (ci_from _ _ _ _ _ _ _ Hinv j bj Hj) as (i' & Hi' & Hs' & _);
        [congruence |].
      assert (i' = i); [| lia].
      eapply probe_inv_unique; eauto using wf_probe. congruence. }
    destruct (count_if_free reserved (buckets ns)) as (t & bt & Ht & Hbt).
    { rewrite (ci_count _ _ _ _ _ _ _ Hinv), (ci_live _ _ _ _ _ _ _ Hinv).
      pose proof (count_if_take_le live (buckets s) i). lia. }
    pose proof (ci_wf _ _ _ _ _ _ _ Hinv) as Hwfn.
    destruct (slot_of_total ns (hv b) t bt) as [j Hj];
      [apply Hwfn | done | |].
    { left. unfold reserved, hatrack_bucket_unreserved in Hbt.
      by destruct (Z.eqb_spec (hv bt) 0). }
    destruct (slot_of_Some _ _ _ Hj) as (bj & Hbj & [H0 | Heq]);
      [| exfalso; eapply Hfresh; eauto].
    pose proof (lookup_lt_Some _ _ _ Hbj) as Hltj.
    exists (set_bucket self i (moved_bucket b)), (set_bucket ns j b), (S cnt).
    split; [eapply copy_bucket_live; eauto using wf_unres |].
    split.
    + apply (ci_self _ _ _ _ _ _ _ Hinv).
    + apply (ci_ns _ _ _ _ _ _ _ Hinv).
    + simpl. rewrite length_insert. apply (ci_len _ _ _ _ _ _ _ Hinv).
    + intros i' Hi'. simpl. destruct (decide (i' = i)) as [-> | Hne].
      * by rewrite list_lookup_insert_eq, Hb.
      * rewrite list_lookup_insert_ne by done.
        apply (ci_done _ _ _ _ _ _ _ Hinv). lia.
    + intros i' Hi'. simpl. rewrite list_lookup_insert_ne by lia.
      apply (ci_todo _ _ _ _ _ _ _ Hinv). lia.
    + eapply wf_store_install; eauto.
    + intros j0 b0. simpl. destruct (decide (j0 = j)) as [-> | Hne].
      * rewrite list_lookup_insert_eq by done. intros [= <-] _.
        exists i. split; [lia | done].
      * rewrite list_lookup_insert_ne by done. intros Hj0 Hb0.
        destruct (ci_from _ _ _ _ _ _ _ Hinv j0 b0 Hj0 Hb0) as (i' & ? & ? & ?).
        exists i'. split; [lia | done].
    + intros i' b' Hi' Hb' Hl'. simpl.
      destruct (decide (i' = i)) as [-> | Hne].
      * exists j. rewrite list_lookup_insert_eq by done. congruence.
      * destruct (ci_to _ _ _ _ _ _ _ Hinv i' b') as [j' Hj']; [lia | done.. |].
        exists j'. rewrite list_lookup_insert_ne; [done |].
        intros <-. rewrite Hbj in Hj'. injection Hj' as ->.
        by apply (live_reserved s i' b' Hwf Hb' Hl').
    + simpl. rewrite (count_if_insert _ _ _ bj); try done.
      * by rewrite (ci_count _ _ _ _ _ _ _ Hinv).
      * unfold reserved, hatrack_bucket_unreserved. by rewrite H0.
      * unfold reserved, hatrack_bucket_unreserved.
        by destruct (Z.eqb_spec (hv b) 0).
    + rewrite (count_if_take_S _ _ _ _ Hb), Hl.
      rewrite <- (ci_live _ _ _ _ _ _ _ Hinv). lia.
  - exists self, ns, cnt.
    split; [eapply copy_bucket_dead; eauto |].
    assert (frozen_bucket b = moved_bucket b) as Hfm.
    { unfold live in Hl. rewrite (plain_has_epoch _ Hp) in Hl.
      unfold frozen_bucket, moved_bucket.
      by destruct (info (record b) =? 0)%Z. }
    split.
    + apply (ci_self _ _ _ _ _ _ _ Hinv).
    + apply (ci_ns _ _ _ _ _ _ _ Hinv).
    + apply (ci_len _ _ _ _ _ _ _ Hinv).
    + intros i' Hi'. destruct (decide (i' = i)) as [-> | Hne].
      * by rewrite Hself, Hb, Hfm.
      * apply (ci_done _ _ _ _ _ _ _ Hinv). lia.
    + intros i' Hi'. apply (ci_todo _ _ _ _ _ _ _ Hinv). lia.
    + apply (ci_wf _ _ _ _ _ _ _ Hinv).
    + intros j0 b0 Hj0 Hb0.
      destruct (ci_from _ _ _ _ _ _ _ Hinv j0 b0 Hj0 Hb0) as (i' & ? & ? & ?).
      exists i'. split; [lia | done].
    + intros i' b' Hi' Hb' Hl'.
      destruct (decide (i' = i)) as [-> | Hne]; [congruence |].
      apply (ci_to _ _ _ _ _ _ _ Hinv i' b'); [lia | done..].
    + apply (ci_count _ _ _ _ _ _ _ Hinv).
    + rewrite (count_if_take_S _ _ _ _ Hb), Hl.
      rewrite <- (ci_live _ _ _ _ _ _ _ Hinv). lia.
Qed.

Lemma copy_loop s F N n i self ns cnt :
  wf_store s →
  (count_if live (buckets s) < length (buckets ns))%nat →
  (i + n = length (buckets s))%nat →
  copy_inv s F N i self ns cnt →
  ∃ self' ns' cnt',
    hihat_a_store_migrate_copy self ns n i cnt = Some (self', ns', cnt') ∧
    copy_inv s F N (length (buckets s)) self' ns' cnt'.
Proof.
  intros Hwf. revert i self ns cnt.
  induction n as [| n IH]; intros i self ns cnt Hroom Hlen Hinv; simpl.
  - exists self, ns, cnt. split; [done |].
    by replace (length (buckets s)) with i by lia.
  - destruct (copy_step s F N i self ns cnt) as (self1 & ns1 & cnt1 & E & Hinv1);
      [done | done | lia | done |].
    rewrite E. simpl. apply IH; [| lia | done].
    rewrite <- (sized_last_slot _ (wf_sized _ (ci_wf _ _ _ _ _ _ _ Hinv1))).
    rewrite <- (sized_last_slot _ (wf_sized _ (ci_wf _ _ _ _ _ _ _ Hinv))) in Hroom.
    destruct (ci_ns _ _ _ _ _ _ _ Hinv1) as (E1 & _).
    destruct (ci_ns _ _ _ _ _ _ _ Hinv) as (E2 & _).
    rewrite E1. by rewrite E2 in Hroom.
Qed.

Lemma count_if_reserved_zero n : count_if reserved (replicate n zero_bucket) = 0%nat.
Proof. induction n as [| n IH]; [done |]. simpl. by rewrite count_if_cons, IH. Qed.

Lemma wf_store_new n : wf_store (hihat_a_store_new (2 ^ n)).
Proof.
  split.
  - exists n. simpl. by rewrite length_replicate.
  - intros i b. simpl. intros [-> _]%lookup_replicate. done.
  - intros i b. simpl. by intros [-> _]%lookup_replicate.
  - intros i b. simpl. intros [-> _]%lookup_replicate. simpl. lia.
  - done.
Qed.

Lemma wf_store_set_used_count s u : wf_store s → wf_store (set_used_count s u).
Proof.
  intros [Hs Hp Hu Hi Hn]. split; try done.
  by apply (probe_inv_ext s).
Qed.

Lemma copy_inv_start s p n :
  copy_inv s (set_store_next (set_buckets s (frozen_bucket <$> buckets s)) p)
    (hihat_a_store_new (2 ^ n)) 0
    (set_store_next (set_buckets s (frozen_bucket <$> buckets s)) p)
    (hihat_a_store_new (2 ^ n)) 0.
Proof.
  split; try done.
  - simpl. apply length_fmap.
  - intros i' Hi'. lia.
  - intros i' _. simpl. apply list_lookup_fmap.
  - apply wf_store_new.
  - intros j b. simpl. intros [-> _]%lookup_replicate. done.
  - intros i' b Hi'. lia.
  - simpl. apply count_if_reserved_zero.
Qed.

Lemma copy_inv_end s F N self ns cnt :
  copy_inv s F N (length (buckets s)) self ns cnt →
  self = set_buckets F (moved_bucket <$> buckets s) ∧
  cnt = count_if live (buckets s).
Proof.
  intros Hinv. split.
  - rewrite (same_fields_eq _ _ (ci_self _ _ _ _ _ _ _ Hinv)). f_equal.
    apply list_eq. intros i. rewrite list_lookup_fmap.
    destruct (decide (i < length (buckets s))%nat) as [Hlt | Hge].
    + by apply (ci_done _ _ _ _ _ _ _ Hinv).
    + rewrite !lookup_ge_None_2; [done | lia |].
      rewrite (ci_len _ _ _ _ _ _ _ Hinv). lia.
  - rewrite (ci_live _ _ _ _ _ _ _ Hinv). by rewrite take_ge.
Qed.

Lemma have_new_store_spec L t s n' p0 :
  let self := store_current t in
  let F := set_store_next (set_buckets s (frozen_bucket <$> buckets s)) p0 in
  let N := hihat_a_store_new (2 ^ n') in
  let used := count_if live (buckets s) in
  (self < length L)%nat → wf_store s → (used < 2 ^ n')%nat →
  ∃ ns,
    migrate_have_new_store self (length L) (mk_memory (<[self := F]> L ++ [N]) t) =
      Some (length L,
            mk_memory
              (<[self := set_buckets F (moved_bucket <$> buckets s)]> L ++
               [set_used_count ns (Z.of_nat used)])
              (mk_top (length L) (item_count t) (next_epoch t))) ∧
    copy_inv s F N (length (buckets s))
      (set_buckets F (moved_bucket <$> buckets s)) ns used.
Proof.
  intros self F N used Hself Hwf Hroom.
  unfold migrate_have_new_store. cbn [stores top].
  rewrite (lookup_app_l _ _ self) by (rewrite length_insert; lia).
  rewrite list_lookup_insert_eq by done. cbn [mbind option_bind].
  rewrite lookup_app_r by (rewrite length_insert; lia).
  rewrite length_insert, Nat.sub_diag.
  cbn [lookup list_lookup mbind option_bind].
  destruct (copy_loop s F N (S (last_slot F)) 0 F N 0)
    as (F' & N' & cnt & E & Hinv).
  { done. }
  { subst N. simpl. by rewrite length_replicate. }
  { subst F. simpl. by rewrite (sized_last_slot s (wf_sized s Hwf)). }
  { apply copy_inv_start. }
  rewrite E. cbn [mbind option_bind].
  destruct (copy_inv_end _ _ _ _ _ _ Hinv) as (EF & Ecnt).
  rewrite EF, Ecnt in *. fold used in Hinv |- *.
  destruct (ci_ns _ _ _ _ _ _ _ Hinv) as (Hl1 & Hl2 & Hl3 & Hl4).
  exists N'. split; [| done].
  rewrite Hl3. change (used_count N) with 0%Z.
  unfold LCAS. rewrite Z.eqb_refl.
  cbn [set_store stores top store_current]. fold self.
  rewrite Nat.eqb_refl. unfold set_top. cbn [stores top store_current item_count next_epoch].
  do 3 f_equal. unfold set_store. cbn [stores].
  rewrite (insert_app_l _ _ self) by (rewrite length_insert; lia).
  rewrite list_insert_insert_eq.
  rewrite insert_app_r_alt by (rewrite length_insert; lia).
  by rewrite length_insert, Nat.sub_diag.
Qed.

(** A migration of the current store, in a sequential execution: the store
    is frozen and left behind with the new store as its successor, and the
    new store holds the live buckets of the old one, and nothing else. *)
Lemma migrate_spec m s :
  stores m !! store_current (top m) = Some s → wf_store s →
  ∃ ns,
    hihat_a_store_migrate (store_current (top m)) m =
      Some (length (stores m),
            mk_memory
              (<[store_current (top m) := retired s (length (stores m))]>
                 (stores m) ++ [ns])
              (mk_top (length (stores m)) (item_count (top m))
                      (next_epoch (top m)))) ∧
    wf_store ns ∧
    used_count ns = Z.of_nat (count_if live (buckets s)) ∧
    (used_count ns < threshold ns)%Z ∧
    (count_if reserved (buckets ns) < length (buckets ns))%nat ∧
    (∀ j b, buckets ns !! j = Some b → hv b ≠ 0%Z →
       ∃ i, buckets s !! i = Some b ∧ live b = true) ∧
    (∀ i b, buckets s !! i = Some b → live b = true →
       ∃ j, buckets ns !! j = Some b).
Proof.
  intros Hcur Hwf. set (self := store_current (top m)) in *.
  pose proof (lookup_lt_Some _ _ _ Hcur) as Hself.
  unfold hihat_a_store_migrate. fold self. rewrite Nat.eqb_refl. cbn [negb].
  rewrite Hcur. cbn [mbind option_bind]. rewrite (wf_next s Hwf).
  rewrite freeze_spec by apply Hwf. cbn [mbind option_bind].
  cbn [store_next set_buckets last_slot]. rewrite (wf_next s Hwf).
  destruct (wf_sized s Hwf) as (n & Hls & Hlen).
  set (used := count_if live (buckets s)).
  assert (used ≤ 2 ^ n)%nat as Hused.
  { rewrite <- Hlen. apply count_if_le_length. }
  destruct (new_size_pow2 n used Hused) as (n' & Hn').
  destruct (new_size_room n used Hused) as (Hroom & Hthr).
  rewrite Hls, Hn'. rewrite Hn' in Hroom, Hthr.
  unfold alloc_store, LCAS. cbn [store_ptr_eqb mbind option_bind].
  set (p := length (stores m)) in *.
  set (F := set_store_next (set_buckets s (frozen_bucket <$> buckets s)) (Some p)).
  set (N := hihat_a_store_new (2 ^ n')).
  destruct (have_new_store_spec (stores m) (top m) s n' (Some p))
    as (ns & E & Hinv); [done.. |].
  fold self p used F N in E, Hinv.
  exists (set_used_count ns (Z.of_nat used)).
  split.
  { refine (eq_trans _ E). f_equal.
    - unfold set_store. cbn [stores]. by rewrite length_insert.
    - unfold set_store. cbn [stores top]. rewrite !length_insert. fold p F.
      f_equal. rewrite (insert_app_l _ _ self) by (rewrite length_insert; lia).
      by rewrite list_insert_insert_eq. }
  pose proof (ci_wf _ _ _ _ _ _ _ Hinv) as Hwfn.
  destruct (ci_ns _ _ _ _ _ _ _ Hinv) as (Hl1 & Hl2 & Hl3 & Hl4).
  split; [by apply wf_store_set_used_count |].
  split; [done |].
  split; [cbn [used_count threshold set_used_count]; by rewrite Hl2 |].
  split.
  { cbn [buckets set_used_count].
    rewrite (ci_count _ _ _ _ _ _ _ Hinv).
    rewrite <- (sized_last_slot ns (wf_sized ns Hwfn)), Hl1.
    subst N. simpl. pose proof (Nat.pow_nonzero 2 n'). lia. }
  split.
  - intros j b Hj Hb.
    destruct (ci_from _ _ _ _ _ _ _ Hinv j b Hj Hb) as (i & _ & ? & ?).
    by exists i.
  - intros i b Hi Hl.
    apply (ci_to _ _ _ _ _ _ _ Hinv i b); [| done..].
    by eapply lookup_lt_Some.
Qed.

End migration.

(** ** What a store maps a hash to *)

Section contents.
Context `{HC : hatrack_common} `{!hatrack_common_ok}.
Implicit Types (s : hihat_store_t) (k : hatrack_hash_t) (b : hihat_bucket_t).

(** Two stores with the same live buckets of a hash map it to the same
    record. *)
Lemma content_same_live s s' k :
  sized s → probe_inv s → sized s' → probe_inv s' → k ≠ 0%Z →
  (∀ b, hv b = k → live b = true →
     (∃ i, buckets s !! i = Some b) ↔ (∃ i, buckets s' !! i = Some b)) →
  content s' k = content s k.
Proof.
  intros Hs Hp Hs' Hp' Hk Hsame.
  destruct (content s k) as [r |] eqn:E.
  - apply content_Some in E as (i & b & Hb & Hkb & Hl & Hr); [| done..].
    apply content_Some; [done.. |].
    destruct (proj1 (Hsame b Hkb Hl)) as [i' Hi']; [by exists i |].
    by exists i', b.
  - apply content_None; [done.. |]. intros i b Hb Hkb.
    destruct (live b) eqn:Hl; [| done].
    destruct (proj2 (Hsame b Hkb Hl)) as [i' Hi']; [by exists i |].
    rewrite content_None in E by done. by rewrite <- (E i' b Hi' Hkb).
Qed.

Lemma content_set_record_ne s j b r k :
  buckets s !! j = Some b → hv b ≠ 0%Z → k ≠ hv b →
  content (set_bucket s j (set_record b r)) k = content s k.
Proof.
  intros Hj Hne Hk. unfold content.
  rewrite (slot_of_ext s).
  2: done.
  2: { intros i. simpl. destruct (decide (i = j)) as [-> | ?].
       - rewrite list_lookup_insert_eq by (by eapply lookup_lt_Some).
         by rewrite Hj.
       - by rewrite list_lookup_insert_ne. }
  destruct (slot_of s k) as [j' |] eqn:Hslot; [| done]. simpl.
  rewrite list_lookup_insert_ne; [done |]. intros <-.
  apply slot_of_Some in Hslot as (b' & Hb' & Hstop).
  rewrite Hj in Hb'. injection Hb' as <-. destruct Hstop; congruence.
Qed.

Lemma content_set_record_eq s j b r :
  probe_inv s → buckets s !! j = Some b → hv b ≠ 0%Z →
  content (set_bucket s j (set_record b r)) (hv b) =
    if has_epoch r then Some r else None.
Proof.
  intros Hp Hj Hne. unfold content.
  rewrite (slot_of_ext s).
  2: done.
  2: { intros i. simpl. destruct (decide (i = j)) as [-> | ?].
       - rewrite list_lookup_insert_eq by (by eapply lookup_lt_Some).
         by rewrite Hj.
       - by rewrite list_lookup_insert_ne. }
  rewrite (Hp _ _ Hj Hne). simpl.
  rewrite list_lookup_insert_eq by (by eapply lookup_lt_Some). simpl.
  unfold reserved, live, hatrack_bucket_unreserved. simpl.
  by destruct (Z.eqb_spec (hv b) 0).
Qed.

Lemma content_at s j b :
  probe_inv s → buckets s !! j = Some b → hv b ≠ 0%Z →
  content s (hv b) = if has_epoch (record b) then Some (record b) else None.
Proof.
  intros Hp Hj Hne. unfold content. rewrite (Hp _ _ Hj Hne). simpl.
  rewrite Hj. simpl. unfold reserved, live, hatrack_bucket_unreserved.
  by destruct (Z.eqb_spec (hv b) 0).
Qed.

Lemma wf_store_set_record s j b r :
  wf_store s → buckets s !! j = Some b → hv b ≠ 0%Z →
  (0 ≤ info r < 2 ^ 62)%Z →
  wf_store (set_bucket s j (set_record b r)).
Proof.
  intros Hwf Hj Hne Hr.
  pose proof (lookup_lt_Some _ _ _ Hj) as Hlt.
  assert (∀ i, hv <$> buckets (set_bucket s j (set_record b r)) !! i
               = hv <$> buckets s !! i) as Hhv.
  { intros i. simpl. destruct (decide (i = j)) as [-> | ?].
    - by rewrite list_lookup_insert_eq, Hj.
    - by rewrite list_lookup_insert_ne. }
  split.
  - destruct (wf_sized s Hwf) as (n & Hl & Hlen). exists n. simpl.
    by rewrite length_insert.
  - by apply (probe_inv_ext s); [apply Hwf | |].
  - intros i b0. simpl. destruct (decide (i = j)) as [-> | Hij].
    + rewrite list_lookup_insert_eq by done. intros [= <-]. done.
    + rewrite list_lookup_insert_ne by done. apply (wf_unres s Hwf).
  - intros i b0. simpl. destruct (decide (i = j)) as [-> | Hij].
    + rewrite list_lookup_insert_eq by done. by intros [= <-].
    + rewrite list_lookup_insert_ne by done. apply (wf_info s Hwf).
  - apply (wf_next s Hwf).
Qed.

Lemma epochs_ok_set_record s j b r ne ne' :
  epochs_ok s ne → buckets s !! j = Some b →
  (0 < ne')%Z → (ne ≤ ne')%Z →
  (info r = 0 ∨ info r = info (record b) ∨ ne ≤ info r < ne')%Z →
  epochs_ok (set_bucket s j (set_record b r)) ne'.
Proof.
  intros [Hlt Hinj] Hj Hpos Hle Hr.
  pose proof (lookup_lt_Some _ _ _ Hj) as Hltj.
  pose proof (Hlt _ _ Hj) as Hbj.
  split.
  - intros i b0. simpl. destruct (decide (i = j)) as [-> | Hij].
    + rewrite list_lookup_insert_eq by done. intros [= <-]. simpl. lia.
    + rewrite list_lookup_insert_ne by done. intros Hb0.
      specialize (Hlt _ _ Hb0). lia.
  - intros i1 i2 b1 b2. simpl.
    destruct (decide (i1 = j)) as [-> | H1], (decide (i2 = j)) as [-> | H2];
      try done.
    + rewrite list_lookup_insert_eq, list_lookup_insert_ne by done.
      intros [= <-] Hb2. simpl. intros Hnz Heq.
      pose proof (Hlt _ _ Hb2).
      destruct Hr as [Hr | [Hr | Hr]]; [lia | | lia].
      symmetry. apply (Hinj i2 j b2 b Hb2 Hj); lia.
    + rewrite list_lookup_insert_eq, list_lookup_insert_ne by done.
      intros Hb1 [= <-]. simpl. intros Hnz Heq.
      pose proof (Hlt _ _ Hb1).
      destruct Hr as [Hr | [Hr | Hr]]; [lia | | lia].
      apply (Hinj i1 j b1 b Hb1 Hj); lia.
    + rewrite !list_lookup_insert_ne by done. apply Hinj.
Qed.

(** *** Claiming a bucket *)

Lemma claimed_wf s k j bj :
  wf_store s → slot_of s k = Some j → buckets s !! j = Some bj →
  hv bj = 0%Z → k ≠ 0%Z → wf_store (claimed s j k).
Proof.
  intros Hwf Hslot Hj Hbj Hk. unfold claimed.
  apply wf_store_set_used_count.
  eapply wf_store_install; eauto. simpl. lia.
Qed.

Lemma claimed_lookup s k j bj i b :
  buckets s !! j = Some bj → record bj = mk_record NULL 0 →
  buckets (claimed s j k) !! i = Some b →
  ∃ b0, buckets s !! i = Some b0 ∧ record b0 = record b ∧
        (i ≠ j → b0 = b) ∧ (i = j → hv b = k).
Proof.
  intros Hj Hrec. simpl. destruct (decide (i = j)) as [-> | Hij].
  - rewrite list_lookup_insert_eq by (by eapply lookup_lt_Some).
    intros [= <-]. exists bj. by rewrite Hrec.
  - rewrite list_lookup_insert_ne by done. intros Hb. by exists b.
Qed.

Lemma claimed_content s k j bj k' :
  wf_store s → slot_of s k = Some j → buckets s !! j = Some bj →
  hv bj = 0%Z → k ≠ 0%Z → k' ≠ 0%Z →
  content (claimed s j k) k' = content s k'.
Proof.
  intros Hwf Hslot Hj Hbj Hk Hk'.
  pose proof (claimed_wf s k j bj Hwf Hslot Hj Hbj Hk) as Hwf'.
  pose proof (wf_unres s Hwf j bj Hj Hbj) as Hrec.
  apply content_same_live; try apply Hwf; try apply Hwf'; [done |].
  intros b Hb Hl. split; intros [i Hi].
  - exists i. simpl. rewrite list_lookup_insert_ne; [done |]. intros <-.
    rewrite Hj in Hi. injection Hi as <-. unfold live in Hl.
    by rewrite Hrec in Hl.
  - destruct (claimed_lookup s k j bj i b Hj Hrec Hi) as (b0 & Hb0 & Hr & Hne & He).
    destruct (decide (i = j)) as [-> | Hij].
    + rewrite Hj in Hb0. injection Hb0 as <-. unfold live in Hl.
      by rewrite <- Hr, Hrec in Hl.
    + exists i. by rewrite <- (Hne Hij).
Qed.

Lemma claimed_epochs s k j bj ne :
  buckets s !! j = Some bj → record bj = mk_record NULL 0 →
  epochs_ok s ne → epochs_ok (claimed s j k) ne.
Proof.
  intros Hj Hrec [Hlt Hinj]. split.
  - intros i b Hb.
    destruct (claimed_lookup s k j bj i b Hj Hrec Hb) as (b0 & Hb0 & Hr & _).
    rewrite <- Hr. eauto.
  - intros i1 i2 b1 b2 H1 H2.
    destruct (claimed_lookup s k j bj i1 b1 Hj Hrec H1) as (c1 & Hc1 & Hr1 & _).
    destruct (claimed_lookup s k j bj i2 b2 Hj Hrec H2) as (c2 & Hc2 & Hr2 & _).
    rewrite <- Hr1, <- Hr2. eauto.
Qed.

Lemma content_unreserved s k j b :
  slot_of s k = Some j → buckets s !! j = Some b → hv b = 0%Z →
  content s k = None.
Proof.
  intros Hslot Hb H0. unfold content. rewrite Hslot. simpl. rewrite Hb. simpl.
  unfold reserved, hatrack_bucket_unreserved. by rewrite H0.
Qed.

Lemma content_no_slot s k : slot_of s k = None → content s k = None.
Proof. intros Hslot. unfold content. by rewrite Hslot. Qed.

End contents.

(** ** The writers *)

Section writers.
Context `{HC : hatrack_common} `{!hatrack_common_ok}.
Implicit Types (s : hihat_store_t) (k : hatrack_hash_t) (b : hihat_bucket_t).
Implicit Types (m : memory).

(** The probe of [put] and [add] on a well-formed store: the store it
    leaves is well formed and maps every hash as before, and a bucket it
    ends at holds the hash. *)
Lemma acquire_outcome s k :
  wf_store s → k ≠ 0%Z →
  ∃ a,
    acquire_loop s k (S (last_slot s)) (hatrack_bucket_index k (last_slot s))
      = Some a ∧
    wf_store (acquired_store a) ∧
    (∀ k', k' ≠ 0%Z → content (acquired_store a) k' = content s k') ∧
    (∀ ne, epochs_ok s ne → epochs_ok (acquired_store a) ne) ∧
    match a with
    | found_bucket s1 j =>
        slot_of s k = Some j ∧
        ∃ b1, buckets s1 !! j = Some b1 ∧ hv b1 = k ∧
              buckets s1 = <[j := b1]> (buckets s) ∧
              (s1 = s ∨ record b1 = mk_record NULL 0)
    | migrate_and_retry s1 => ¬ has_room s ∧ content s k = None
    end.
Proof.
  intros Hwf Hk.
  rewrite acquire_loop_probe; [| apply Hwf | apply index_lt, Hwf | apply Hwf].
  fold (slot_of s k).
  destruct (slot_of s k) as [j |] eqn:Hslot.
  - destruct (slot_of_Some _ _ _ Hslot) as (b & Hb & Hstop). rewrite Hb.
    unfold hatrack_bucket_unreserved.
    destruct (Z.eqb_spec (hv b) 0) as [E0 | Hne].
    + pose proof (claimed_wf s k j b Hwf Hslot Hb E0 Hk) as Hwf'.
      pose proof (wf_unres s Hwf j b Hb E0) as Hrec.
      assert (∀ k', k' ≠ 0%Z → content (claimed s j k) k' = content s k') as Hc.
      { intros k' Hk'. by eapply claimed_content. }
      assert (∀ ne, epochs_ok s ne → epochs_ok (claimed s j k) ne) as He.
      { intros ne. by eapply claimed_epochs. }
      destruct (Z.geb_spec (used_count s) (threshold s)).
      * eexists. split; [done |].
        split; [exact Hwf' |]. split; [exact Hc |]. split; [exact He |].
        split; [| by eapply content_unreserved].
        intros [Hroom _]. lia.
      * eexists. split; [done |].
        split; [exact Hwf' |]. split; [exact Hc |]. split; [exact He |].
        split; [done |].
        exists (mk_bucket k (mk_record NULL 0)).
        split; [| split; [done |]; split; [done | by right]]. simpl.
        apply list_lookup_insert_eq. by eapply lookup_lt_Some.
    + eexists. split; [done |].
      split; [exact Hwf |]. split; [done |]. split; [done |].
      split; [done |].
      exists b. split; [done |]. split; [by destruct Hstop |].
      split; [| by left].
      simpl. symmetry. by apply list_insert_id.
  - eexists. split; [done |].
    split; [exact Hwf |]. split; [done |]. split; [done |].
    split; [| by apply content_no_slot].
    intros [_ Hfree].
    destruct (count_if_free _ _ Hfree) as (t & bt & Ht & Hbt).
    destruct (slot_of_total s k t bt) as [j Hj]; [apply Hwf | done | | congruence].
    left. unfold reserved, hatrack_bucket_unreserved in Hbt.
    by destruct (Z.eqb_spec (hv bt) 0).
Qed.

(** The installation step of [put], past the probe. *)
Lemma put_found fuel m s s1 j b1 k v :
  stores m !! store_current (top m) = Some s →
  acquire_loop s k (S (last_slot s)) (hatrack_bucket_index k (last_slot s))
    = Some (found_bucket s1 j) →
  buckets s1 !! j = Some b1 → (0 ≤ info (record b1) < 2 ^ 62)%Z →
  hihat_a_store_put (S fuel) (store_current (top m)) m k v =
    Some (if has_epoch (record b1)
          then (mk_memory
                  (<[store_current (top m) :=
                       set_bucket s1 j
                         (set_record b1 (mk_record v (info (record b1))))]>
                     (stores m))
                  (top m),
                (item (record b1), true))
          else (mk_memory
                  (<[store_current (top m) :=
                       set_bucket s1 j
                         (set_record b1 (mk_record v (next_epoch (top m))))]>
                     (stores m))
                  (item_count_add (next_epoch_incr (top m)) 1),
                (NULL, false))).
Proof.
  intros Hcur Hacq Hb1 Hp. cbn [hihat_a_store_put].
  rewrite Hcur. cbn [mbind option_bind]. rewrite Hacq. cbn [mbind option_bind].
  rewrite Hb1. cbn [mbind option_bind].
  rewrite (plain_not_moving _ Hp).
  destruct (has_epoch (record b1)); rewrite LCAS_record_same; done.
Qed.

Lemma wrap64_small x : (0 ≤ x < 2 ^ 64)%Z → wrap64 x = x.
Proof. intros Hx. by apply Z.mod_small. Qed.

Lemma has_epoch_info r r' : info r = info r' → has_epoch r = has_epoch r'.
Proof. unfold has_epoch, epoch_of. by intros ->. Qed.

Lemma table_content_eq m s k :
  current_store m = Some s → table_content m k = content s k.
Proof. intros Hc. unfold table_content. by rewrite Hc. Qed.

(** [put] when its probe ends at a bucket. *)
Lemma put_direct fuel m s s1 j k v :
  wf m → current_store m = Some s → k ≠ 0%Z →
  (table_content m k = None → (next_epoch (top m) < 2 ^ 62)%Z) →
  acquire_loop s k (S (last_slot s)) (hatrack_bucket_index k (last_slot s))
    = Some (found_bucket s1 j) →
  ∃ m' res,
    hihat_a_store_put (S fuel) (store_current (top m)) m k v = Some (m', res) ∧
    put_post m k v m' res ∧ one_bucket m m'.
Proof.
  intros [(s0 & Hs0 & Hwf & Hep) Hne] Hcur Hk Hroom Hacq.
  unfold current_store in Hcur. rewrite Hcur in Hs0. injection Hs0 as <-.
  destruct (acquire_outcome s k Hwf Hk) as (a & Ha & Hwf1 & Hc1 & He1 & Hfound).
  rewrite Hacq in Ha. injection Ha as <-. simpl in Hwf1, Hc1, He1.
  destruct Hfound as (Hslot & b1 & Hb1 & Hkb & Hbs & _).
  pose proof (wf_info s1 Hwf1 j b1 Hb1) as Hp.
  pose proof (lookup_lt_Some _ _ _ Hcur) as Hlt.
  assert (hv b1 ≠ 0%Z) as Hnz by congruence.
  pose proof (content_at s1 j b1 (wf_probe s1 Hwf1) Hb1 Hnz) as Hat.
  rewrite Hkb, (Hc1 k Hk) in Hat.
  rewrite (put_found fuel m s s1 j b1 k v Hcur Hacq Hb1 Hp).
  assert (∀ r, one_bucket m
            (mk_memory (<[store_current (top m) :=
                           set_bucket s1 j (set_record b1 r)]> (stores m))
                       (top m))) as Hone.
  { intros r. split; [done |].
    exists s, (set_bucket s1 j (set_record b1 r)), j, (set_record b1 r).
    split; [done |]. split; [| done]. simpl.
    by rewrite Hbs, list_insert_insert_eq. }
  destruct (has_epoch (record b1)) eqn:Hl.
  - eexists _, _. split; [done |]. split; [| apply Hone].
    set (r := mk_record v (info (record b1))).
    set (s2 := set_bucket s1 j (set_record b1 r)).
    assert (current_store
              (mk_memory (<[store_current (top m) := s2]> (stores m)) (top m))
            = Some s2) as Hcur2.
    { unfold current_store. simpl. by apply list_lookup_insert_eq. }
    split.
    + split; [| done]. exists s2. split; [done |]. split.
      * apply wf_store_set_record; try done.
      * simpl. eapply epochs_ok_set_record; eauto; lia.
    + by rewrite (table_content_eq m s k Hcur), Hat.
    + rewrite (table_content_eq _ _ _ Hcur2), (table_content_eq m s k Hcur), Hat.
      unfold s2. rewrite <- Hkb.
      rewrite content_set_record_eq by (done || apply Hwf1).
      by rewrite (has_epoch_info r (record b1)), Hl.
    + intros k' Hk' Hk0.
      rewrite (table_content_eq _ _ _ Hcur2), (table_content_eq m s k' Hcur).
      unfold s2. rewrite content_set_record_ne by congruence. by apply Hc1.
    + by rewrite (table_content_eq m s k Hcur), Hat.
    + by rewrite (table_content_eq m s k Hcur), Hat.
    + left. apply Hone.
  - eexists _, _. split; [done |].
    pose proof Hl as Hi0. rewrite (plain_has_epoch _ Hp) in Hi0.
    apply negb_false_iff, Z.eqb_eq in Hi0.
    rewrite (table_content_eq m s k Hcur), Hat in Hroom.
    specialize (Hroom eq_refl).
    set (r := mk_record v (next_epoch (top m))).
    set (s2 := set_bucket s1 j (set_record b1 r)).
    set (t2 := item_count_add (next_epoch_incr (top m)) 1).
    assert (one_bucket m
              (mk_memory (<[store_current (top m) := s2]> (stores m)) t2)) as Hone2.
    { destruct (Hone r) as (_ & Hex). split; [done |]. exact Hex. }
    split; [| exact Hone2].
    assert (current_store
              (mk_memory (<[store_current (top m) := s2]> (stores m)) t2)
            = Some s2) as Hcur2.
    { unfold current_store. simpl. by apply list_lookup_insert_eq. }
    assert (next_epoch t2 = next_epoch (top m) + 1)%Z as Hne2.
    { simpl. apply wrap64_small. lia. }
    split.
    + split.
      * exists s2. split; [done |]. split.
        -- apply wf_store_set_record; try done. simpl. lia.
        -- cbn [top]. rewrite Hne2.
           eapply epochs_ok_set_record; eauto; simpl; lia.
      * cbn [top]. rewrite Hne2. lia.
    + by rewrite (table_content_eq m s k Hcur), Hat.
    + rewrite (table_content_eq _ _ _ Hcur2), (table_content_eq m s k Hcur), Hat.
      unfold s2. rewrite <- Hkb.
      rewrite content_set_record_eq by (done || apply Hwf1).
      rewrite plain_has_epoch by (simpl; lia). simpl.
      destruct (Z.eqb_spec (next_epoch (top m)) 0); [lia | done].
    + intros k' Hk' Hk0.
      rewrite (table_content_eq _ _ _ Hcur2), (table_content_eq m s k' Hcur).
      unfold s2. rewrite content_set_record_ne by congruence. by apply Hc1.
    + by rewrite (table_content_eq m s k Hcur), Hat.
    + by rewrite (table_content_eq m s k Hcur), Hat.
    + left. exact Hone2.
Qed.

(** A migration seen from the table: the new store is well formed, has
    room, and maps every hash as the old one did. *)
Lemma migrate_memory m s :
  current_store m = Some s → wf_store s →
  epochs_ok s (next_epoch (top m)) → (0 < next_epoch (top m) ≤ 2 ^ 62)%Z →
  ∃ m2 ns,
    hihat_a_store_migrate (store_current (top m)) m =
      Some (store_current (top m2), m2) ∧
    wf m2 ∧ current_store m2 = Some ns ∧ has_room ns ∧
    (∀ k, k ≠ 0%Z → content ns k = content s k) ∧
    top m2 = mk_top (length (stores m)) (item_count (top m)) (next_epoch (top m)) ∧
    stores m2 =
      <[store_current (top m) := retired s (length (stores m))]> (stores m)
      ++ [ns].
Proof.
  intros Hcur Hwf Hep Hne.
  destruct (migrate_spec m s Hcur Hwf)
    as (ns & E & Hwfn & Hused & Hthr & Hfree & Hfrom & Hto).
  match type of E with _ = Some (_, ?x) => exists x, ns end.
  split; [exact E |]. cbn [top stores store_current].
  assert (current_store
            (mk_memory
               (<[store_current (top m) := retired s (length (stores m))]>
                  (stores m) ++ [ns])
               (mk_top (length (stores m)) (item_count (top m))
                  (next_epoch (top m)))) = Some ns) as Hcur2.
  { unfold current_store. cbn [top stores store_current].
    rewrite lookup_app_r by (rewrite length_insert; lia).
    by rewrite length_insert, Nat.sub_diag. }
  assert (∀ j b, buckets ns !! j = Some b → info (record b) ≠ 0%Z →
            ∃ i, buckets s !! i = Some b) as Hfrom'.
  { intros j b Hj Hi.
    destruct (Hfrom j b Hj) as (i & Hi' & _); [| by exists i].
    intros E0. by rewrite (wf_unres ns Hwfn j b Hj E0) in Hi. }
  split; [| split; [done |]; split; [done |]; split; [| done]].
  - split; [| done]. exists ns. split; [done |]. split; [done |].
    cbn [top next_epoch]. destruct Hep as [Hlt Hinj]. split.
    + intros j b Hj.
      destruct (Z.eq_dec (info (record b)) 0) as [-> | Hnz]; [lia |].
      destruct (Hfrom' j b Hj Hnz) as (i & Hi). eauto.
    + intros j1 j2 b1 b2 H1 H2 Hnz Heq.
      destruct (Hfrom' j1 b1 H1 Hnz) as (i1 & Hi1).
      destruct (Hfrom' j2 b2 H2) as (i2 & Hi2); [congruence |].
      pose proof (Hinj i1 i2 b1 b2 Hi1 Hi2 Hnz Heq) as <-.
      rewrite Hi1 in Hi2. injection Hi2 as <-.
      eapply probe_inv_unique; eauto using wf_probe.
      intros E0. by rewrite (wf_unres ns Hwfn j1 b1 H1 E0) in Hnz.
  - intros k Hk.
    apply content_same_live; try apply Hwf; try apply Hwfn; [done |].
    intros b Hb Hl. split; intros [i Hi].
    + by apply (Hto i b).
    + destruct (Hfrom i b Hi) as (i' & Hi' & _); [congruence | by exists i'].
Qed.

Lemma set_store_current m s :
  (store_current (top m) < length (stores m))%nat →
  current_store (set_store m (store_current (top m)) s) = Some s.
Proof.
  intros Hlt. unfold current_store. simpl. by apply list_lookup_insert_eq.
Qed.

Lemma put_retry fuel self m s s1 k v :
  stores m !! self = Some s →
  acquire_loop s k (S (last_slot s)) (hatrack_bucket_index k (last_slot s))
    = Some (migrate_and_retry s1) →
  hihat_a_store_put (S fuel) self m k v =
    '(self', m') ← hihat_a_store_migrate self (set_store m self s1);
    hihat_a_store_put fuel self' m' k v.
Proof.
  intros Hcur Hacq. cbn [hihat_a_store_put].
  rewrite Hcur. cbn [mbind option_bind]. by rewrite Hacq.
Qed.

(** [put] when its probe ends at [migrate_and_retry]: the table migrates
    and the retry installs in the new store. *)
Lemma put_migrates fuel m s s1 k v :
  wf m → current_store m = Some s → k ≠ 0%Z →
  (next_epoch (top m) < 2 ^ 62)%Z →
  acquire_loop s k (S (last_slot s)) (hatrack_bucket_index k (last_slot s))
    = Some (migrate_and_retry s1) →
  ∃ m' res,
    hihat_a_put (S (S fuel)) m k v = Some (m', res) ∧ put_post m k v m' res ∧
    store_current (top m') = length (stores m) ∧
    stores m' !! store_current (top m) =
      Some (retired s1 (length (stores m))).
Proof.
  intros Hwfm Hcur0 Hk Hroom Hacq. unfold hihat_a_put.
  pose proof Hwfm as [(s0 & Hcur & Hwf & Hep) Hne].
  unfold current_store in Hcur0. rewrite Hcur0 in Hcur. injection Hcur as <-.
  pose proof Hcur0 as Hcur.
  pose proof (lookup_lt_Some _ _ _ Hcur) as Hlt.
  destruct (acquire_outcome s k Hwf Hk) as (a & Ha & Hwf1 & Hc1 & He1 & Hfound).
  rewrite Hacq in Ha. injection Ha as <-. simpl in Hwf1, Hc1, He1.
  set (m1 := set_store m (store_current (top m)) s1).
  destruct (migrate_memory m1 s1)
    as (m2 & ns & E & Hwf2 & Hcur2 & Hroom2 & Hc2 & Htop2 & Hst2).
  { by apply set_store_current. }
  { done. }
  { by apply He1. }
  { done. }
  cbn [m1 set_store top stores] in E, Htop2, Hst2.
  rewrite length_insert in Htop2, Hst2. rewrite list_insert_insert_eq in Hst2.
  pose proof Hwf2 as [(ns' & Hcur2' & Hwfn & _) _].
  unfold current_store in Hcur2. rewrite Hcur2 in Hcur2'.
  injection Hcur2' as <-. fold (current_store m2) in Hcur2.
  destruct (acquire_outcome ns k Hwfn Hk) as (a & Ha2 & _ & _ & _ & Hfound2).
  destruct a as [ns1 j2 | ns1]; [| by destruct Hfound2].
  destruct (put_direct fuel m2 ns ns1 j2 k v)
    as (m' & res & E' & Hpost & Hone); try done.
  { intros _. rewrite Htop2. simpl. lia. }
  exists m', res. split.
  { rewrite (put_retry _ _ _ s s1) by done. fold m1.
    rewrite E. cbn [mbind option_bind]. exact E'. }
  assert (∀ k', k' ≠ 0%Z → table_content m2 k' = table_content m k') as Hsame.
  { intros k' Hk'.
    rewrite (table_content_eq m2 ns k' Hcur2), (table_content_eq m s k' Hcur).
    rewrite Hc2 by done. by apply Hc1. }
  destruct Hone as (Hsc & s0 & s' & j0 & b' & Hs0 & Hbs & Hst).
  rewrite Htop2 in Hsc, Hst. cbn [store_current] in Hsc, Hst.
  assert (stores m' !! store_current (top m) =
            Some (retired s1 (length (stores m)))) as Hold.
  { rewrite Hst, Hst2. rewrite list_lookup_insert_ne by lia.
    rewrite lookup_app_l by (rewrite length_insert; lia).
    by apply list_lookup_insert_eq. }
  split; [| done].
  destruct Hpost as [P1 P2 P3 P4 P5 P6 _].
  rewrite (Hsame k Hk), Htop2 in *. cbn [next_epoch item_count] in *.
  split; try done.
  - intros k' Hk' Hk0. rewrite <- (Hsame k' Hk0). by apply P4.
  - right. pose proof P1 as [(s'' & Hcur' & Hwf' & _) _].
    split; [done |]. exists s1, s''.
    split; [done |]. split; [done |]. split; [apply Hwf' |]. split.
    + rewrite Hst, Hst2, length_insert, length_app, length_insert. simpl. lia.
    + intros p Hp Hpl. rewrite Hst, Hst2.
      rewrite list_lookup_insert_ne by lia.
      rewrite lookup_app_l by (rewrite length_insert; lia).
      by rewrite list_lookup_insert_ne.
Qed.

(** [put] on a well-formed table.  The epoch counter must not have run out
    of its 62 bits when the hash is new. *)
Lemma put_ok fuel m k v :
  wf m → k ≠ 0%Z →
  (table_content m k = None → (next_epoch (top m) < 2 ^ 62)%Z) →
  ∃ m' res,
    hihat_a_put (S (S fuel)) m k v = Some (m', res) ∧ put_post m k v m' res.
Proof.
  intros Hwfm Hk Hroom.
  pose proof Hwfm as [(s & Hcur & Hwf & Hep) Hne].
  destruct (acquire_outcome s k Hwf Hk) as (a & Ha & _ & _ & _ & Hfound).
  destruct a as [s1 j | s1].
  - destruct (put_direct (S fuel) m s s1 j k v) as (m' & res & E & Hpost & _);
      try done.
    by exists m', res.
  - destruct Hfound as (_ & Hnone).
    destruct (put_migrates fuel m s s1 k v) as (m' & res & E & Hpost & _);
      try done.
    + apply Hroom. by rewrite (table_content_eq m s k Hcur).
    + by exists m', res.
Qed.

(** [get] on a well-formed table reads what the table maps the hash to. *)
Lemma get_ok m k :
  wf m → hihat_a_get m k = Some (lookup_result (table_content m k)).
Proof.
  intros [(s & Hcur & Hwf & _) _]. unfold hihat_a_get, table_content, current_store.
  rewrite Hcur. simpl. by rewrite store_get_content by apply Hwf.
Qed.

Lemma memory_insert_id m s :
  stores m !! store_current (top m) = Some s →
  mk_memory (<[store_current (top m) := s]> (stores m)) (top m) = m.
Proof. intros Hcur. destruct m as [st t]. simpl in *. by rewrite list_insert_id. Qed.

Lemma one_bucket_refl m s : current_store m = Some s → one_bucket m m.
Proof.
  intros Hcur. split; [done |].
  exists s, s, (length (buckets s)), zero_bucket.
  split; [done |]. split.
  - by rewrite list_insert_ge.
  - symmetry. by apply list_insert_id.
Qed.

(** [remove] on a well-formed table. *)
Lemma remove_ok fuel m k :
  wf m → k ≠ 0%Z →
  ∃ m' res,
    hihat_a_remove (S fuel) m k = Some (m', res) ∧ remove_post m k m' res.
Proof.
  intros Hwfm Hk. unfold hihat_a_remove.
  pose proof Hwfm as [(s & Hcur & Hwf & Hep) Hne].
  pose proof (lookup_lt_Some _ _ _ Hcur) as Hlt.
  assert (table_content m k = None → remove_post m k m (NULL, false)) as Hnone.
  { intros E. split; try done; try by rewrite E.
    by apply (one_bucket_refl m s). }
  cbn [hihat_a_store_remove]. rewrite Hcur. cbn [mbind option_bind].
  rewrite find_loop_probe; [| apply Hwf | apply index_lt, Hwf].
  fold (slot_of s k). cbn [mbind option_bind].
  destruct (slot_of s k) as [j |] eqn:Hslot.
  2: { eexists _, _. split; [done |]. apply Hnone.
       rewrite (table_content_eq m s k Hcur). by apply content_no_slot. }
  destruct (slot_of_Some _ _ _ Hslot) as (b & Hb & Hstop). rewrite Hb.
  unfold hatrack_bucket_unreserved.
  destruct (Z.eqb_spec (hv b) 0) as [E0 | Hnz].
  { eexists _, _. split; [done |]. apply Hnone.
    rewrite (table_content_eq m s k Hcur). by eapply content_unreserved. }
  destruct Hstop as [? | Hkb]; [done |].
  rewrite Hb. cbn [mbind option_bind].
  pose proof (wf_info s Hwf j b Hb) as Hp.
  rewrite (plain_not_moving _ Hp).
  pose proof (content_at s j b (wf_probe s Hwf) Hb Hnz) as Hat.
  rewrite Hkb, (plain_has_epoch _ Hp) in Hat.
  destruct (Z.eqb_spec (info (record b)) 0) as [Ei | Ei]; simpl in Hat.
  { eexists _, _. split; [done |]. apply Hnone.
    by rewrite (table_content_eq m s k Hcur). }
  rewrite LCAS_record_same.
  set (r := mk_record NULL 0).
  set (s2 := set_bucket s j (set_record b r)).
  eexists _, _. split; [done |].
  assert (current_store
            (set_top (set_store m (store_current (top m)) s2)
               (item_count_add (top (set_store m (store_current (top m)) s2)) (-1)))
          = Some s2) as Hcur2.
  { unfold current_store. simpl. by apply list_lookup_insert_eq. }
  split.
  - split; [| done]. exists s2. split; [done |]. split.
    + apply wf_store_set_record; try done.
    + simpl. eapply epochs_ok_set_record; eauto; simpl; lia.
  - by rewrite (table_content_eq m s k Hcur), Hat.
  - rewrite (table_content_eq _ _ _ Hcur2). unfold s2. rewrite <- Hkb.
    by rewrite content_set_record_eq by (done || apply Hwf).
  - intros k' Hk' Hk0.
    rewrite (table_content_eq _ _ _ Hcur2), (table_content_eq m s k' Hcur).
    unfold s2. by rewrite content_set_record_ne by congruence.
  - done.
  - by rewrite (table_content_eq m s k Hcur), Hat.
  - by rewrite (table_content_eq m s k Hcur), Hat.
  - split; [done |]. exists s, s2, j, (set_record b r). done.
Qed.

(** The installation step of [add], past the probe. *)
Lemma add_found fuel m s s1 j b1 k v :
  stores m !! store_current (top m) = Some s →
  acquire_loop s k (S (last_slot s)) (hatrack_bucket_index k (last_slot s))
    = Some (found_bucket s1 j) →
  buckets s1 !! j = Some b1 → (0 ≤ info (record b1) < 2 ^ 62)%Z →
  hihat_a_store_add (S fuel) (store_current (top m)) m k v =
    Some (if negb (info (record b1) =? 0)%Z
          then (set_store m (store_current (top m)) s1, false)
          else (mk_memory
                  (<[store_current (top m) :=
                       set_bucket s1 j
                         (set_record b1 (mk_record v (next_epoch (top m))))]>
                     (stores m))
                  (item_count_add (next_epoch_incr (top m)) 1),
                true)).
Proof.
  intros Hcur Hacq Hb1 Hp. cbn [hihat_a_store_add].
  rewrite Hcur. cbn [mbind option_bind]. rewrite Hacq. cbn [mbind option_bind].
  rewrite Hb1. cbn [mbind option_bind].
  rewrite (plain_not_moving _ Hp).
  destruct (negb (info (record b1) =? 0)%Z); [done |].
  by rewrite LCAS_record_same.
Qed.

Lemma add_retry fuel self m s s1 k v :
  stores m !! self = Some s →
  acquire_loop s k (S (last_slot s)) (hatrack_bucket_index k (last_slot s))
    = Some (migrate_and_retry s1) →
  hihat_a_store_add (S fuel) self m k v =
    '(self', m') ← hihat_a_store_migrate self (set_store m self s1);
    hihat_a_store_add fuel self' m' k v.
Proof.
  intros Hcur Hacq. cbn [hihat_a_store_add].
  rewrite Hcur. cbn [mbind option_bind]. by rewrite Hacq.
Qed.

(** [add] when its probe ends at a bucket. *)
Lemma add_direct fuel m s s1 j k v :
  wf m → current_store m = Some s → k ≠ 0%Z →
  (table_content m k = None → (next_epoch (top m) < 2 ^ 62)%Z) →
  acquire_loop s k (S (last_slot s)) (hatrack_bucket_index k (last_slot s))
    = Some (found_bucket s1 j) →
  ∃ m' res,
    hihat_a_store_add (S fuel) (store_current (top m)) m k v = Some (m', res) ∧
    add_post m k v m' res ∧ one_bucket m m'.
Proof.
  intros [(s0 & Hs0 & Hwf & Hep) Hne] Hcur Hk Hroom Hacq.
  unfold current_store in Hcur. rewrite Hcur in Hs0. injection Hs0 as <-.
  destruct (acquire_outcome s k Hwf Hk) as (a & Ha & Hwf1 & Hc1 & He1 & Hfound).
  rewrite Hacq in Ha. injection Ha as <-. simpl in Hwf1, Hc1, He1.
  destruct Hfound as (Hslot & b1 & Hb1 & Hkb & Hbs & Hs1).
  pose proof (wf_info s1 Hwf1 j b1 Hb1) as Hp.
  pose proof (lookup_lt_Some _ _ _ Hcur) as Hlt.
  assert (hv b1 ≠ 0%Z) as Hnz by congruence.
  pose proof (content_at s1 j b1 (wf_probe s1 Hwf1) Hb1 Hnz) as Hat.
  rewrite Hkb, (Hc1 k Hk), (plain_has_epoch _ Hp) in Hat.
  rewrite (add_found fuel m s s1 j b1 k v Hcur Hacq Hb1 Hp).
  destruct (Z.eqb_spec (info (record b1)) 0) as [Ei | Ei]; simpl in Hat |- *.
  - eexists _, _. split; [done |].
    rewrite (table_content_eq m s k Hcur), Hat in Hroom.
    specialize (Hroom eq_refl).
    set (r := mk_record v (next_epoch (top m))).
    set (s2 := set_bucket s1 j (set_record b1 r)).
    set (t2 := item_count_add (next_epoch_incr (top m)) 1).
    assert (one_bucket m
              (mk_memory (<[store_current (top m) := s2]> (stores m)) t2)) as Hone.
    { split; [done |]. exists s, s2, j, (set_record b1 r).
      split; [done |]. split; [| done]. simpl.
      by rewrite Hbs, list_insert_insert_eq. }
    split; [| exact Hone].
    assert (current_store
              (mk_memory (<[store_current (top m) := s2]> (stores m)) t2)
            = Some s2) as Hcur2.
    { unfold current_store. simpl. by apply list_lookup_insert_eq. }
    assert (next_epoch t2 = next_epoch (top m) + 1)%Z as Hne2.
    { simpl. apply wrap64_small. lia. }
    split.
    + split.
      * exists s2. split; [done |]. split.
        -- apply wf_store_set_record; try done. simpl. lia.
        -- cbn [top]. rewrite Hne2.
           eapply epochs_ok_set_record; eauto; simpl; lia.
      * cbn [top]. rewrite Hne2. lia.
    + by rewrite (table_content_eq m s k Hcur), Hat.
    + done.
    + intros _. split; [| done].
      rewrite (table_content_eq _ _ _ Hcur2). unfold s2. rewrite <- Hkb.
      rewrite content_set_record_eq by (done || apply Hwf1).
      rewrite plain_has_epoch by (simpl; lia). simpl.
      destruct (Z.eqb_spec (next_epoch (top m)) 0); [lia | done].
    + intros k' Hk' Hk0.
      rewrite (table_content_eq _ _ _ Hcur2), (table_content_eq m s k' Hcur).
      unfold s2. rewrite content_set_record_ne by congruence. by apply Hc1.
    + left. exact Hone.
  - destruct Hs1 as [-> | Hz]; [| by rewrite Hz in Ei].
    unfold set_store. rewrite (memory_insert_id m s Hcur).
    eexists _, _. split; [done |].
    pose proof (one_bucket_refl m s Hcur) as Hone.
    split; [| exact Hone]. split; try done.
    + split; [| done]. by exists s.
    + by rewrite (table_content_eq m s k Hcur), Hat.
    + by left.
Qed.

(** [add] when its probe ends at [migrate_and_retry]. *)
Lemma add_migrates fuel m s s1 k v :
  wf m → current_store m = Some s → k ≠ 0%Z →
  (next_epoch (top m) < 2 ^ 62)%Z →
  acquire_loop s k (S (last_slot s)) (hatrack_bucket_index k (last_slot s))
    = Some (migrate_and_retry s1) →
  ∃ m',
    hihat_a_add (S (S fuel)) m k v = Some (m', true) ∧ add_post m k v m' true ∧
    store_current (top m') = length (stores m) ∧
    stores m' !! store_current (top m) =
      Some (retired s1 (length (stores m))).
Proof.
  intros Hwfm Hcur0 Hk Hroom Hacq. unfold hihat_a_add.
  pose proof Hwfm as [(s0 & Hcur & Hwf & Hep) Hne].
  unfold current_store in Hcur0. rewrite Hcur0 in Hcur. injection Hcur as <-.
  pose proof Hcur0 as Hcur.
  pose proof (lookup_lt_Some _ _ _ Hcur) as Hlt.
  destruct (acquire_outcome s k Hwf Hk) as (a & Ha & Hwf1 & Hc1 & He1 & Hfound).
  rewrite Hacq in Ha. injection Ha as <-. simpl in Hwf1, Hc1, He1.
  destruct Hfound as (_ & Hnone).
  set (m1 := set_store m (store_current (top m)) s1).
  destruct (migrate_memory m1 s1)
    as (m2 & ns & E & Hwf2 & Hcur2 & Hroom2 & Hc2 & Htop2 & Hst2).
  { by apply set_store_current. }
  { done. }
  { by apply He1. }
  { done. }
  cbn [m1 set_store top stores] in E, Htop2, Hst2.
  rewrite length_insert in Htop2, Hst2. rewrite list_insert_insert_eq in Hst2.
  pose proof Hwf2 as [(ns' & Hcur2' & Hwfn & _) _].
  unfold current_store in Hcur2. rewrite Hcur2 in Hcur2'.
  injection Hcur2' as <-. fold (current_store m2) in Hcur2.
  destruct (acquire_outcome ns k Hwfn Hk) as (a & Ha2 & _ & _ & _ & Hfound2).
  destruct a as [ns1 j2 | ns1]; [| by destruct Hfound2].
  destruct (add_direct fuel m2 ns ns1 j2 k v)
    as (m' & res & E' & Hpost & Hone); try done.
  { intros _. rewrite Htop2. simpl. lia. }
  assert (∀ k', k' ≠ 0%Z → table_content m2 k' = table_content m k') as Hsame.
  { intros k' Hk'.
    rewrite (table_content_eq m2 ns k' Hcur2), (table_content_eq m s k' Hcur).
    rewrite Hc2 by done. by apply Hc1. }
  destruct Hpost as [P1 P2 P3 P4 P5 _].
  rewrite (Hsame k Hk), Htop2 in *. cbn [next_epoch item_count] in *.
  assert (res = true) as ->.
  { by rewrite P2, (table_content_eq m s k Hcur), Hnone. }
  exists m'. split.
  { rewrite (add_retry _ _ _ s s1) by done. fold m1.
    rewrite E. cbn [mbind option_bind]. exact E'. }
  destruct Hone as (Hsc & s0 & s' & j0 & b' & Hs0 & Hbs & Hst).
  rewrite Htop2 in Hsc, Hst. cbn [store_current] in Hsc, Hst.
  assert (stores m' !! store_current (top m) =
            Some (retired s1 (length (stores m)))) as Hold.
  { rewrite Hst, Hst2. rewrite list_lookup_insert_ne by lia.
    rewrite lookup_app_l by (rewrite length_insert; lia).
    by apply list_lookup_insert_eq. }
  split; [| done].
  split; try done.
  - intros k' Hk' Hk0. rewrite <- (Hsame k' Hk0). by apply P5.
  - right. pose proof P1 as [(s'' & Hcur' & Hwf' & _) _].
    split; [done |]. exists s1, s''.
    split; [done |]. split; [done |]. split; [apply Hwf' |]. split.
    + rewrite Hst, Hst2, length_insert, length_app, length_insert. simpl. lia.
    + intros p Hp Hpl. rewrite Hst, Hst2.
      rewrite list_lookup_insert_ne by lia.
      rewrite lookup_app_l by (rewrite length_insert; lia).
      by rewrite list_lookup_insert_ne.
Qed.

(** [add] on a well-formed table. *)
Lemma add_ok fuel m k v :
  wf m → k ≠ 0%Z →
  (table_content m k = None → (next_epoch (top m) < 2 ^ 62)%Z) →
  ∃ m' res,
    hihat_a_add (S (S fuel)) m k v = Some (m', res) ∧ add_post m k v m' res.
Proof.
  intros Hwfm Hk Hroom.
  pose proof Hwfm as [(s & Hcur & Hwf & Hep) Hne].
  destruct (acquire_outcome s k Hwf Hk) as (a & Ha & _ & _ & _ & Hfound).
  destruct a as [s1 j | s1].
  - destruct (add_direct (S fuel) m s s1 j k v) as (m' & res & E & Hpost & _);
      try done.
    by exists m', res.
  - destruct Hfound as (_ & Hnone).
    destruct (add_migrates fuel m s s1 k v) as (m' & E & Hpost & _);
      try done.
    + apply Hroom. by rewrite (table_content_eq m s k Hcur).
    + by exists m', true.
Qed.

(** [replace] on a well-formed table. *)
Lemma replace_ok fuel m k v :
  wf m → k ≠ 0%Z →
  ∃ m' res,
    hihat_a_replace (S fuel) m k v = Some (m', res) ∧
    replace_post m k v m' res.
Proof.
  intros Hwfm Hk. unfold hihat_a_replace.
  pose proof Hwfm as [(s & Hcur & Hwf & Hep) Hne].
  pose proof (lookup_lt_Some _ _ _ Hcur) as Hlt.
  assert (table_content m k = None → replace_post m k v m (NULL, false)) as Hnone.
  { intros E. split; try done; try by rewrite E.
    by apply (one_bucket_refl m s). }
  cbn [hihat_a_store_replace]. rewrite Hcur. cbn [mbind option_bind].
  rewrite find_loop_probe; [| apply Hwf | apply index_lt, Hwf].
  fold (slot_of s k). cbn [mbind option_bind].
  destruct (slot_of s k) as [j |] eqn:Hslot.
  2: { eexists _, _. split; [done |]. apply Hnone.
       rewrite (table_content_eq m s k Hcur). by apply content_no_slot. }
  destruct (slot_of_Some _ _ _ Hslot) as (b & Hb & Hstop). rewrite Hb.
  unfold hatrack_bucket_unreserved.
  destruct (Z.eqb_spec (hv b) 0) as [E0 | Hnz].
  { eexists _, _. split; [done |]. apply Hnone.
    rewrite (table_content_eq m s k Hcur). by eapply content_unreserved. }
  destruct Hstop as [? | Hkb]; [done |].
  rewrite Hb. cbn [mbind option_bind].
  pose proof (wf_info s Hwf j b Hb) as Hp.
  rewrite (plain_not_moving _ Hp).
  pose proof (content_at s j b (wf_probe s Hwf) Hb Hnz) as Hat.
  rewrite Hkb, (plain_has_epoch _ Hp) in Hat.
  destruct (Z.eqb_spec (info (record b)) 0) as [Ei | Ei]; simpl in Hat.
  { eexists _, _. split; [done |]. apply Hnone.
    by rewrite (table_content_eq m s k Hcur). }
  rewrite LCAS_record_same.
  set (r := mk_record v (info (record b))).
  set (s2 := set_bucket s j (set_record b r)).
  eexists _, _. split; [done |].
  assert (current_store (set_store m (store_current (top m)) s2) = Some s2)
    as Hcur2.
  { unfold current_store. simpl. by apply list_lookup_insert_eq. }
  split.
  - split; [| done]. exists s2. split; [done |]. split.
    + apply wf_store_set_record; try done.
    + simpl. eapply epochs_ok_set_record; eauto; simpl; lia.
  - by rewrite (table_content_eq m s k Hcur), Hat.
  - rewrite (table_content_eq _ _ _ Hcur2), (table_content_eq m s k Hcur), Hat.
    unfold s2. rewrite <- Hkb.
    rewrite content_set_record_eq by (done || apply Hwf).
    rewrite (has_epoch_info r (record b)) by done.
    rewrite (plain_has_epoch _ Hp).
    by destruct (Z.eqb_spec (info (record b)) 0).
  - intros k' Hk' Hk0.
    rewrite (table_content_eq _ _ _ Hcur2), (table_content_eq m s k' Hcur).
    unfold s2. by rewrite content_set_record_ne by congruence.
  - done.
  - by rewrite (table_content_eq m s k Hcur), Hat.
  - split; [done |]. exists s, s2, j, (set_record b r). done.
Qed.

End writers.

(** ** The MOVING flag is never cleared

    These facts hold of any memory, well formed or not: they follow the
    writes of the code one by one. *)

Section flags.
Context `{HC : hatrack_common}.
Implicit Types (s : hihat_store_t) (k : hatrack_hash_t) (b : hihat_bucket_t).
Implicit Types (m : memory).

Lemma store_flags_le_refl s : store_flags_le s s.
Proof. intros i b Hb. by exists b. Qed.

Lemma store_flags_le_trans s1 s2 s3 :
  store_flags_le s1 s2 → store_flags_le s2 s3 → store_flags_le s1 s3.
Proof.
  intros H12 H23 i b Hb.
  destruct (H12 i b Hb) as (b2 & Hb2 & Hm2).
  destruct (H23 i b2 Hb2) as (b3 & Hb3 & Hm3).
  exists b3. split; [done |]. auto.
Qed.

Lemma store_flags_le_buckets s s' : buckets s' = buckets s → store_flags_le s s'.
Proof. intros E i b Hb. exists b. by rewrite E. Qed.

Lemma store_flags_le_set_bucket s i b b' :
  buckets s !! i = Some b →
  (is_moving (record b) = true → is_moving (record b') = true) →
  store_flags_le s (set_bucket s i b').
Proof.
  intros Hb Hm j c Hc. simpl. destruct (decide (j = i)) as [-> | Hne].
  - exists b'. rewrite list_lookup_insert_eq by (by eapply lookup_lt_Some).
    split; [done |]. rewrite Hb in Hc. by injection Hc as <-.
  - exists c. by rewrite list_lookup_insert_ne.
Qed.

Lemma flags_le_refl m : flags_le m m.
Proof. intros p s Hs. exists s. split; [done | apply store_flags_le_refl]. Qed.

Lemma flags_le_trans m1 m2 m3 : flags_le m1 m2 → flags_le m2 m3 → flags_le m1 m3.
Proof.
  intros H12 H23 p s Hs.
  destruct (H12 p s Hs) as (s2 & Hs2 & Hl2).
  destruct (H23 p s2 Hs2) as (s3 & Hs3 & Hl3).
  exists s3. split; [done |]. by eapply store_flags_le_trans.
Qed.

Lemma flags_le_set_store m p s' :
  (∀ s, stores m !! p = Some s → store_flags_le s s') →
  flags_le m (set_store m p s').
Proof.
  intros Hle q s Hs. simpl. destruct (decide (q = p)) as [-> | Hne].
  - exists s'. rewrite list_lookup_insert_eq by (by eapply lookup_lt_Some).
    split; [done | by apply Hle].
  - exists s. rewrite list_lookup_insert_ne by done.
    split; [done | apply store_flags_le_refl].
Qed.

Lemma flags_le_stores m m' : stores m' = stores m → flags_le m m'.
Proof.
  intros E p s Hs. exists s. rewrite E. split; [done | apply store_flags_le_refl].
Qed.

Lemma acquire_loop_flags s k n bix a :
  acquire_loop s k n bix = Some a → store_flags_le s (acquired_store a).
Proof.
  revert bix. induction n as [| n IH]; intros bix; simpl.
  { intros [= <-]. apply store_flags_le_refl. }
  destruct (buckets s !! bix) as [b |] eqn:Hb; [| done]. simpl.
  destruct (hatrack_bucket_unreserved (hv b)).
  - rewrite LCAS_hv_same.
    assert (store_flags_le s
              (set_used_count (set_bucket s bix (set_hv b k))
                 (wrap64 (used_count (set_bucket s bix (set_hv b k)) + 1))))
      as Hle.
    { eapply store_flags_le_trans; [| by apply store_flags_le_buckets].
      by eapply store_flags_le_set_bucket. }
    destruct (_ >=? _)%Z; intros [= <-]; exact Hle.
  - destruct (negb (hatrack_hashes_eq k (hv b))); [apply IH |].
    intros [= <-]. apply store_flags_le_refl.
Qed.

Lemma migrate_probe_flags s k n bix nb s' j :
  hihat_a_store_migrate_probe s k n bix nb = Some (s', j) →
  store_flags_le s s'.
Proof.
  revert bix nb. induction n as [| n IH]; intros bix nb; simpl.
  { destruct nb; simpl; [| done]. intros [= <- _]. apply store_flags_le_refl. }
  destruct (buckets s !! bix) as [b |] eqn:Hb; [| done]. simpl.
  destruct (hatrack_bucket_unreserved (hv b)).
  - rewrite LCAS_hv_same. intros [= <- _].
    by eapply store_flags_le_set_bucket.
  - destruct (negb (hatrack_hashes_eq (hv b) k)); [apply IH |].
    intros [= <- _]. apply store_flags_le_refl.
Qed.

Lemma freeze_bucket_moving b :
  is_moving (record b) = true → is_moving (record (migrate_freeze_bucket b)) = true.
Proof. intros Hm. unfold migrate_freeze_bucket. by rewrite Hm. Qed.

Lemma freeze_flags s n i cnt s' cnt' :
  hihat_a_store_migrate_freeze s n i cnt = Some (s', cnt') →
  store_flags_le s s'.
Proof.
  revert s i cnt. induction n as [| n IH]; intros s i cnt; simpl.
  { intros [= <- _]. apply store_flags_le_refl. }
  destruct (buckets s !! i) as [b |] eqn:Hb; [| done]. simpl.
  intros E. eapply store_flags_le_trans; [| exact (IH _ _ _ E)].
  eapply store_flags_le_set_bucket; [done |]. apply freeze_bucket_moving.
Qed.

Lemma is_moving_lor_moved r it :
  is_moving r = true →
  is_moving (mk_record it (Z.lor (info r) HIHAT_F_MOVED)) = true.
Proof.
  unfold is_moving. simpl. rewrite !negb_true_iff, !Z.eqb_neq.
  apply lor_keeps_flag.
Qed.

Lemma copy_bucket_flags self ns i cnt self' ns' cnt' :
  migrate_copy_bucket self ns i cnt = Some (self', ns', cnt') →
  store_flags_le self self' ∧ store_flags_le ns ns'.
Proof.
  unfold migrate_copy_bucket.
  destruct (buckets self !! i) as [b |] eqn:Hb; [| done]. cbn [mbind option_bind].
  destruct (is_moved (record b)).
  { intros [= <- <- _]. split; apply store_flags_le_refl. }
  destruct (hihat_a_store_migrate_probe ns _ _ _ _) as [[ns1 nbix] |] eqn:Hprobe;
    [| done]. cbn [mbind option_bind].
  destruct (buckets ns1 !! nbix) as [nb |] eqn:Hnb; [| done]. cbn [mbind option_bind].
  destruct (LCAS record_eqb (record nb) _ _) as [[cell e1] ok1] eqn:Hcas.
  rewrite LCAS_record_same. intros [= <- <- _]. split.
  - eapply store_flags_le_set_bucket; [done |]. apply is_moving_lor_moved.
  - eapply store_flags_le_trans; [by eapply migrate_probe_flags |].
    eapply store_flags_le_set_bucket; [done |].
    unfold LCAS in Hcas.
    destruct (record_eqb (record nb) _) eqn:Heq; injection Hcas as <- _ _.
    + apply record_eqb_eq in Heq. by rewrite Heq.
    + done.
Qed.

Lemma copy_flags self ns n i cnt self' ns' cnt' :
  hihat_a_store_migrate_copy self ns n i cnt = Some (self', ns', cnt') →
  store_flags_le self self' ∧ store_flags_le ns ns'.
Proof.
  revert self ns i cnt. induction n as [| n IH]; intros self ns i cnt; simpl.
  { intros [= <- <- _]. split; apply store_flags_le_refl. }
  destruct (migrate_copy_bucket self ns i cnt) as [[[self1 ns1] cnt1] |] eqn:E;
    [| done]. cbn [mbind option_bind].
  intros E'. destruct (copy_bucket_flags _ _ _ _ _ _ _ E) as (H1 & H2).
  destruct (IH _ _ _ _ E') as (H3 & H4).
  split; eapply store_flags_le_trans; eauto.
Qed.

Lemma have_new_store_flags self new m p m' :
  migrate_have_new_store self new m = Some (p, m') → flags_le m m'.
Proof.
  unfold migrate_have_new_store.
  destruct (stores m !! self) as [s |] eqn:Hs; [| done]. cbn [mbind option_bind].
  destruct (stores m !! new) as [ns |] eqn:Hns; [| done]. cbn [mbind option_bind].
  destruct (hihat_a_store_migrate_copy s ns _ _ _) as [[[s' ns'] used] |] eqn:E;
    [| done]. cbn [mbind option_bind].
  destruct (copy_flags _ _ _ _ _ _ _ _ E) as (H1 & H2).
  destruct (LCAS Z.eqb (used_count ns') 0 (Z.of_nat used)) as [[cell ?] ?].
  destruct (LCAS Nat.eqb _ self new) as [[cur ?] ?].
  intros [= _ <-]. intros q t Ht. simpl.
  pose proof (lookup_lt_Some _ _ _ Hs) as Hlts.
  pose proof (lookup_lt_Some _ _ _ Hns) as Hltn.
  destruct (decide (q = new)) as [-> | Hqn].
  - exists (set_used_count ns' cell).
    rewrite list_lookup_insert_eq by (by rewrite length_insert).
    split; [done |]. rewrite Hns in Ht. injection Ht as <-.
    eapply store_flags_le_trans; [exact H2 |]. by apply store_flags_le_buckets.
  - rewrite list_lookup_insert_ne by done.
    destruct (decide (q = self)) as [-> | Hqs].
    + exists s'. rewrite list_lookup_insert_eq by done. split; [done |].
      rewrite Hs in Ht. by injection Ht as <-.
    + exists t. rewrite list_lookup_insert_ne by done.
      split; [done | apply store_flags_le_refl].
Qed.

Lemma migrate_flags self m p m' :
  hihat_a_store_migrate self m = Some (p, m') → flags_le m m'.
Proof.
  unfold hihat_a_store_migrate.
  destruct (negb (Nat.eqb (store_current (top m)) self)).
  { intros [= _ <-]. apply flags_le_refl. }
  destruct (stores m !! self) as [s |] eqn:Hs; [| done]. cbn [mbind option_bind].
  destruct (store_next s) as [ns |] eqn:Hnext.
  { destruct (Nat.eqb ns (store_current (top m))).
    { intros [= _ <-]. apply flags_le_refl. }
    apply have_new_store_flags. }
  destruct (hihat_a_store_migrate_freeze s _ _ _) as [[s1 used] |] eqn:E;
    [| done]. cbn [mbind option_bind].
  pose proof (freeze_flags _ _ _ _ _ _ E) as Hfr.
  assert (flags_le m (set_store m self s1)) as H1.
  { apply flags_le_set_store. intros t Ht. rewrite Hs in Ht. by injection Ht as <-. }
  destruct (store_next s1) as [ns |] eqn:Hnext1.
  { intros E'. eapply flags_le_trans; [exact H1 |].
    by eapply have_new_store_flags. }
  unfold alloc_store, LCAS. cbn [store_ptr_eqb mbind option_bind].
  intros E'. apply have_new_store_flags in E'.
  eapply flags_le_trans; [exact H1 |].
  eapply flags_le_trans; [| exact E'].
  intros q t Ht. simpl in Ht |- *.
  pose proof (lookup_lt_Some _ _ _ Ht) as Hlt. rewrite length_insert in Hlt.
  pose proof (lookup_lt_Some _ _ _ Hs) as Hlts.
  rewrite insert_app_l by (rewrite length_insert; lia).
  rewrite list_insert_insert_eq.
  rewrite lookup_app_l by (rewrite length_insert; lia).
  destruct (decide (q = self)) as [-> | Hne].
  - rewrite list_lookup_insert_eq in Ht |- * by done. injection Ht as <-.
    eexists. split; [done |]. by apply store_flags_le_buckets.
  - rewrite list_lookup_insert_ne in Ht |- * by done.
    exists t. split; [done | apply store_flags_le_refl].
Qed.

Lemma flags_le_written m self s s1 bix b r t :
  stores m !! self = Some s → store_flags_le s s1 →
  buckets s1 !! bix = Some b → is_moving (record b) = false →
  flags_le m (set_top (set_store m self (set_bucket s1 bix (set_record b r))) t).
Proof.
  intros Hs Hle Hb Hmov.
  eapply flags_le_trans; [| by apply flags_le_stores].
  apply flags_le_set_store. intros s0 Hs0. rewrite Hs in Hs0. injection Hs0 as <-.
  eapply store_flags_le_trans; [exact Hle |].
  eapply store_flags_le_set_bucket; [done |]. by rewrite Hmov.
Qed.

Lemma flags_le_acquired m self s s1 :
  stores m !! self = Some s → store_flags_le s s1 →
  flags_le m (set_store m self s1).
Proof.
  intros Hs Hle. apply flags_le_set_store.
  intros s0 Hs0. rewrite Hs in Hs0. by injection Hs0 as <-.
Qed.

Lemma put_flags fuel self m k v m' r :
  hihat_a_store_put fuel self m k v = Some (m', r) → flags_le m m'.
Proof.
  revert self m. induction fuel as [| fuel IH]; intros self m; [done |].
  cbn [hihat_a_store_put].
  destruct (stores m !! self) as [s |] eqn:Hs; [| done]. cbn [mbind option_bind].
  destruct (acquire_loop s k _ _) as [a |] eqn:Ha; [| done].
  cbn [mbind option_bind].
  pose proof (acquire_loop_flags _ _ _ _ _ Ha) as Hacq.
  assert (∀ m0, flags_le m m0 →
            ('(self', m1) ← hihat_a_store_migrate self m0;
             hihat_a_store_put fuel self' m1 k v) = Some (m', r) →
            flags_le m m') as Hretry.
  { intros m0 H0.
    destruct (hihat_a_store_migrate self m0) as [[p m1] |] eqn:Em; [| done].
    cbn [mbind option_bind]. intros E.
    eapply flags_le_trans; [exact H0 |].
    eapply flags_le_trans; [by eapply migrate_flags | by eapply IH]. }
  destruct a as [s1 bix | s1]; simpl in Hacq.
  2: { apply Hretry. by eapply flags_le_acquired. }
  destruct (buckets s1 !! bix) as [b |] eqn:Hb; [| done].
  cbn [mbind option_bind].
  destruct (is_moving (record b)) eqn:Hmov.
  { apply Hretry. by eapply flags_le_acquired. }
  destruct (has_epoch (record b)); rewrite LCAS_record_same;
    intros [= <- _];
    (eapply flags_le_trans; [| by apply flags_le_stores]);
    by eapply flags_le_written.
Qed.

Lemma add_flags fuel self m k v m' r :
  hihat_a_store_add fuel self m k v = Some (m', r) → flags_le m m'.
Proof.
  revert self m. induction fuel as [| fuel IH]; intros self m; [done |].
  cbn [hihat_a_store_add].
  destruct (stores m !! self) as [s |] eqn:Hs; [| done]. cbn [mbind option_bind].
  destruct (acquire_loop s k _ _) as [a |] eqn:Ha; [| done].
  cbn [mbind option_bind].
  pose proof (acquire_loop_flags _ _ _ _ _ Ha) as Hacq.
  assert (∀ m0, flags_le m m0 →
            ('(self', m1) ← hihat_a_store_migrate self m0;
             hihat_a_store_add fuel self' m1 k v) = Some (m', r) →
            flags_le m m') as Hretry.
  { intros m0 H0.
    destruct (hihat_a_store_migrate self m0) as [[p m1] |] eqn:Em; [| done].
    cbn [mbind option_bind]. intros E.
    eapply flags_le_trans; [exact H0 |].
    eapply flags_le_trans; [by eapply migrate_flags | by eapply IH]. }
  destruct a as [s1 bix | s1]; simpl in Hacq.
  2: { apply Hretry. by eapply flags_le_acquired. }
  destruct (buckets s1 !! bix) as [b |] eqn:Hb; [| done].
  cbn [mbind option_bind].
  destruct (is_moving (record b)) eqn:Hmov.
  { apply Hretry. by eapply flags_le_acquired. }
  destruct (negb (info (record b) =? 0)%Z).
  { intros [= <- _]. by eapply flags_le_acquired. }
  rewrite LCAS_record_same. intros [= <- _].
  (eapply flags_le_trans; [| by apply flags_le_stores]).
  by eapply flags_le_written.
Qed.

Lemma replace_flags fuel self m k v m' r :
  hihat_a_store_replace fuel self m k v = Some (m', r) → flags_le m m'.
Proof.
  revert self m. induction fuel as [| fuel IH]; intros self m; [done |].
  cbn [hihat_a_store_replace].
  destruct (stores m !! self) as [s |] eqn:Hs; [| done]. cbn [mbind option_bind].
  destruct (find_loop s k _ _) as [[j |] |] eqn:Hf; [| | done];
    cbn [mbind option_bind].
  2: { intros [= <- _]. apply flags_le_refl. }
  destruct (buckets s !! j) as [b |] eqn:Hb; [| done]. cbn [mbind option_bind].
  destruct (is_moving (record b)) eqn:Hmov.
  { destruct (hihat_a_store_migrate self m) as [[p m1] |] eqn:Em; [| done].
    cbn [mbind option_bind]. intros E.
    eapply flags_le_trans; [by eapply migrate_flags | by eapply IH]. }
  destruct (info (record b) =? 0)%Z.
  { intros [= <- _]. apply flags_le_refl. }
  rewrite LCAS_record_same. intros [= <- _].
  apply flags_le_set_store. intros s0 Hs0. rewrite Hs in Hs0. injection Hs0 as <-.
  eapply store_flags_le_set_bucket; [done |]. by rewrite Hmov.
Qed.

Lemma remove_flags fuel self m k m' r :
  hihat_a_store_remove fuel self m k = Some (m', r) → flags_le m m'.
Proof.
  revert self m. induction fuel as [| fuel IH]; intros self m; [done |].
  cbn [hihat_a_store_remove].
  destruct (stores m !! self) as [s |] eqn:Hs; [| done]. cbn [mbind option_bind].
  destruct (find_loop s k _ _) as [[j |] |] eqn:Hf; [| | done];
    cbn [mbind option_bind].
  2: { intros [= <- _]. apply flags_le_refl. }
  destruct (buckets s !! j) as [b |] eqn:Hb; [| done]. cbn [mbind option_bind].
  destruct (is_moving (record b)) eqn:Hmov.
  { destruct (hihat_a_store_migrate self m) as [[p m1] |] eqn:Em; [| done].
    cbn [mbind option_bind]. intros E.
    eapply flags_le_trans; [by eapply migrate_flags | by eapply IH]. }
  destruct (info (record b) =? 0)%Z.
  { intros [= <- _]. apply flags_le_refl. }
  rewrite LCAS_record_same. intros [= <- _].
  eapply flags_le_trans; [| by apply flags_le_stores].
  apply flags_le_set_store. intros s0 Hs0. rewrite Hs in Hs0. injection Hs0 as <-.
  eapply store_flags_le_set_bucket; [done |]. by rewrite Hmov.
Qed.

(** A call of the interface clears no MOVING flag, in any store. *)
Lemma call_flags fuel m op m' r :
  hihat_a_call fuel m op = Some (m', r) → flags_le m m'.
Proof.
  destruct op; simpl.
  - destruct (hihat_a_get m hv1) as [[? ?] |]; simpl; [| done].
    intros [= <- _]. apply flags_le_refl.
  - destruct (hihat_a_put fuel m hv1 item0) as [[m1 [? ?]] |] eqn:E; simpl; [| done].
    intros [= <- _]. by eapply put_flags.
  - destruct (hihat_a_replace fuel m hv1 item0) as [[m1 [? ?]] |] eqn:E; simpl; [| done].
    intros [= <- _]. by eapply replace_flags.
  - destruct (hihat_a_add fuel m hv1 item0) as [[m1 ?] |] eqn:E; simpl; [| done].
    intros [= <- _]. by eapply add_flags.
  - destruct (hihat_a_remove fuel m hv1) as [[m1 [? ?]] |] eqn:E; simpl; [| done].
    intros [= <- _]. by eapply remove_flags.
  - intros [= <- _]. apply flags_le_refl.
  - destruct (hihat_a_view m sort) as [[? ?] |]; simpl; [| done].
    intros [= <- _]. apply flags_le_refl.
Qed.

End flags.

(** * The claims *)

Section claims.
Context `{HC : hatrack_common} `{!hatrack_common_ok}.
Implicit Types (s : hihat_store_t) (k : hatrack_hash_t) (m : memory).

(** The table [hihat_a_init] makes is well formed. *)
Lemma wf_init : wf hihat_a_init.
Proof.
  destruct min_size_pow2 as (n & Hn). split; [| simpl; lia].
  exists (hihat_a_store_new HATRACK_MIN_SIZE). split; [done |].
  rewrite Hn. split; [apply wf_store_new |]. split.
  - intros i b. simpl. intros [-> _]%lookup_replicate. simpl. lia.
  - intros i1 i2 b1 b2. simpl. intros [-> _]%lookup_replicate. done.
Qed.

(** The epoch of a live record is below [next_epoch]. *)
Lemma content_epoch_lt m k r :
  wf m → k ≠ 0%Z → table_content m k = Some r →
  (0 < info r < next_epoch (top m))%Z.
Proof.
  intros [(s & Hcur & Hwf & Hep) Hne] Hk.
  rewrite (table_content_eq m s k Hcur).
  intros (i & b & Hb & _ & Hl & <-)%content_Some; [| apply Hwf.. | done].
  pose proof (wf_info s Hwf i b Hb) as Hp.
  pose proof (epochs_lt s _ Hep i b Hb).
  unfold live in Hl. rewrite (plain_has_epoch _ Hp) in Hl.
  destruct (Z.eqb_spec (info (record b)) 0); [done | lia].
Qed.

(** Any run of [put]s on a well-formed table succeeds and leaves a
    well-formed table, as long as the epoch counter has room. *)
Lemma put_all_ok m kvs :
  wf m → Forall (λ kv, fst kv ≠ 0%Z) kvs →
  (next_epoch (top m) + Z.of_nat (length kvs) ≤ 2 ^ 62)%Z →
  ∃ m', put_all m kvs = Some m' ∧ wf m' ∧
        (next_epoch (top m') ≤ next_epoch (top m) + Z.of_nat (length kvs))%Z.
Proof.
  revert m. induction kvs as [| [k v] kvs IH]; intros m Hwf Hks Hroom.
  { exists m. simpl. split; [done |]. split; [done | lia]. }
  apply Forall_cons in Hks as [Hk Hks]. simpl in Hk, Hroom.
  destruct (put_ok 0 m k v Hwf Hk) as (m1 & res & E & Hpost); [lia |].
  pose proof (pp_epoch _ _ _ _ _ Hpost) as He.
  destruct (IH m1) as (m' & E' & Hwf' & Hle); [apply Hpost | done | |].
  { destruct (table_content m k); lia. }
  exists m'. simpl. rewrite E. simpl. split; [done |]. split; [done |].
  destruct (table_content m k); lia.
Qed.

(** C3: [put k v] returns the item that was live under [k], or the null
    item when none was, and sets [found] exactly when a live item existed;
    when it replaces a live item, the epoch bits of the record are left as
    they were. *)
Theorem C3_put_returns_prior_and_keeps_epoch fuel m k v :
  wf m → k ≠ 0%Z →
  (table_content m k = None → (next_epoch (top m) < 2 ^ 62)%Z) →
  ∃ m' old found,
    hihat_a_put (S (S fuel)) m k v = Some (m', (old, found)) ∧
    hihat_a_get m k = Some (old, found) ∧
    (found = true ↔ ∃ r, table_content m k = Some r) ∧
    (found = false → old = NULL) ∧
    (∀ r, table_content m k = Some r →
       old = item r ∧
       ∃ r', table_content m' k = Some r' ∧ item r' = v ∧
             epoch_of r' = epoch_of r).
Proof.
  intros Hwf Hk Hroom.
  destruct (put_ok fuel m k v Hwf Hk Hroom) as (m' & [old found] & E & Hpost).
  exists m', old, found. split; [done |].
  pose proof (pp_res _ _ _ _ _ Hpost) as Hres.
  pose proof (pp_new _ _ _ _ _ Hpost) as Hnew.
  rewrite (get_ok m k Hwf).
  destruct (table_content m k) as [r |]; simpl in Hres;
    injection Hres as -> ->.
  - split; [done |]. split; [split; eauto |]. split; [done |].
    intros r0 [= <-]. split; [done |]. by eexists.
  - split; [done |]. split; [split; [done | by intros [? ?]] |].
    split; [done |]. done.
Qed.

(** C4: a fresh insertion, by [put] or by [add], takes the value of
    [next_epoch] as the epoch of the new record and advances the counter
    by one, so the new epoch differs from the epoch of every other live
    record; a [put] over a live record leaves the counter alone. *)
Theorem C4_fresh_insert_consumes_one_epoch fuel m k v :
  wf m → k ≠ 0%Z → (next_epoch (top m) < 2 ^ 62)%Z →
  (table_content m k = None →
     ∃ mp res ma,
       hihat_a_put (S (S fuel)) m k v = Some (mp, res) ∧
       hihat_a_add (S (S fuel)) m k v = Some (ma, true) ∧
       ∀ m', m' = mp ∨ m' = ma →
         table_content m' k = Some (mk_record v (next_epoch (top m))) ∧
         next_epoch (top m') = wrap64 (next_epoch (top m) + 1) ∧
         next_epoch (top m') = (next_epoch (top m) + 1)%Z ∧
         ∀ k' r', k' ≠ k → k' ≠ 0%Z → table_content m' k' = Some r' →
                  info r' ≠ next_epoch (top m)) ∧
  (∀ r, table_content m k = Some r →
     ∃ m' res,
       hihat_a_put (S (S fuel)) m k v = Some (m', res) ∧
       next_epoch (top m') = next_epoch (top m)).
Proof.
  intros Hwf Hk Hroom.
  pose proof Hwf as [_ Hne]. split.
  - intros Hnone.
    destruct (put_ok fuel m k v Hwf Hk) as (mp & res & Ep & Hp); [done |].
    destruct (add_ok fuel m k v Hwf Hk) as (ma & resa & Ea & Ha); [done |].
    pose proof (ap_res _ _ _ _ _ Ha) as Hra. rewrite Hnone in Hra.
    simpl in Hra. subst resa.
    destruct (ap_new _ _ _ _ _ Ha eq_refl) as (A1 & A2 & _).
    pose proof (pp_new _ _ _ _ _ Hp) as P1.
    pose proof (pp_epoch _ _ _ _ _ Hp) as P2.
    rewrite Hnone in P1, P2.
    exists mp, res, ma. split; [done |]. split; [done |].
    intros m' [-> | ->].
    + split; [done |]. split; [by rewrite wrap64_small by lia |].
      split; [done |]. intros k' r' Hk' Hk0 Hc.
      rewrite (pp_frame _ _ _ _ _ Hp k' Hk' Hk0) in Hc.
      pose proof (content_epoch_lt m k' r' Hwf Hk0 Hc). lia.
    + split; [done |]. split; [by rewrite wrap64_small by lia |].
      split; [done |]. intros k' r' Hk' Hk0 Hc.
      rewrite (ap_frame _ _ _ _ _ Ha k' Hk' Hk0) in Hc.
      pose proof (content_epoch_lt m k' r' Hwf Hk0 Hc). lia.
  - intros r Hsome.
    destruct (put_ok fuel m k v Hwf Hk) as (m' & res & E & Hp);
      [by rewrite Hsome |].
    exists m', res. split; [done |].
    pose proof (pp_epoch _ _ _ _ _ Hp) as P2. by rewrite Hsome in P2.
Qed.

(** C8: [add k v] returns false and leaves the table as it was exactly
    when a live value for [k] exists; otherwise it installs [v] and returns
    true.  A second [add] right after a successful one returns false and
    leaves the first value live. *)
Theorem C8_add_fails_exactly_on_live_key fuel m k v :
  wf m → k ≠ 0%Z →
  (table_content m k = None → (next_epoch (top m) < 2 ^ 62)%Z) →
  ∃ m' res,
    hihat_a_add (S (S fuel)) m k v = Some (m', res) ∧
    (res = false ↔ ∃ item0, hihat_a_get m k = Some (item0, true)) ∧
    (res = false → m' = m) ∧
    (res = true →
       hihat_a_get m' k = Some (v, true) ∧
       ∀ v', hihat_a_add (S (S fuel)) m' k v' = Some (m', false) ∧
             hihat_a_get m' k = Some (v, true)).
Proof.
  intros Hwf Hk Hroom.
  destruct (add_ok fuel m k v Hwf Hk Hroom) as (m' & res & E & Hpost).
  exists m', res. split; [done |].
  pose proof (ap_res _ _ _ _ _ Hpost) as Hres.
  pose proof (ap_wf _ _ _ _ _ Hpost) as Hwf'.
  rewrite (get_ok m k Hwf).
  split; [| split; [apply Hpost |]].
  - destruct (table_content m k) as [r |]; simpl in Hres |- *; subst res.
    + split; [by eexists | done].
    + split; [done | by intros [? [=]]].
  - intros ->.
    destruct (ap_new _ _ _ _ _ Hpost eq_refl) as (Hnew & _).
    assert (hihat_a_get m' k = Some (v, true)) as Hget.
    { by rewrite (get_ok m' k Hwf'), Hnew. }
    split; [done |]. intros v'. split; [| done].
    destruct (add_ok fuel m' k v' Hwf' Hk) as (m2 & res2 & E2 & Hpost2).
    { by rewrite Hnew. }
    pose proof (ap_res _ _ _ _ _ Hpost2) as Hres2. rewrite Hnew in Hres2.
    simpl in Hres2. subst res2.
    by rewrite (ap_same _ _ _ _ _ Hpost2 eq_refl) in E2.
Qed.

Lemma moved_bucket_keeps b :
  (0 ≤ info (record b) < 2 ^ 62)%Z →
  hv (moved_bucket b) = hv b ∧
  item (record (moved_bucket b)) = item (record b) ∧
  epoch_of (record (moved_bucket b)) = epoch_of (record b).
Proof.
  intros Hp. unfold moved_bucket. simpl. split; [done |]. split; [done |].
  destruct (Z.eqb_spec (info (record b)) 0) as [E | E].
  - unfold epoch_of. simpl. by rewrite E.
  - unfold epoch_of at 1. simpl.
    rewrite lor_other_flag by done. apply epoch_of_lor_moving.
Qed.

(** C2: after a migration of the current store commits, every bucket that
    was live in the old store (a record with non-zero epoch bits) is in the
    new store with the same hash, the same item and the same epoch bits.
    The old store is read both as it was before the migration and as the
    migration leaves it. *)
Theorem C2_migration_carries_live_buckets m s :
  wf m → current_store m = Some s →
  ∃ p' m' s',
    hihat_a_store_migrate (store_current (top m)) m = Some (p', m') ∧
    p' ≠ store_current (top m) ∧
    store_current (top m') = p' ∧ stores m' !! p' = Some s' ∧
    stores m' !! store_current (top m) = Some (retired s p') ∧
    ∀ old, old = s ∨ old = retired s p' →
      ∀ i b, buckets old !! i = Some b → has_epoch (record b) = true →
        ∃ i' b', buckets s' !! i' = Some b' ∧ hv b' = hv b ∧
                 item (record b') = item (record b) ∧
                 epoch_of (record b') = epoch_of (record b).
Proof.
  intros [(s0 & Hcur & Hwf & _) _] Hcur0.
  unfold current_store in Hcur0. rewrite Hcur0 in Hcur. injection Hcur as <-.
  pose proof (lookup_lt_Some _ _ _ Hcur0) as Hlt.
  destruct (migrate_spec m s Hcur0 Hwf) as (ns & E & _ & _ & _ & _ & _ & Hto).
  eexists _, _, ns. split; [exact E |]. cbn [top stores store_current].
  split; [lia |]. split; [done |]. split; [| split].
  - rewrite lookup_app_r by (rewrite length_insert; lia).
    by rewrite length_insert, Nat.sub_diag.
  - rewrite lookup_app_l by (rewrite length_insert; lia).
    by apply list_lookup_insert_eq.
  - intros old [-> | ->] i b Hb Hl.
    + destruct (Hto i b Hb Hl) as (i' & Hi'). by exists i', b.
    + simpl in Hb. rewrite list_lookup_fmap in Hb.
      destruct (buckets s !! i) as [b0 |] eqn:Hb0; [| done].
      injection Hb as <-.
      destruct (moved_bucket_keeps b0 (wf_info s Hwf i b0 Hb0)) as (E1 & E2 & E3).
      destruct (Hto i b0 Hb0) as (i' & Hi').
      { unfold live. unfold has_epoch in Hl |- *. by rewrite <- E3. }
      exists i', b0. by rewrite E1, E2, E3.
Qed.

(** C5: when the probe of [put] or [add] claims an unreserved bucket and
    [used_count] had already reached the threshold, the operation leaves
    the claimed bucket without an item and goes to [migrate_and_retry]; the
    retry completes in the store the migration installs.  A table whose
    [used_count] equals the threshold is a case of it. *)
Theorem C5_insert_at_threshold_migrates_and_completes fuel m s k v j bj :
  wf m → current_store m = Some s → k ≠ 0%Z →
  (next_epoch (top m) < 2 ^ 62)%Z →
  slot_of s k = Some j → buckets s !! j = Some bj → hv bj = 0%Z →
  (threshold s ≤ used_count s)%Z →
  acquire_loop s k (S (last_slot s)) (hatrack_bucket_index k (last_slot s))
    = Some (migrate_and_retry (claimed s j k)) ∧
  ∃ mp ma,
    hihat_a_put (S (S fuel)) m k v = Some (mp, (NULL, false)) ∧
    hihat_a_add (S (S fuel)) m k v = Some (ma, true) ∧
    ∀ m', m' = mp ∨ m' = ma →
      store_current (top m') = length (stores m) ∧
      stores m' !! store_current (top m) =
        Some (retired (claimed s j k) (length (stores m))) ∧
      buckets (retired (claimed s j k) (length (stores m))) !! j =
        Some (mk_bucket k
                (mk_record NULL (Z.lor HIHAT_F_MOVING HIHAT_F_MOVED))) ∧
      wf m' ∧ hihat_a_get m' k = Some (v, true).
Proof.
  intros Hwfm Hcur Hk Hroom Hslot Hj Hbj Hthr.
  pose proof Hwfm as [(s0 & Hcur0 & Hwf & _) _].
  unfold current_store in Hcur. rewrite Hcur in Hcur0. injection Hcur0 as <-.
  fold (current_store m) in Hcur.
  assert (acquire_loop s k (S (last_slot s))
            (hatrack_bucket_index k (last_slot s))
          = Some (migrate_and_retry (claimed s j k))) as Hacq.
  { rewrite acquire_loop_probe; [| apply Hwf | apply index_lt, Hwf | apply Hwf].
    fold (slot_of s k). rewrite Hslot, Hj.
    unfold hatrack_bucket_unreserved. rewrite Hbj. simpl.
    destruct (Z.geb_spec (used_count s) (threshold s)); [done | lia]. }
  split; [done |].
  assert (table_content m k = None) as Hnone.
  { rewrite (table_content_eq m s k Hcur). by eapply content_unreserved. }
  destruct (put_migrates fuel m s _ k v Hwfm Hcur Hk Hroom Hacq)
    as (mp & res & Ep & Hp & Hp1 & Hp2).
  destruct (add_migrates fuel m s _ k v Hwfm Hcur Hk Hroom Hacq)
    as (ma & Ea & Ha & Ha1 & Ha2).
  pose proof (pp_res _ _ _ _ _ Hp) as Hres. rewrite Hnone in Hres.
  simpl in Hres. subst res.
  exists mp, ma. split; [done |]. split; [done |].
  assert (buckets (retired (claimed s j k) (length (stores m))) !! j =
            Some (mk_bucket k
                    (mk_record NULL (Z.lor HIHAT_F_MOVING HIHAT_F_MOVED)))) as Hb.
  { simpl. rewrite list_lookup_fmap.
    by rewrite list_lookup_insert_eq by (by eapply lookup_lt_Some). }
  intros m' [-> | ->].
  - split; [done |]. split; [done |]. split; [done |].
    split; [apply Hp |].
    rewrite (get_ok mp k (pp_wf _ _ _ _ _ Hp)).
    by rewrite (pp_new _ _ _ _ _ Hp), Hnone.
  - split; [done |]. split; [done |]. split; [done |].
    split; [apply Ha |].
    rewrite (get_ok ma k (ap_wf _ _ _ _ _ Ha)).
    destruct (ap_new _ _ _ _ _ Ha eq_refl) as (-> & _). done.
Qed.

(** The read loop of [get] ends at the bucket the probe ends at, in any
    store. *)
Lemma get_loop_at s k n bix j b :
  probe s k n bix = Some j → buckets s !! j = Some b → hv b ≠ 0%Z →
  hihat_a_store_get_loop s k n bix =
    Some (if has_epoch (record b) then (item (record b), true)
          else (NULL, false)).
Proof.
  revert bix. induction n as [| n IH]; intros bix; simpl; [done |].
  destruct (buckets s !! bix) as [b0 |] eqn:Hb0; [| done]. simpl.
  destruct (hatrack_bucket_unreserved (hv b0)) eqn:Hu.
  { intros [= <-] Hb Hnz. rewrite Hb0 in Hb. injection Hb as <-.
    unfold hatrack_bucket_unreserved in Hu. by apply Z.eqb_eq in Hu. }
  destruct (hatrack_hashes_eq k (hv b0)); simpl; [| apply IH].
  intros [= <-] Hb _. rewrite Hb0 in Hb. injection Hb as <-.
  by destruct (has_epoch (record b0)).
Qed.

(** The read loop of [get] does not see the flags the first pass of a
    migration sets. *)
Lemma freeze_bucket_keeps b :
  hv (migrate_freeze_bucket b) = hv b ∧
  item (record (migrate_freeze_bucket b)) = item (record b) ∧
  has_epoch (record (migrate_freeze_bucket b)) = has_epoch (record b).
Proof.
  unfold migrate_freeze_bucket. destruct (is_moving (record b)); [done |].
  rewrite LCAS_record_same. simpl. split; [done |]. split; [done |].
  unfold has_epoch. f_equal. f_equal.
  destruct (Z.eqb_spec (info (record b)) 0) as [E | E]; simpl.
  - unfold epoch_of. simpl. by rewrite E.
  - unfold epoch_of at 1. simpl. apply epoch_of_lor_moving.
Qed.

Lemma get_loop_frozen s k n bix :
  hihat_a_store_get_loop
    (set_buckets s (migrate_freeze_bucket <$> buckets s)) k n bix =
  hihat_a_store_get_loop s k n bix.
Proof.
  revert bix. induction n as [| n IH]; intros bix; simpl; [done |].
  rewrite list_lookup_fmap.
  destruct (buckets s !! bix) as [b |]; simpl; [| done].
  destruct (freeze_bucket_keeps b) as (-> & -> & ->).
  destruct (hatrack_bucket_unreserved (hv b)); [done |].
  destruct (hatrack_hashes_eq k (hv b)); simpl; [done |].
  apply IH.
Qed.

(** C10: [get] never goes to a migration.  It reads the store it was
    given and nothing else; when the bucket of the hash holds a record
    with non-zero epoch bits, [get] returns its item with [found = true]
    whatever flags the record carries, and freezing the store for a
    migration does not change what [get] returns. *)
Theorem C10_get_reads_through_migration_flags s k j b :
  slot_of s k = Some j → buckets s !! j = Some b → hv b ≠ 0%Z →
  has_epoch (record b) = true →
  hihat_a_store_get s k = Some (item (record b), true) ∧
  (∀ m, current_store m = Some s →
        hihat_a_get m k = Some (item (record b), true)) ∧
  hihat_a_store_get (set_buckets s (migrate_freeze_bucket <$> buckets s)) k
    = Some (item (record b), true).
Proof.
  intros Hslot Hb Hnz Hl.
  assert (hihat_a_store_get s k = Some (item (record b), true)) as Hget.
  { unfold hihat_a_store_get.
    rewrite (get_loop_at s k _ _ j b Hslot Hb Hnz). by rewrite Hl. }
  split; [done |]. split.
  - intros m Hcur. unfold hihat_a_get. unfold current_store in Hcur.
    by rewrite Hcur.
  - unfold hihat_a_store_get. cbn [last_slot set_buckets].
    rewrite get_loop_frozen. exact Hget.
Qed.

(** *** The view *)

Lemma view_loop_spec s n cur :
  (cur + n = length (buckets s))%nat →
  hihat_a_view_loop s n cur = Some (omap view_of_bucket (drop cur (buckets s))).
Proof.
  revert cur. induction n as [| n IH]; intros cur Hlen; simpl.
  - by rewrite drop_ge by lia.
  - destruct (lookup_lt_is_Some_2 (buckets s) cur) as [b Hb]; [lia |].
    rewrite Hb. simpl. rewrite IH by lia. simpl.
    rewrite (drop_S _ _ _ Hb). simpl. unfold view_of_bucket, has_epoch.
    by destruct (epoch_of (record b) =? 0)%Z.
Qed.

(** *** Runs of calls *)

Lemma view_returns m sort :
  wf m → is_Some (hihat_a_view m sort).
Proof.
  intros [(s & Hcur & Hwf & _) _]. unfold hihat_a_view.
  rewrite Hcur. cbn [mbind option_bind].
  rewrite view_loop_spec by (rewrite (sized_last_slot s); [done | apply Hwf]).
  cbn [mbind option_bind]. by destruct (Nat.eqb _ 0).
Qed.

(** A call on a well-formed table returns, leaves a well-formed table,
    takes one epoch at most and does not change what the table maps the
    other hashes to. *)
Lemma call_ok fuel m op :
  wf m → op_valid op → (next_epoch (top m) < 2 ^ 62)%Z →
  ∃ m' r,
    hihat_a_call (S (S fuel)) m op = Some (m', r) ∧ wf m' ∧
    (next_epoch (top m') ≤ next_epoch (top m) + 1)%Z ∧
    ∀ k, k ≠ 0%Z → op_key op ≠ Some k →
         table_content m' k = table_content m k.
Proof.
  intros Hwf Hv Hroom. destruct op; unfold op_valid in Hv; simpl in Hv |- *.
  - rewrite (get_ok m hv1 Hwf).
    destruct (lookup_result _) as [i f]. simpl.
    eexists _, _. split; [done |]. split; [done |]. split; [lia | done].
  - destruct (put_ok fuel m hv1 item0 Hwf Hv) as (m' & [o f] & E & Hp); [done |].
    rewrite E. simpl. eexists _, _. split; [done |]. split; [apply Hp |].
    split.
    + rewrite (pp_epoch _ _ _ _ _ Hp). destruct (table_content m hv1); lia.
    + intros k Hk Hne. apply (pp_frame _ _ _ _ _ Hp); [congruence | done].
  - destruct (replace_ok (S fuel) m hv1 item0 Hwf Hv) as (m' & [o f] & E & Hp).
    rewrite E. simpl. eexists _, _. split; [done |]. split; [apply Hp |].
    split.
    + rewrite (xp_top _ _ _ _ _ Hp). lia.
    + intros k Hk Hne. apply (xp_frame _ _ _ _ _ Hp); [congruence | done].
  - destruct (add_ok fuel m hv1 item0 Hwf Hv) as (m' & ok & E & Hp); [done |].
    rewrite E. simpl. eexists _, _. split; [done |]. split; [apply Hp |].
    split.
    + destruct ok.
      * destruct (ap_new _ _ _ _ _ Hp eq_refl) as (_ & -> & _). lia.
      * rewrite (ap_same _ _ _ _ _ Hp eq_refl). lia.
    + intros k Hk Hne. apply (ap_frame _ _ _ _ _ Hp); [congruence | done].
  - destruct (remove_ok (S fuel) m hv1 Hwf Hv) as (m' & [o f] & E & Hp).
    rewrite E. simpl. eexists _, _. split; [done |]. split; [apply Hp |].
    split.
    + rewrite (rp_epoch _ _ _ _ Hp). lia.
    + intros k Hk Hne. apply (rp_frame _ _ _ _ Hp); [congruence | done].
  - eexists _, _. split; [done |]. split; [done |]. split; [lia | done].
  - destruct (view_returns m sort Hwf) as [[n v] E]. rewrite E. simpl.
    eexists _, _. split; [done |]. split; [done |]. split; [lia | done].
Qed.

(** A run of calls on a well-formed table returns, and does not change
    what the table maps a hash to when no call of it is about that hash. *)
Lemma run_ok fuel m ops :
  wf m → Forall op_valid ops →
  (next_epoch (top m) + Z.of_nat (length ops) ≤ 2 ^ 62)%Z →
  ∃ m',
    hihat_a_run (S (S fuel)) m ops = Some m' ∧ wf m' ∧
    ∀ k, k ≠ 0%Z → Forall (λ op, op_key op ≠ Some k) ops →
         table_content m' k = table_content m k.
Proof.
  revert m. induction ops as [| op ops IH]; intros m Hwf Hv Hroom.
  { exists m. by split. }
  apply Forall_cons in Hv as [Hop Hv]. simpl in Hroom.
  destruct (call_ok fuel m op Hwf Hop) as (m1 & r & E & Hwf1 & Hne & Hfr); [lia |].
  destruct (IH m1 Hwf1 Hv) as (m' & E' & Hwf' & Hfr'); [lia |].
  exists m'. cbn [hihat_a_run]. rewrite E. cbn [mbind option_bind].
  split; [done |]. split; [done |].
  intros k Hk [Hk1 Hks]%Forall_cons.
  rewrite (Hfr' k Hk Hks). by apply Hfr.
Qed.

(** C1: in a sequential execution, [get k] after [put k v] returns [v]
    with [found = true], and [get k] after [remove k] returns the null
    item with [found = false], whatever calls about other hashes come in
    between ([ops]; none for a [get] right after).  The table is well
    formed, every hash is a hash (not the unreserved value), and the epoch
    counter has room for the calls. *)
Theorem C1_get_after_put_and_after_remove fuel m k v ops :
  wf m → k ≠ 0%Z →
  Forall op_valid ops → Forall (λ op, op_key op ≠ Some k) ops →
  (next_epoch (top m) + 1 + Z.of_nat (length ops) ≤ 2 ^ 62)%Z →
  (∃ m1 res m2,
     hihat_a_put (S (S fuel)) m k v = Some (m1, res) ∧
     hihat_a_run (S (S fuel)) m1 ops = Some m2 ∧
     hihat_a_get m2 k = Some (v, true)) ∧
  (∃ m1 res m2,
     hihat_a_remove (S fuel) m k = Some (m1, res) ∧
     hihat_a_run (S (S fuel)) m1 ops = Some m2 ∧
     hihat_a_get m2 k = Some (NULL, false)).
Proof.
  intros Hwf Hk Hv Hother Hroom. split.
  - destruct (put_ok fuel m k v Hwf Hk) as (m1 & res & E & Hp); [lia |].
    pose proof (pp_epoch _ _ _ _ _ Hp) as He.
    destruct (run_ok fuel m1 ops (pp_wf _ _ _ _ _ Hp) Hv)
      as (m2 & E2 & Hwf2 & Hfr).
    { destruct (table_content m k); lia. }
    exists m1, res, m2. split; [done |]. split; [done |].
    rewrite (get_ok m2 k Hwf2), (Hfr k Hk Hother).
    by rewrite (pp_new _ _ _ _ _ Hp).
  - destruct (remove_ok fuel m k Hwf Hk) as (m1 & res & E & Hp).
    pose proof (rp_epoch _ _ _ _ Hp) as He.
    destruct (run_ok fuel m1 ops (rp_wf _ _ _ _ Hp) Hv)
      as (m2 & E2 & Hwf2 & Hfr); [lia |].
    exists m1, res, m2. split; [done |]. split; [done |].
    rewrite (get_ok m2 k Hwf2), (Hfr k Hk Hother).
    by rewrite (rp_gone _ _ _ _ Hp).
Qed.


Lemma cmp_le_spec a b :
  cmp_le hatrack_quicksort_cmp a b ↔ (sort_epoch a ≤ sort_epoch b)%Z.
Proof.
  unfold cmp_le, hatrack_quicksort_cmp.
  destruct (Z.compare_spec (sort_epoch a) (sort_epoch b)); split; try done; lia.
Qed.

Lemma cmp_le_total : Total (cmp_le hatrack_quicksort_cmp).
Proof. intros a b. rewrite !cmp_le_spec. lia. Qed.

Lemma cmp_le_trans : Transitive (cmp_le hatrack_quicksort_cmp).
Proof. intros a b c. rewrite !cmp_le_spec. lia. Qed.

Lemma qsort_sorted l :
  StronglySorted (cmp_le hatrack_quicksort_cmp) (qsort hatrack_quicksort_cmp l).
Proof.
  unfold qsort. apply (@Sorted_StronglySorted _ _ cmp_le_trans).
  apply (@Sorted_merge_sort _ _ _ cmp_le_total).
Qed.

Lemma qsort_perm l : qsort hatrack_quicksort_cmp l ≡ₚ l.
Proof. apply merge_sort_Permutation. Qed.

(** A list sorted by epoch whose epochs are distinct is strictly sorted. *)
Lemma sorted_strict l :
  StronglySorted (cmp_le hatrack_quicksort_cmp) l →
  NoDup (sort_epoch <$> l) →
  StronglySorted epoch_before l.
Proof.
  induction l as [| a l IH]; [constructor |].
  rewrite !StronglySorted_cons, fmap_cons, NoDup_cons.
  intros [Hall Hs] [Hnin Hnd]. split; [| by apply IH].
  rewrite Forall_forall in Hall |- *. intros b Hb.
  specialize (Hall b Hb). pose proof (proj1 (cmp_le_spec a b) Hall) as Hle.
  unfold epoch_before.
  assert (sort_epoch a ≠ sort_epoch b); [| lia].
  intros E. apply Hnin. rewrite E. by apply list_elem_of_fmap_2.
Qed.

(** The entries of a store with distinct epochs have distinct epochs. *)
Lemma view_epochs_nodup bs :
  (∀ i b, bs !! i = Some b → (0 ≤ info (record b) < 2 ^ 62)%Z) →
  (∀ i1 i2 b1 b2, bs !! i1 = Some b1 → bs !! i2 = Some b2 →
     info (record b1) ≠ 0%Z → info (record b1) = info (record b2) → i1 = i2) →
  NoDup (sort_epoch <$> omap view_of_bucket bs).
Proof.
  induction bs as [| b bs IH]; intros Hp Hinj; [constructor |].
  assert (NoDup (sort_epoch <$> omap view_of_bucket bs)) as Hnd.
  { apply IH.
    - intros i b0 Hb0. apply (Hp (S i) b0 Hb0).
    - intros i1 i2 b1 b2 H1 H2 Hnz Heq.
      assert (S i1 = S i2) by (by eapply (Hinj (S i1) (S i2) b1 b2)). lia. }
  simpl. unfold view_of_bucket at 1.
  pose proof (Hp 0%nat b eq_refl) as Hpb.
  rewrite (plain_has_epoch _ Hpb), (plain_epoch_of _ Hpb).
  destruct (Z.eqb_spec (info (record b)) 0) as [E | E]; simpl; [done |].
  apply NoDup_cons. split; [| done].
  intros (w & Hw & (b2 & Hb2 & Hv)%list_elem_of_omap)%list_elem_of_fmap.
  apply list_elem_of_lookup in Hb2 as (i2 & Hi2).
  unfold view_of_bucket in Hv.
  pose proof (Hp (S i2) b2 Hi2) as Hp2.
  rewrite (plain_has_epoch _ Hp2), (plain_epoch_of _ Hp2) in Hv.
  destruct (info (record b2) =? 0)%Z; [done |]. injection Hv as <-.
  simpl in Hw.
  assert (0%nat = S i2); [| done].
  by eapply (Hinj 0%nat (S i2) b b2).
Qed.

(** C6: [view] with [sort = true] returns exactly the entries of the
    buckets of the current store whose record has non-zero epoch bits (the
    item and the epoch bits of each), in strictly ascending order of
    [sort_epoch]; the epochs of the result are pairwise distinct. *)
Theorem C6_sorted_view_is_strictly_ascending m s :
  wf m → current_store m = Some s →
  ∃ num view,
    hihat_a_view m true = Some (num, view) ∧
    num = length (view_entries view) ∧
    view_entries view ≡ₚ omap view_of_bucket (buckets s) ∧
    StronglySorted epoch_before (view_entries view) ∧
    NoDup (sort_epoch <$> view_entries view).
Proof.
  intros [(s0 & Hcur & Hwf & Hep) _] Hcur0.
  unfold current_store in Hcur0. rewrite Hcur0 in Hcur. injection Hcur as <-.
  unfold hihat_a_view. rewrite Hcur0. cbn [mbind option_bind].
  rewrite view_loop_spec by (rewrite (sized_last_slot s); [done | apply Hwf]).
  rewrite drop_0. cbn [mbind option_bind].
  set (l := omap view_of_bucket (buckets s)).
  assert (NoDup (sort_epoch <$> l)) as Hnd.
  { apply view_epochs_nodup; [apply Hwf | apply Hep]. }
  destruct (Nat.eqb_spec (length l) 0) as [E | E].
  - eexists _, _. split; [done |]. simpl.
    destruct l; [| done]. repeat split; try done; constructor.
  - eexists _, _. split; [done |]. simpl.
    pose proof (qsort_perm l) as Hperm.
    assert (NoDup (sort_epoch <$> qsort hatrack_quicksort_cmp l)) as Hnd'.
    { by rewrite Hperm. }
    split; [by rewrite Hperm |]. split; [done |].
    split; [| done]. apply sorted_strict; [apply qsort_sorted | done].
Qed.

(** C7, as the code has it: a [put], an [add] or a [remove] that ends in
    the store it started from changes one bucket of that store at most and
    no other store; a [put] or an [add] that migrates leaves the old store
    frozen behind and ends in the new one.  [put] adds one to [item_count]
    when it inserts under a hash that had no live item and leaves the
    count alone when it replaces; a successful [add] adds one; a [remove]
    that finds an item takes one off.  The readers leave the memory as it
    is. *)
Theorem C7_effects_of_the_operations fuel m k v :
  wf m → k ≠ 0%Z → (next_epoch (top m) < 2 ^ 62)%Z →
  (∃ m' old found,
     hihat_a_call (S (S fuel)) m (op_put k v) = Some (m', res_item old found) ∧
     (one_bucket m m' ∨ migrated m m') ∧
     item_count (top m') =
       if found then item_count (top m) else wrap64 (item_count (top m) + 1)) ∧
  (∃ m' ok,
     hihat_a_call (S (S fuel)) m (op_add k v) = Some (m', res_bool ok) ∧
     (one_bucket m m' ∨ migrated m m') ∧
     item_count (top m') =
       if ok then wrap64 (item_count (top m) + 1) else item_count (top m)) ∧
  (∃ m' old found,
     hihat_a_call (S fuel) m (op_remove k) = Some (m', res_item old found) ∧
     one_bucket m m' ∧
     item_count (top m') =
       if found then wrap64 (item_count (top m) - 1) else item_count (top m)) ∧
  (∀ n op m' r,
     is_reader op = true → hihat_a_call n m op = Some (m', r) → m' = m).
Proof.
  intros Hwf Hk Hroom. split; [| split; [| split]].
  - destruct (put_ok fuel m k v Hwf Hk) as (m' & [old found] & E & Hp); [done |].
    exists m', old, found. simpl. rewrite E. simpl. split; [done |].
    split; [apply Hp |].
    pose proof (pp_res _ _ _ _ _ Hp) as Hres.
    rewrite (pp_count _ _ _ _ _ Hp).
    destruct (table_content m k); simpl in Hres; by injection Hres as -> ->.
  - destruct (add_ok fuel m k v Hwf Hk) as (m' & ok & E & Hp); [done |].
    exists m', ok. simpl. rewrite E. simpl. split; [done |].
    split; [apply Hp |]. destruct ok.
    + by destruct (ap_new _ _ _ _ _ Hp eq_refl) as (_ & _ & ->).
    + by rewrite (ap_same _ _ _ _ _ Hp eq_refl).
  - destruct (remove_ok fuel m k Hwf Hk) as (m' & [old found] & E & Hp).
    exists m', old, found. simpl. rewrite E. simpl. split; [done |].
    split; [apply Hp |].
    pose proof (rp_res _ _ _ _ Hp) as Hres.
    rewrite (rp_count _ _ _ _ Hp).
    destruct (table_content m k); simpl in Hres; by injection Hres as -> ->.
  - intros n op m' r Hop E. destruct op; try done; simpl in E.
    + destruct (hihat_a_get m hv1) as [[? ?] |]; simpl in E; congruence.
    + congruence.
    + destruct (hihat_a_view m sort) as [[? ?] |]; simpl in E; congruence.
Qed.

(** *** MOVED implies MOVING *)

Lemma moved_bucket_moving b : is_moving (record (moved_bucket b)) = true.
Proof.
  unfold moved_bucket, is_moving. simpl.
  destruct (info (record b) =? 0)%Z; [done |].
  apply negb_true_iff, Z.eqb_neq. apply lor_keeps_flag. by apply lor_flag_nonzero.
Qed.

Lemma wf_current_plain m p s i b :
  wf m → p = store_current (top m) → stores m !! p = Some s →
  buckets s !! i = Some b → is_moved (record b) = false.
Proof.
  intros [(s0 & Hcur & Hwf & _) _] -> Hs Hb.
  rewrite Hs in Hcur. injection Hcur as <-.
  apply plain_not_moved. by apply (wf_info s Hwf i b).
Qed.

Lemma mim_one_bucket m m' :
  wf m' → moved_implies_moving m → one_bucket m m' → moved_implies_moving m'.
Proof.
  intros Hwf Hmim (Hsc & s0 & s' & j & b' & _ & _ & Hst) p s i b Hs Hb Hmv.
  destruct (decide (p = store_current (top m'))) as [Hp | Hp].
  - by rewrite (wf_current_plain m' p s i b Hwf Hp Hs Hb) in Hmv.
  - rewrite Hst, list_lookup_insert_ne in Hs by congruence.
    by apply (Hmim p s i b).
Qed.

Lemma mim_migrated m m' :
  wf m' → moved_implies_moving m → migrated m m' → moved_implies_moving m'.
Proof.
  intros Hwf Hmim (Hsc & s1 & s' & Hold & _ & _ & Hlen & Hframe) p s i b Hs Hb Hmv.
  destruct (decide (p = store_current (top m'))) as [Hp | Hp].
  { by rewrite (wf_current_plain m' p s i b Hwf Hp Hs Hb) in Hmv. }
  destruct (decide (p = store_current (top m))) as [-> | Hp'].
  { rewrite Hold in Hs. injection Hs as <-. simpl in Hb.
    rewrite list_lookup_fmap in Hb.
    destruct (buckets s1 !! i) as [b0 |]; [| done]. injection Hb as <-.
    apply moved_bucket_moving. }
  pose proof (lookup_lt_Some _ _ _ Hs) as Hlt.
  rewrite Hframe in Hs by lia. by apply (Hmim p s i b).
Qed.

Lemma mim_init : moved_implies_moving hihat_a_init.
Proof.
  intros p s i b Hs Hb.
  rewrite (wf_current_plain hihat_a_init p s i b wf_init); try done.
  destruct p; [done |]. by destruct p.
Qed.

(** The migration of the current store of a well-formed table, called on
    its own. *)
Lemma migrate_keeps_invariants m p m' :
  wf m → moved_implies_moving m →
  hihat_a_store_migrate (store_current (top m)) m = Some (p, m') →
  wf m' ∧ moved_implies_moving m'.
Proof.
  intros Hwf Hmim E.
  pose proof Hwf as [(s & Hcur & Hwfs & Hep) Hne].
  destruct (migrate_memory m s Hcur Hwfs Hep Hne)
    as (m2 & ns & E2 & Hwf2 & Hcur2 & _ & _ & Htop2 & Hst2).
  rewrite E in E2. injection E2 as -> ->. split; [done |].
  pose proof (lookup_lt_Some _ _ _ Hcur) as Hlt.
  apply (mim_migrated m m2 Hwf2 Hmim).
  split; [by rewrite Htop2 |]. exists s, ns.
  split; [| split; [done |]; split; [| split]].
  - rewrite Hst2, lookup_app_l by (rewrite length_insert; lia).
    by apply list_lookup_insert_eq.
  - pose proof Hwf2 as [(s2 & Hs2 & Hwfs2 & _) _].
    unfold current_store in Hcur2. rewrite Hcur2 in Hs2. injection Hs2 as <-.
    apply Hwfs2.
  - rewrite Hst2, length_app, length_insert. simpl. lia.
  - intros q Hq Hql. rewrite Hst2, lookup_app_l by (rewrite length_insert; lia).
    by rewrite list_lookup_insert_ne.
Qed.

Lemma call_keeps_invariants fuel m op m' r :
  wf m → moved_implies_moving m → op_fits m op →
  hihat_a_call (S (S fuel)) m op = Some (m', r) →
  wf m' ∧ moved_implies_moving m'.
Proof.
  intros Hwf Hmim Hfit. destruct op; simpl in Hfit |- *.
  - destruct (hihat_a_get m hv1) as [[? ?] |]; simpl; [| done].
    by intros [= <- _].
  - destruct Hfit as (Hk & Hroom).
    destruct (put_ok fuel m hv1 item0 Hwf Hk) as (m1 & [o f] & E & Hp); [done |].
    rewrite E. simpl. intros [= <- _].
    pose proof (pp_wf _ _ _ _ _ Hp) as Hwf1. split; [done |].
    destruct (pp_where _ _ _ _ _ Hp);
      [by eapply mim_one_bucket | by eapply mim_migrated].
  - destruct (replace_ok (S fuel) m hv1 item0 Hwf Hfit) as (m1 & [o f] & E & Hp).
    rewrite E. simpl. intros [= <- _].
    pose proof (xp_wf _ _ _ _ _ Hp) as Hwf1. split; [done |].
    eapply mim_one_bucket; [done.. | apply Hp].
  - destruct Hfit as (Hk & Hroom).
    destruct (add_ok fuel m hv1 item0 Hwf Hk) as (m1 & ok & E & Hp); [done |].
    rewrite E. simpl. intros [= <- _].
    pose proof (ap_wf _ _ _ _ _ Hp) as Hwf1. split; [done |].
    destruct (ap_where _ _ _ _ _ Hp);
      [by eapply mim_one_bucket | by eapply mim_migrated].
  - destruct (remove_ok (S fuel) m hv1 Hwf Hfit) as (m1 & [o f] & E & Hp).
    rewrite E. simpl. intros [= <- _].
    pose proof (rp_wf _ _ _ _ Hp) as Hwf1. split; [done |].
    eapply mim_one_bucket; [done.. | apply Hp].
  - by intros [= <- _].
  - destruct (hihat_a_view m sort) as [[? ?] |]; simpl; [| done].
    by intros [= <- _].
Qed.

(** C9: no operation clears a MOVING flag, in any store of any memory: not
    a call of the interface ([put], [add], [replace], [remove], or a
    reader) and not a migration.  And every record with MOVED set has
    MOVING set: this holds of the table [init] makes and is kept, together
    with well-formedness, by every call and by every migration of the
    current store. *)
Theorem C9_moving_is_kept_and_moved_implies_moving :
  (∀ fuel m op m' r, hihat_a_call fuel m op = Some (m', r) → flags_le m m') ∧
  (∀ self m p m', hihat_a_store_migrate self m = Some (p, m') → flags_le m m') ∧
  (wf hihat_a_init ∧ moved_implies_moving hihat_a_init) ∧
  (∀ fuel m op m' r,
     wf m → moved_implies_moving m → op_fits m op →
     hihat_a_call (S (S fuel)) m op = Some (m', r) →
     wf m' ∧ moved_implies_moving m') ∧
  (∀ m p m',
     wf m → moved_implies_moving m →
     hihat_a_store_migrate (store_current (top m)) m = Some (p, m') →
     wf m' ∧ moved_implies_moving m').
Proof.
  split; [apply call_flags |]. split; [apply migrate_flags |].
  split; [split; [apply wf_init | apply mim_init] |].
  split; [apply call_keeps_invariants | apply migrate_keeps_invariants].
Qed.

End claims.

(** ** The example tables are well formed *)

Lemma wf_example_empty : @wf example_common example_empty.
Proof. apply (@wf_init example_common example_common_ok). Qed.

Lemma wf_example_full : @wf example_common example_full.
Proof.
  destruct (@put_all_ok example_common example_common_ok example_empty
              [(1, 10); (5, 50); (9, 90)]%Z wf_example_empty)
    as (m' & E & Hwf & _).
  - repeat constructor; simpl; lia.
  - simpl. lia.
  - vm_compute in E. injection E as <-. exact Hwf.
Qed.

Lemma wf_example_grown : @wf example_common example_grown.
Proof.
  destruct (@put_all_ok example_common example_common_ok example_empty
              [(1, 10); (5, 50); (9, 90); (13, 130)]%Z wf_example_empty)
    as (m' & E & Hwf & _).
  - repeat constructor; simpl; lia.
  - simpl. lia.
  - vm_compute in E. injection E as <-. exact Hwf.
Qed.

(** ** Witnesses *)

Lemma C1_witness :
  (∃ m1 res m2,
     @hihat_a_put example_common 2 example_full 13 130 = Some (m1, res) ∧
     @hihat_a_run example_common 2 m1
       [op_put 5 55; op_remove 1; op_add 17 170; op_view true; op_get 9]
       = Some m2 ∧
     @hihat_a_get example_common m2 13 = Some (130%Z, true)) ∧
  (∃ m1 res m2,
     @hihat_a_remove example_common 1 example_full 13 = Some (m1, res) ∧
     @hihat_a_run example_common 2 m1
       [op_put 5 55; op_remove 1; op_add 17 170; op_view true; op_get 9]
       = Some m2 ∧
     @hihat_a_get example_common m2 13 = Some (NULL, false)).
Proof.
  apply (@C1_get_after_put_and_after_remove example_common example_common_ok
           0 example_full 13 130
           [op_put 5 55; op_remove 1; op_add 17 170; op_view true; op_get 9]
           wf_example_full).
  - lia.
  - repeat constructor; unfold op_valid; simpl; lia.
  - repeat constructor; simpl; congruence.
  - vm_compute. discriminate.
Defined.

Lemma C3_witness :
  ∃ m' old found,
    @hihat_a_put example_common 2 example_full 5 55 = Some (m', (old, found)) ∧
    @hihat_a_get example_common example_full 5 = Some (old, found) ∧
    (found = true ↔ ∃ r, @table_content example_common example_full 5 = Some r) ∧
    (found = false → old = NULL) ∧
    (∀ r, @table_content example_common example_full 5 = Some r →
       old = item r ∧
       ∃ r', @table_content example_common m' 5 = Some r' ∧ item r' = 55%Z ∧
             epoch_of r' = epoch_of r).
Proof.
  apply (@C3_put_returns_prior_and_keeps_epoch example_common example_common_ok
           0 example_full 5 55 wf_example_full).
  - lia.
  - vm_compute. discriminate.
Defined.

Lemma C4_witness :
  (@table_content example_common example_full 13 = None →
     ∃ mp res ma,
       @hihat_a_put example_common 2 example_full 13 130 = Some (mp, res) ∧
       @hihat_a_add example_common 2 example_full 13 130 = Some (ma, true) ∧
       ∀ m', m' = mp ∨ m' = ma →
         @table_content example_common m' 13 =
           Some (mk_record 130 (next_epoch (top example_full))) ∧
         next_epoch (top m') = wrap64 (next_epoch (top example_full) + 1) ∧
         next_epoch (top m') = (next_epoch (top example_full) + 1)%Z ∧
         ∀ k' r', k' ≠ 13%Z → k' ≠ 0%Z →
                  @table_content example_common m' k' = Some r' →
                  info r' ≠ next_epoch (top example_full)) ∧
  (∀ r, @table_content example_common example_full 13 = Some r →
     ∃ m' res,
       @hihat_a_put example_common 2 example_full 13 130 = Some (m', res) ∧
       next_epoch (top m') = next_epoch (top example_full)).
Proof.
  apply (@C4_fresh_insert_consumes_one_epoch example_common example_common_ok
           0 example_full 13 130 wf_example_full).
  - lia.
  - vm_compute. reflexivity.
Defined.

Lemma C8_witness :
  ∃ m' res,
    @hihat_a_add example_common 2 example_full 13 130 = Some (m', res) ∧
    (res = false ↔
       ∃ item0, @hihat_a_get example_common example_full 13 = Some (item0, true)) ∧
    (res = false → m' = example_full) ∧
    (res = true →
       @hihat_a_get example_common m' 13 = Some (130%Z, true) ∧
       ∀ v', @hihat_a_add example_common 2 m' 13 v' = Some (m', false) ∧
             @hihat_a_get example_common m' 13 = Some (130%Z, true)).
Proof.
  apply (@C8_add_fails_exactly_on_live_key example_common example_common_ok
           0 example_full 13 130 wf_example_full).
  - lia.
  - intros _. vm_compute. reflexivity.
Defined.

Lemma C2_witness :
  ∃ p' m' s',
    @hihat_a_store_migrate example_common (store_current (top example_full))
      example_full = Some (p', m') ∧
    p' ≠ store_current (top example_full) ∧
    store_current (top m') = p' ∧ stores m' !! p' = Some s' ∧
    stores m' !! store_current (top example_full) =
      Some (retired example_full_store p') ∧
    ∀ old, old = example_full_store ∨ old = retired example_full_store p' →
      ∀ i b, buckets old !! i = Some b → has_epoch (record b) = true →
        ∃ i' b', buckets s' !! i' = Some b' ∧ hv b' = hv b ∧
                 item (record b') = item (record b) ∧
                 epoch_of (record b') = epoch_of (record b).
Proof.
  apply (@C2_migration_carries_live_buckets example_common example_common_ok
           example_full example_full_store wf_example_full).
  reflexivity.
Defined.

Lemma C5_witness :
  acquire_loop example_full_store 13
    (S (last_slot example_full_store))
    (@hatrack_bucket_index example_common 13 (last_slot example_full_store))
    = Some (migrate_and_retry (claimed example_full_store 0 13)) ∧
  ∃ mp ma,
    @hihat_a_put example_common 2 example_full 13 130 = Some (mp, (NULL, false)) ∧
    @hihat_a_add example_common 2 example_full 13 130 = Some (ma, true) ∧
    ∀ m', m' = mp ∨ m' = ma →
      store_current (top m') = length (stores example_full) ∧
      stores m' !! store_current (top example_full) =
        Some (retired (claimed example_full_store 0 13)
                (length (stores example_full))) ∧
      buckets (retired (claimed example_full_store 0 13)
                 (length (stores example_full))) !! 0%nat =
        Some (mk_bucket 13
                (mk_record NULL (Z.lor HIHAT_F_MOVING HIHAT_F_MOVED))) ∧
      @wf example_common m' ∧
      @hihat_a_get example_common m' 13 = Some (130%Z, true).
Proof.
  apply (@C5_insert_at_threshold_migrates_and_completes
           example_common example_common_ok 0 example_full example_full_store
           13 130 0%nat zero_bucket wf_example_full).
  - reflexivity.
  - lia.
  - vm_compute. reflexivity.
  - vm_compute. reflexivity.
  - reflexivity.
  - reflexivity.
  - vm_compute. discriminate.
Defined.

Lemma C10_witness :
  @hihat_a_store_get example_common example_frozen_store 5 = Some (50%Z, true) ∧
  (∀ m, current_store m = Some example_frozen_store →
        @hihat_a_get example_common m 5 = Some (50%Z, true)) ∧
  @hihat_a_store_get example_common
    (set_buckets example_frozen_store
       (migrate_freeze_bucket <$> buckets example_frozen_store)) 5
    = Some (50%Z, true).
Proof.
  apply (@C10_get_reads_through_migration_flags example_common
           example_frozen_store 5 2%nat
           (mk_bucket 5 (mk_record 50
              (Z.lor (Z.lor 2 HIHAT_F_MOVING) HIHAT_F_MOVED)))).
  - vm_compute. reflexivity.
  - vm_compute. reflexivity.
  - simpl. lia.
  - vm_compute. reflexivity.
Defined.

Lemma C6_witness :
  ∃ num view,
    hihat_a_view example_grown true = Some (num, view) ∧
    num = length (view_entries view) ∧
    view_entries view ≡ₚ
      omap view_of_bucket
        (buckets (default example_full_store (stores example_grown !! 1%nat))) ∧
    StronglySorted epoch_before (view_entries view) ∧
    NoDup (sort_epoch <$> view_entries view).
Proof.
  apply (@C6_sorted_view_is_strictly_ascending example_common
           example_grown _ wf_example_grown).
  reflexivity.
Defined.

Lemma C7_witness :
  (∃ m' old found,
     @hihat_a_call example_common 2 example_full (op_put 5 55)
       = Some (m', res_item old found) ∧
     (one_bucket example_full m' ∨ migrated example_full m') ∧
     item_count (top m') =
       if found then item_count (top example_full)
       else wrap64 (item_count (top example_full) + 1)) ∧
  (∃ m' ok,
     @hihat_a_call example_common 2 example_full (op_add 5 55)
       = Some (m', res_bool ok) ∧
     (one_bucket example_full m' ∨ migrated example_full m') ∧
     item_count (top m') =
       if ok then wrap64 (item_count (top example_full) + 1)
       else item_count (top example_full)) ∧
  (∃ m' old found,
     @hihat_a_call example_common 1 example_full (op_remove 5)
       = Some (m', res_item old found) ∧
     one_bucket example_full m' ∧
     item_count (top m') =
       if found then wrap64 (item_count (top example_full) - 1)
       else item_count (top example_full)) ∧
  (∀ n op m' r,
     is_reader op = true →
     @hihat_a_call example_common n example_full op = Some (m', r) →
     m' = example_full).
Proof.
  apply (@C7_effects_of_the_operations example_common example_common_ok
           0 example_full 5 55 wf_example_full).
  - lia.
  - vm_compute. reflexivity.
Defined.

Lemma mim_example_full : moved_implies_moving example_full.
Proof.
  intros p s i b Hs Hb.
  destruct p as [| p]; [| by destruct p]. injection Hs as <-.
  do 4 (destruct i as [| i]; [by injection Hb as <- |]). done.
Qed.

Lemma C9_witness :
  flags_le example_full example_grown ∧
  (∃ p m', @hihat_a_store_migrate example_common 0 example_full = Some (p, m') ∧
           flags_le example_full m') ∧
  (@wf example_common (@hihat_a_init example_common) ∧
   moved_implies_moving (@hihat_a_init example_common)) ∧
  (@wf example_common example_grown ∧ moved_implies_moving example_grown) ∧
  (∃ p m', @hihat_a_store_migrate example_common 0 example_full = Some (p, m') ∧
           @wf example_common m' ∧ moved_implies_moving m').
Proof.
  destruct (@C9_moving_is_kept_and_moved_implies_moving
              example_common example_common_ok) as (H1 & H2 & H3 & H4 & H5).
  assert (@hihat_a_call example_common 2 example_full (op_put 13 130)
          = Some (example_grown, res_item NULL false)) as Ecall
    by (vm_compute; reflexivity).
  destruct (@hihat_a_store_migrate example_common 0 example_full)
    as [[p m'] |] eqn:Emig; [| vm_compute in Emig; discriminate].
  split; [exact (H1 _ _ _ _ _ Ecall) |].
  split; [exists p, m'; split; [done | exact (H2 _ _ _ _ Emig)] |].
  split; [exact H3 |].
  split.
  - apply (H4 0%nat example_full (op_put 13 130) example_grown
             (res_item NULL false) wf_example_full mim_example_full);
      [| exact Ecall].
    split; [lia | vm_compute; reflexivity].
  - exists p, m'. split; [done |].
    exact (H5 example_full p m' wf_example_full mim_example_full Emig).
Defined.

(** ** Counterexamples *)

(** The claim of C7 as it was written: every successful [put] changes
    [item_count], and every successful [put] changes one bucket of the
    current store at most.  The [put] of 55 under the live hash 5 succeeds
    and leaves [item_count] at 3; the [put] under the new hash 13, which
    migrates, changes all four buckets of the store that was current. *)
Lemma C7_counterexample :
  (∃ m' old,
     @hihat_a_call example_common 2 example_full (op_put 5 55)
       = Some (m', res_item old true) ∧
     item_count (top m') = item_count (top example_full)) ∧
  (∃ m' old found s',
     @hihat_a_call example_common 2 example_full (op_put 13 130)
       = Some (m', res_item old found) ∧
     stores m' !! store_current (top example_full) = Some s' ∧
     Forall2 (λ b b', b ≠ b') (buckets example_full_store) (buckets s')).
Proof.
  split.
  - eexists _, _. split; [vm_compute; reflexivity |]. reflexivity.
  - eexists _, _, _, _. split; [vm_compute; reflexivity |].
    split; [reflexivity |].
    repeat constructor; discriminate.
Qed.

(** * Further properties of the table *)

Section properties.
Context `{HC : hatrack_common} `{!hatrack_common_ok}.
Implicit Types (s : hihat_store_t) (k : hatrack_hash_t) (m : memory).

(** X1: [replace k v] overwrites the item live under [k] and nothing else: it
    returns what [get k] returned before it; when no item is live under
    [k] the memory is left as it was (nothing is inserted); when one is,
    [get k] returns [v] afterwards and the record keeps its epoch.  The
    counters of the table and what the other hashes map to are not
    changed. *)
Theorem replace_overwrites_only_live_items fuel m k v :
  wf m → k ≠ 0%Z →
  ∃ m' old found,
    hihat_a_replace (S fuel) m k v = Some (m', (old, found)) ∧
    hihat_a_get m k = Some (old, found) ∧
    top m' = top m ∧
    (found = false → old = NULL ∧ m' = m) ∧
    (found = true →
       hihat_a_get m' k = Some (v, true) ∧
       ∃ r r', table_content m k = Some r ∧ table_content m' k = Some r' ∧
               epoch_of r' = epoch_of r) ∧
    ∀ k', k' ≠ k → k' ≠ 0%Z → hihat_a_get m' k' = hihat_a_get m k'.
Proof.
  intros Hwf Hk.
  destruct (replace_ok fuel m k v Hwf Hk) as (m' & [old found] & E & Hp).
  exists m', old, found. split; [done |].
  pose proof (xp_res _ _ _ _ _ Hp) as Hres.
  pose proof (xp_new _ _ _ _ _ Hp) as Hnew.
  rewrite (get_ok m k Hwf), <- Hres. split; [done |].
  split; [apply Hp |]. split; [| split].
  - intros ->. destruct (table_content m k) eqn:Ec; [done |].
    injection Hres as ->. split; [done |]. by apply (xp_same _ _ _ _ _ Hp).
  - intros ->. destruct (table_content m k) as [r |] eqn:Ec; [| done].
    rewrite (get_ok m' k (xp_wf _ _ _ _ _ Hp)), Hnew. split; [done |].
    by exists r, (mk_record v (info r)).
  - intros k' Hne Hk'.
    rewrite (get_ok m' k' (xp_wf _ _ _ _ _ Hp)), (get_ok m k' Hwf).
    by rewrite (xp_frame _ _ _ _ _ Hp k' Hne Hk').
Qed.

(** X2: [remove k] returns what [get k] returned before it; when no item is
    live under [k] the memory is left as it was; the epoch counter is not
    changed; a second [remove k] finds nothing and changes nothing; and
    what the other hashes map to is not changed. *)
Theorem remove_returns_the_item_once fuel m k :
  wf m → k ≠ 0%Z →
  ∃ m' old found,
    hihat_a_remove (S fuel) m k = Some (m', (old, found)) ∧
    hihat_a_get m k = Some (old, found) ∧
    (found = false → old = NULL ∧ m' = m) ∧
    next_epoch (top m') = next_epoch (top m) ∧
    hihat_a_remove (S fuel) m' k = Some (m', (NULL, false)) ∧
    ∀ k', k' ≠ k → k' ≠ 0%Z → hihat_a_get m' k' = hihat_a_get m k'.
Proof.
  intros Hwf Hk.
  destruct (remove_ok fuel m k Hwf Hk) as (m' & [old found] & E & Hp).
  exists m', old, found. split; [done |].
  pose proof (rp_res _ _ _ _ Hp) as Hres.
  pose proof (rp_wf _ _ _ _ Hp) as Hwf'.
  rewrite (get_ok m k Hwf), <- Hres. split; [done |]. split; [| split; [| split]].
  - intros ->. destruct (table_content m k) eqn:Ec; [done |].
    injection Hres as ->. split; [done |]. by apply (rp_same _ _ _ _ Hp).
  - apply Hp.
  - destruct (remove_ok fuel m' k Hwf' Hk) as (m2 & res2 & E2 & Hp2).
    rewrite E2. pose proof (rp_res _ _ _ _ Hp2) as Hres2.
    rewrite (rp_gone _ _ _ _ Hp) in Hres2. simpl in Hres2. subst res2.
    by rewrite (rp_same _ _ _ _ Hp2 (rp_gone _ _ _ _ Hp)).
  - intros k' Hne Hk'. rewrite (get_ok m' k' Hwf'), (get_ok m k' Hwf).
    by rewrite (rp_frame _ _ _ _ Hp k' Hne Hk').
Qed.

(** *** The table as a finite map *)

Lemma map_set_eq (f : map_t) k o : map_set f k o k = o.
Proof. unfold map_set. by rewrite Z.eqb_refl. Qed.

Lemma map_set_ne (f : map_t) k o k' : k' ≠ k → map_set f k o k' = f k'.
Proof. unfold map_set. by intros ->%Z.eqb_neq. Qed.

Lemma items_init k : items hihat_a_init k = None.
Proof.
  pose proof (get_ok hihat_a_init k wf_init) as Hget.
  unfold items. destruct (table_content hihat_a_init k) as [r |] eqn:Ec; [| done].
  exfalso. revert Ec. unfold table_content, current_store, hihat_a_init. simpl.
  unfold content. destruct (slot_of _ k) as [j |]; [| done]. simpl.
  destruct (replicate _ _ !! j) as [b |] eqn:Hb; [| done].
  apply lookup_replicate in Hb as [-> _]. done.
Qed.

(** One call on the table and on the map. *)
Lemma call_simulates fuel m op :
  wf m → op_valid op → (next_epoch (top m) < 2 ^ 62)%Z →
  ∃ m' r,
    hihat_a_call (S (S fuel)) m op = Some (m', r) ∧ wf m' ∧
    (next_epoch (top m') ≤ next_epoch (top m) + 1)%Z ∧
    result_agrees r (map_result (items m) op) ∧
    ∀ k, k ≠ 0%Z → items m' k = map_step (items m) op k.
Proof.
  intros Hwf Hv Hroom.
  destruct op as [k | k v | k v | k v | k | | sort];
    unfold op_valid in Hv; simpl in Hv;
    cbn [hihat_a_call map_result map_step].
  - rewrite (get_ok m k Hwf). unfold result_agrees, map_item, items.
    destruct (table_content m k) as [r |]; simpl;
      (eexists _, _; split; [done |]; split; [done |]; split; [lia |]);
      (split; [by intros ? [= <-] | done]).
  - destruct (put_ok fuel m k v Hwf Hv) as (m' & [o f] & E & Hp); [done |].
    rewrite E. simpl. eexists _, _. split; [done |]. split; [apply Hp |].
    split; [| split].
    + rewrite (pp_epoch _ _ _ _ _ Hp). destruct (table_content m k); lia.
    + intros r0 [= <-]. pose proof (pp_res _ _ _ _ _ Hp) as Hres.
      unfold map_item, items.
      destruct (table_content m k); simpl in *; by injection Hres as -> ->.
    + intros k' Hk'. destruct (Z.eq_dec k' k) as [-> | Hne].
      * rewrite map_set_eq. unfold items. by rewrite (pp_new _ _ _ _ _ Hp).
      * rewrite map_set_ne by done. unfold items.
        by rewrite (pp_frame _ _ _ _ _ Hp k' Hne Hk').
  - destruct (replace_ok (S fuel) m k v Hwf Hv) as (m' & [o f] & E & Hp).
    rewrite E. simpl. eexists _, _. split; [done |]. split; [apply Hp |].
    split; [| split].
    + rewrite (xp_top _ _ _ _ _ Hp). lia.
    + intros r0 [= <-]. pose proof (xp_res _ _ _ _ _ Hp) as Hres.
      unfold map_item, items.
      destruct (table_content m k); simpl in *; by injection Hres as -> ->.
    + intros k' Hk'. destruct (Z.eq_dec k' k) as [-> | Hne].
      * rewrite map_set_eq. unfold items. rewrite (xp_new _ _ _ _ _ Hp).
        by destruct (table_content m k).
      * rewrite map_set_ne by done. unfold items.
        by rewrite (xp_frame _ _ _ _ _ Hp k' Hne Hk').
  - destruct (add_ok fuel m k v Hwf Hv) as (m' & ok & E & Hp); [done |].
    rewrite E. simpl. eexists _, _. split; [done |]. split; [apply Hp |].
    pose proof (ap_res _ _ _ _ _ Hp) as Hres.
    split; [| split].
    + destruct ok.
      * destruct (ap_new _ _ _ _ _ Hp eq_refl) as (_ & -> & _). lia.
      * rewrite (ap_same _ _ _ _ _ Hp eq_refl). lia.
    + intros r0 [= <-]. unfold items.
      destruct (table_content m k); simpl in *; by subst ok.
    + intros k' Hk'. destruct (Z.eq_dec k' k) as [-> | Hne].
      * rewrite map_set_eq. unfold items.
        destruct (table_content m k) as [r |] eqn:Ec; simpl in Hres; subst ok.
        -- rewrite (ap_same _ _ _ _ _ Hp eq_refl). by rewrite Ec.
        -- by destruct (ap_new _ _ _ _ _ Hp eq_refl) as (-> & _).
      * rewrite map_set_ne by done. unfold items.
        by rewrite (ap_frame _ _ _ _ _ Hp k' Hne Hk').
  - destruct (remove_ok (S fuel) m k Hwf Hv) as (m' & [o f] & E & Hp).
    rewrite E. simpl. eexists _, _. split; [done |]. split; [apply Hp |].
    split; [| split].
    + rewrite (rp_epoch _ _ _ _ Hp). lia.
    + intros r0 [= <-]. pose proof (rp_res _ _ _ _ Hp) as Hres.
      unfold map_item, items.
      destruct (table_content m k); simpl in *; by injection Hres as -> ->.
    + intros k' Hk'. destruct (Z.eq_dec k' k) as [-> | Hne].
      * rewrite map_set_eq. unfold items. by rewrite (rp_gone _ _ _ _ Hp).
      * rewrite map_set_ne by done. unfold items.
        by rewrite (rp_frame _ _ _ _ Hp k' Hne Hk').
  - eexists _, _. split; [done |]. split; [done |]. split; [lia |].
    split; [by intros ? [=] | done].
  - destruct (view_returns m sort Hwf) as [[n v] E]. rewrite E. simpl.
    eexists _, _. split; [done |]. split; [done |]. split; [lia |].
    split; [by intros ? [=] | done].
Qed.

Lemma map_result_ext (f g : map_t) op :
  op_valid op → (∀ k, k ≠ 0%Z → f k = g k) → map_result f op = map_result g op.
Proof.
  intros Hv Hfg. destruct op; unfold op_valid in Hv; simpl in *;
    unfold map_item; by rewrite ?Hfg.
Qed.

Lemma map_step_ext (f g : map_t) op :
  op_valid op → (∀ k, k ≠ 0%Z → f k = g k) →
  ∀ k, k ≠ 0%Z → map_step f op k = map_step g op k.
Proof.
  intros Hv Hfg k Hk. destruct op as [? | k0 ? | k0 ? | k0 ? | k0 | |];
    unfold op_valid in Hv; simpl in *; try by apply Hfg.
  all: unfold map_set; destruct (k =? k0)%Z; [| by apply Hfg];
    by rewrite ?Hfg.
Qed.

Lemma map_trace_ext (f g : map_t) ops :
  Forall op_valid ops → (∀ k, k ≠ 0%Z → f k = g k) →
  (map_trace f ops).1 = (map_trace g ops).1 ∧
  ∀ k, k ≠ 0%Z → (map_trace f ops).2 k = (map_trace g ops).2 k.
Proof.
  revert f g. induction ops as [| op ops IH]; intros f g Hv Hfg; [done |].
  apply Forall_cons in Hv as [Hop Hv]. simpl.
  destruct (IH (map_step f op) (map_step g op) Hv (map_step_ext f g op Hop Hfg))
    as [H1 H2].
  destruct (map_trace (map_step f op) ops) as [rs1 f1].
  destruct (map_trace (map_step g op) ops) as [rs2 f2]. simpl in *.
  split; [| done]. by rewrite (map_result_ext f g op Hop Hfg), H1.
Qed.

(** A run of calls on a well-formed table returns what the same calls
    return on the map of the table, and leaves the table of the map they
    leave. *)
Lemma trace_simulates fuel m ops :
  wf m → Forall op_valid ops →
  (next_epoch (top m) + Z.of_nat (length ops) ≤ 2 ^ 62)%Z →
  ∃ rs m',
    hihat_a_trace (S (S fuel)) m ops = Some (rs, m') ∧ wf m' ∧
    Forall2 result_agrees rs (map_trace (items m) ops).1 ∧
    ∀ k, k ≠ 0%Z → items m' k = (map_trace (items m) ops).2 k.
Proof.
  revert m. induction ops as [| op ops IH]; intros m Hwf Hv Hroom.
  { exists [], m. simpl. split; [done |]. split; [done |]. by split. }
  apply Forall_cons in Hv as [Hop Hv]. simpl in Hroom.
  destruct (call_simulates fuel m op Hwf Hop) as (m1 & r & E & Hwf1 & Hne & Hr & Hst);
    [lia |].
  destruct (IH m1 Hwf1 Hv) as (rs & m' & E' & Hwf' & Hrs & Hfin); [lia |].
  exists (r :: rs), m'. cbn [hihat_a_trace]. rewrite E. cbn [mbind option_bind].
  rewrite E'. cbn [mbind option_bind]. split; [done |]. split; [done |].
  destruct (map_trace_ext (items m1) (map_step (items m) op) ops Hv Hst)
    as [H1 H2].
  cbn [map_trace].
  destruct (map_trace (map_step (items m) op) ops) as [rs2 f2]. simpl in *.
  split.
  - constructor; [done |]. by rewrite <- H1.
  - intros k Hk. by rewrite Hfin, H2.
Qed.

(** X3: The table is a finite map.  Any run of calls on the table [init]
    makes returns ([get], [put], [replace], [add] and [remove] never fail
    and need one migration at most each); each call returns what the same
    call returns on a finite map that starts empty, and after the run [get]
    finds under every hash what the map holds.  The hashes are not the
    unreserved value and the epoch counter has room for the calls. *)
Theorem table_refines_finite_map fuel ops :
  Forall op_valid ops → (1 + Z.of_nat (length ops) ≤ 2 ^ 62)%Z →
  ∃ rs m,
    hihat_a_trace (S (S fuel)) hihat_a_init ops = Some (rs, m) ∧
    Forall2 result_agrees rs (map_trace map_empty ops).1 ∧
    ∀ k, k ≠ 0%Z →
      hihat_a_call (S (S fuel)) m (op_get k)
      = Some (m, map_item (map_trace map_empty ops).2 k).
Proof.
  intros Hv Hroom.
  destruct (trace_simulates fuel hihat_a_init ops wf_init Hv)
    as (rs & m & E & Hwf & Hrs & Hfin); [simpl; lia |].
  destruct (map_trace_ext (items hihat_a_init) map_empty ops Hv) as [H1 H2].
  { intros k _. apply items_init. }
  exists rs, m. split; [done |]. split; [by rewrite <- H1 |].
  intros k Hk. cbn [hihat_a_call]. rewrite (get_ok m k Hwf).
  unfold map_item. rewrite <- H2, <- Hfin by done. unfold items.
  by destruct (table_content m k).
Qed.

(** *** The view and the map *)

Lemma live_is_reserved s i b :
  wf_store s → buckets s !! i = Some b → live b = true → hv b ≠ 0%Z.
Proof.
  intros Hwf Hb Hl E. pose proof (wf_unres s Hwf i b Hb E) as Hr.
  unfold live in Hl. rewrite Hr in Hl. vm_compute in Hl. discriminate.
Qed.

Lemma view_of_bucket_plain b :
  (0 ≤ info (record b) < 2 ^ 62)%Z →
  view_of_bucket b =
    if live b then Some (mk_view (item (record b)) (info (record b))) else None.
Proof. intros Hp. unfold view_of_bucket, live. by rewrite (plain_epoch_of _ Hp). Qed.

Lemma wf_current_store m s :
  wf m → current_store m = Some s →
  wf_store s ∧ epochs_ok s (next_epoch (top m)).
Proof.
  intros [(s0 & Hcur & Hwf & Hep) _] Hcur0.
  unfold current_store in Hcur0. rewrite Hcur0 in Hcur. by injection Hcur as <-.
Qed.

Lemma wf_has_store m : wf m → ∃ s, current_store m = Some s.
Proof. intros [(s & Hcur & _) _]. by exists s. Qed.

(** The entries of the view are the records the table maps hashes to. *)
Lemma view_entry_iff m s e :
  wf m → current_store m = Some s →
  e ∈ omap view_of_bucket (buckets s) ↔
  ∃ k r, k ≠ 0%Z ∧ table_content m k = Some r ∧ e = mk_view (item r) (info r).
Proof.
  intros Hwfm Hcur. destruct (wf_current_store m s Hwfm Hcur) as [Hwf _].
  rewrite list_elem_of_omap. split.
  - intros (b & [i Hb]%list_elem_of_lookup & Hv).
    rewrite (view_of_bucket_plain b (wf_info s Hwf i b Hb)) in Hv.
    destruct (live b) eqn:Hl; [| done]. injection Hv as <-.
    exists (hv b), (record b).
    assert (hv b ≠ 0%Z) as Hnz by (by eapply live_is_reserved).
    split; [done |]. split; [| done].
    rewrite (table_content_eq m s _ Hcur).
    apply content_Some; [apply Hwf.. | done |]. by exists i, b.
  - intros (k & r & Hk & Hc & ->). rewrite (table_content_eq m s k Hcur) in Hc.
    apply content_Some in Hc as (i & b & Hb & _ & Hl & <-);
      [| apply Hwf.. | done].
    exists b. split; [by eapply list_elem_of_lookup_2 |].
    rewrite view_of_bucket_plain by (by eapply wf_info). by rewrite Hl.
Qed.

(** What [view] returns, in terms of the buckets of the current store. *)
Lemma view_spec m s sort :
  wf m → current_store m = Some s →
  hihat_a_view m sort =
    let l := omap view_of_bucket (buckets s) in
    Some (length l,
          if Nat.eqb (length l) 0 then None
          else Some (if sort then qsort hatrack_quicksort_cmp l else l)).
Proof.
  intros Hwfm Hcur. destruct (wf_current_store m s Hwfm Hcur) as [Hwf _].
  unfold hihat_a_view. unfold current_store in Hcur. rewrite Hcur.
  cbn [mbind option_bind].
  rewrite view_loop_spec by (rewrite (sized_last_slot s); [done | apply Hwf]).
  rewrite drop_0. cbn [mbind option_bind].
  by destruct (Nat.eqb _ 0).
Qed.

Lemma view_sorted_strict m s :
  wf m → current_store m = Some s →
  StronglySorted epoch_before
    (qsort hatrack_quicksort_cmp (omap view_of_bucket (buckets s))).
Proof.
  intros Hwfm Hcur. destruct (wf_current_store m s Hwfm Hcur) as [Hwf Hep].
  apply sorted_strict; [apply qsort_sorted |].
  rewrite (qsort_perm _). apply view_epochs_nodup; [apply Hwf | apply Hep].
Qed.

(** X4: [view] lists what [get] finds.  With [sort = false] the entries come
    in bucket order; there is an entry for every hash [get] finds an item
    under, with that item; every entry is the item [get] finds under some
    hash, and its epoch is positive and below [next_epoch]; the array is
    the null pointer exactly when there is no entry; and [sort = true]
    returns the same number of entries, a permutation of these. *)
Theorem view_lists_what_get_finds m :
  wf m →
  ∃ n l s,
    current_store m = Some s ∧
    hihat_a_view m false = Some (n, l) ∧
    view_entries l = omap view_of_bucket (buckets s) ∧
    n = length (view_entries l) ∧
    (l = None ↔ n = 0%nat) ∧
    (∀ k v, k ≠ 0%Z → hihat_a_get m k = Some (v, true) →
       ∃ e, e ∈ view_entries l ∧ view_item e = v) ∧
    (∀ e, e ∈ view_entries l →
       (0 < sort_epoch e < next_epoch (top m))%Z ∧
       ∃ k, k ≠ 0%Z ∧ hihat_a_get m k = Some (view_item e, true)) ∧
    ∃ l', hihat_a_view m true = Some (n, l') ∧
          view_entries l' ≡ₚ view_entries l.
Proof.
  intros Hwf. destruct (wf_has_store m Hwf) as [s Hcur].
  rewrite !(view_spec m s _ Hwf Hcur). cbn zeta.
  set (es := omap view_of_bucket (buckets s)).
  assert (view_entries (if Nat.eqb (length es) 0 then None else Some es) = es)
    as Hent.
  { destruct es; done. }
  eexists _, _, s. split; [done |]. split; [done |].
  split; [exact Hent |]. rewrite Hent. split; [done |].
  split; [| split; [| split]].
  - destruct es; simpl; split; done.
  - intros k v Hk Hget. rewrite (get_ok m k Hwf) in Hget.
    destruct (table_content m k) as [r |] eqn:Ec; [| done].
    injection Hget as <-. exists (mk_view (item r) (info r)).
    split; [| done]. apply (view_entry_iff m s _ Hwf Hcur). by exists k, r.
  - intros e (k & r & Hk & Ec & ->)%(view_entry_iff m s _ Hwf Hcur).
    split; [by apply (content_epoch_lt m k r) |].
    exists k. split; [done |]. by rewrite (get_ok m k Hwf), Ec.
  - eexists. split; [done |].
    destruct es eqn:E; [done |]. simpl. apply qsort_perm.
Qed.

(** X5: [view] returns the null pointer and zero entries exactly when [get]
    finds nothing under any hash. *)
Theorem view_is_null_exactly_when_empty m sort :
  wf m →
  hihat_a_view m sort = Some (0%nat, None) ↔
  ∀ k, k ≠ 0%Z → hihat_a_get m k = Some (NULL, false).
Proof.
  intros Hwf. destruct (wf_has_store m Hwf) as [s Hcur].
  rewrite (view_spec m s _ Hwf Hcur). cbn zeta.
  pose proof (view_entry_iff m s) as Hiff.
  destruct (omap view_of_bucket (buckets s)) as [| e es] eqn:E.
  - split; [| done]. intros _ k Hk. rewrite (get_ok m k Hwf).
    destruct (table_content m k) as [r |] eqn:Ec; [| done].
    exfalso. eapply elem_of_nil, (Hiff _ Hwf Hcur). by exists k, r.
  - split; [done |]. intros Hnone. exfalso.
    destruct (proj1 (Hiff e Hwf Hcur)) as (k & r & Hk & Ec & _); [by left |].
    specialize (Hnone k Hk). rewrite (get_ok m k Hwf), Ec in Hnone. done.
Qed.

(** *** Insertion order *)

Lemma sorted_last (l : list hatrack_view_t) x :
  StronglySorted epoch_before l → x ∈ l →
  (∀ y, y ∈ l → (sort_epoch y ≤ sort_epoch x)%Z) → last l = Some x.
Proof.
  induction l as [| a l IH]; intros Hs Hx Hmax; [by apply elem_of_nil in Hx |].
  apply StronglySorted_cons in Hs as [Hall Hs].
  destruct l as [| b l].
  { apply elem_of_cons in Hx as [-> | Hx]; [done | by apply elem_of_nil in Hx]. }
  rewrite last_cons_cons. apply IH; [done | |].
  - apply elem_of_cons in Hx as [-> | Hx]; [| done].
    exfalso. rewrite Forall_forall in Hall.
    assert (b ∈ b :: l) as Hb by (by left).
    specialize (Hall b Hb). unfold epoch_before in Hall.
    assert (b ∈ a :: b :: l) as Hb' by (right; by left).
    specialize (Hmax b Hb'). lia.
  - intros y Hy. apply Hmax. by right.
Qed.

(** The record that holds the epoch handed out last is the last entry of
    the sorted view. *)
Lemma newest_sorts_last m k r :
  wf m → k ≠ 0%Z → table_content m k = Some r →
  (info r + 1)%Z = next_epoch (top m) →
  ∃ n l,
    hihat_a_view m true = Some (n, Some l) ∧
    last l = Some (mk_view (item r) (info r)).
Proof.
  intros Hwf Hk Ec Hnew. destruct (wf_has_store m Hwf) as [s Hcur].
  rewrite (view_spec m s _ Hwf Hcur). cbn zeta.
  pose proof (view_sorted_strict m s Hwf Hcur) as Hs.
  pose proof (view_entry_iff m s) as Hiff.
  assert (mk_view (item r) (info r) ∈ omap view_of_bucket (buckets s)) as Hin.
  { apply (Hiff _ Hwf Hcur). by exists k, r. }
  destruct (omap view_of_bucket (buckets s)) as [| e es] eqn:E;
    [by apply elem_of_nil in Hin |].
  eexists _, _. split; [done |]. apply sorted_last; [done | |].
  - by rewrite (qsort_perm _).
  - intros y Hy. rewrite (qsort_perm _) in Hy.
    apply (Hiff _ Hwf Hcur) in Hy as (k' & r' & Hk' & Ec' & ->).
    pose proof (content_epoch_lt m k' r' Hwf Hk' Ec'). simpl. lia.
Qed.

(** X6: An insertion under a hash with no live item, by [put] or by [add],
    makes the new item the last entry of the sorted view, with the epoch
    [next_epoch] had. *)
Theorem fresh_insert_sorts_last fuel m k v :
  wf m → k ≠ 0%Z → (next_epoch (top m) < 2 ^ 62)%Z →
  hihat_a_get m k = Some (NULL, false) →
  ∃ mp ma,
    hihat_a_put (S (S fuel)) m k v = Some (mp, (NULL, false)) ∧
    hihat_a_add (S (S fuel)) m k v = Some (ma, true) ∧
    ∀ m', m' = mp ∨ m' = ma →
      ∃ n l, hihat_a_view m' true = Some (n, Some l) ∧
             last l = Some (mk_view v (next_epoch (top m))).
Proof.
  intros Hwf Hk Hroom Hget. rewrite (get_ok m k Hwf) in Hget.
  destruct (table_content m k) as [r |] eqn:Ec; [done |].
  destruct (put_ok fuel m k v Hwf Hk) as (mp & resp & Ep & Hp); [done |].
  destruct (add_ok fuel m k v Hwf Hk) as (ma & resa & Ea & Ha); [done |].
  pose proof (pp_res _ _ _ _ _ Hp) as Hrp. pose proof (ap_res _ _ _ _ _ Ha) as Hra.
  rewrite Ec in Hrp, Hra. simpl in Hrp, Hra. subst resp resa.
  exists mp, ma. split; [done |]. split; [done |].
  intros m' [-> | ->].
  - pose proof (pp_new _ _ _ _ _ Hp) as Hnew. rewrite Ec in Hnew.
    pose proof (pp_epoch _ _ _ _ _ Hp) as Hne. rewrite Ec in Hne.
    by apply (newest_sorts_last mp k _ (pp_wf _ _ _ _ _ Hp) Hk Hnew).
  - destruct (ap_new _ _ _ _ _ Ha eq_refl) as (Hnew & Hne & _).
    by apply (newest_sorts_last ma k _ (ap_wf _ _ _ _ _ Ha) Hk Hnew).
Qed.

(** X7: An item that is removed and put again under the same hash takes a new
    epoch: it becomes the last entry of the sorted view, wherever the item
    under that hash was before. *)
Theorem reinsert_after_remove_sorts_last fuel m k v :
  wf m → k ≠ 0%Z → (next_epoch (top m) < 2 ^ 62)%Z →
  ∃ m1 r1 m2 n l,
    hihat_a_remove (S fuel) m k = Some (m1, r1) ∧
    hihat_a_put (S (S fuel)) m1 k v = Some (m2, (NULL, false)) ∧
    hihat_a_view m2 true = Some (n, Some l) ∧
    last l = Some (mk_view v (next_epoch (top m))).
Proof.
  intros Hwf Hk Hroom.
  destruct (remove_ok fuel m k Hwf Hk) as (m1 & r1 & E1 & Hr).
  pose proof (rp_wf _ _ _ _ Hr) as Hwf1.
  pose proof (rp_gone _ _ _ _ Hr) as Hgone.
  pose proof (rp_epoch _ _ _ _ Hr) as He1.
  destruct (put_ok fuel m1 k v Hwf1 Hk) as (m2 & res & E2 & Hp); [lia |].
  pose proof (pp_res _ _ _ _ _ Hp) as Hres. rewrite Hgone in Hres.
  simpl in Hres. subst res.
  pose proof (pp_new _ _ _ _ _ Hp) as Hnew. rewrite Hgone, He1 in Hnew.
  pose proof (pp_epoch _ _ _ _ _ Hp) as Hne. rewrite Hgone, He1 in Hne.
  destruct (newest_sorts_last m2 k _ (pp_wf _ _ _ _ _ Hp) Hk Hnew)
    as (n & l & Ev & Hl); [done |].
  by exists m1, r1, m2, n, l.
Qed.

(** *** The item count *)

Lemma live_hashes_length s : length (live_hashes s) = count_if live (buckets s).
Proof. unfold live_hashes, count_if. by rewrite length_fmap. Qed.

Lemma live_hashes_elem s k :
  wf_store s → k ∈ live_hashes s ↔ k ≠ 0%Z ∧ is_Some (content s k).
Proof.
  intros Hwf. unfold live_hashes. rewrite list_elem_of_fmap. split.
  - intros (b & -> & Hb). apply list_elem_of_In, filter_In in Hb as [Hin Hl].
    apply list_elem_of_In, list_elem_of_lookup in Hin as [i Hi].
    assert (hv b ≠ 0%Z) as Hnz by (by eapply live_is_reserved).
    split; [done |]. exists (record b).
    apply content_Some; [apply Hwf.. | done |]. by exists i, b.
  - intros [Hk [r Hc]].
    apply content_Some in Hc as (i & b & Hb & <- & Hl & _);
      [| apply Hwf.. | done].
    exists b. split; [done |]. apply list_elem_of_In, filter_In.
    split; [| done]. apply list_elem_of_In. by eapply list_elem_of_lookup_2.
Qed.

Lemma live_hashes_nodup_list (bs : list hihat_bucket_t) :
  (∀ i1 i2 b1 b2, bs !! i1 = Some b1 → bs !! i2 = Some b2 →
     live b1 = true → live b2 = true → hv b1 = hv b2 → i1 = i2) →
  NoDup (hv <$> List.filter live bs).
Proof.
  induction bs as [| b bs IH]; intros Hinj; [constructor |].
  assert (NoDup (hv <$> List.filter live bs)) as Hnd.
  { apply IH. intros i1 i2 b1 b2 H1 H2 Hl1 Hl2 Heq.
    assert (S i1 = S i2) by (by eapply (Hinj (S i1) (S i2) b1 b2)). lia. }
  simpl. destruct (live b) eqn:Hl; [| done].
  rewrite fmap_cons. apply NoDup_cons. split; [| done].
  intros (b2 & Hhv & Hb2)%list_elem_of_fmap.
  apply list_elem_of_In, filter_In in Hb2 as [Hin Hl2].
  apply list_elem_of_In, list_elem_of_lookup in Hin as [i2 Hi2].
  assert (0%nat = S i2); [| done]. by eapply (Hinj 0%nat (S i2) b b2).
Qed.

Lemma live_hashes_nodup s : wf_store s → NoDup (live_hashes s).
Proof.
  intros Hwf. apply live_hashes_nodup_list.
  intros i1 i2 b1 b2 H1 H2 Hl1 Hl2 Heq.
  eapply probe_inv_unique; eauto using wf_probe, live_is_reserved.
Qed.

Lemma count_same s s' :
  wf_store s → wf_store s' →
  (∀ k, k ≠ 0%Z → is_Some (content s' k) ↔ is_Some (content s k)) →
  count_if live (buckets s') = count_if live (buckets s).
Proof.
  intros Hwf Hwf' Hsame. rewrite <- !live_hashes_length.
  apply Permutation_length, NoDup_Permutation; [by apply live_hashes_nodup.. |].
  intros k. rewrite !live_hashes_elem by done.
  split; intros [Hk Hc]; (split; [done |]); by apply (Hsame k Hk).
Qed.

Lemma count_more s s' k :
  wf_store s → wf_store s' → k ≠ 0%Z →
  content s k = None → is_Some (content s' k) →
  (∀ k', k' ≠ k → k' ≠ 0%Z → content s' k' = content s k') →
  count_if live (buckets s') = S (count_if live (buckets s)).
Proof.
  intros Hwf Hwf' Hk Hnone Hsome Hframe. rewrite <- !live_hashes_length.
  change (S (length (live_hashes s))) with (length (k :: live_hashes s)).
  apply Permutation_length, NoDup_Permutation.
  - by apply live_hashes_nodup.
  - apply NoDup_cons. split; [| by apply live_hashes_nodup].
    rewrite live_hashes_elem by done. rewrite Hnone. by intros [_ [? ?]].
  - intros k'. rewrite elem_of_cons, !live_hashes_elem by done.
    destruct (Z.eq_dec k' k) as [-> | Hne].
    + split; [by left | done].
    + split.
      * intros [Hk' Hc]. right. split; [done |]. by rewrite <- Hframe.
      * intros [? | [Hk' Hc]]; [done |]. split; [done |]. by rewrite Hframe.
Qed.

Lemma live_count_eq m s :
  current_store m = Some s → live_count m = count_if live (buckets s).
Proof. intros Hcur. unfold live_count. by rewrite Hcur. Qed.

Lemma live_count_same m m' :
  wf m → wf m' →
  (∀ k, k ≠ 0%Z → is_Some (table_content m' k) ↔ is_Some (table_content m k)) →
  live_count m' = live_count m.
Proof.
  intros Hwf Hwf' Hsame.
  destruct (wf_has_store m Hwf) as [s Hcur].
  destruct (wf_has_store m' Hwf') as [s' Hcur'].
  rewrite (live_count_eq m s Hcur), (live_count_eq m' s' Hcur').
  apply count_same;
    [by apply (wf_current_store m s) | by apply (wf_current_store m' s') |].
  intros k Hk. specialize (Hsame k Hk).
  by rewrite (table_content_eq m s k Hcur),
             (table_content_eq m' s' k Hcur') in Hsame.
Qed.

Lemma live_count_more m m' k :
  wf m → wf m' → k ≠ 0%Z →
  table_content m k = None → is_Some (table_content m' k) →
  (∀ k', k' ≠ k → k' ≠ 0%Z → table_content m' k' = table_content m k') →
  live_count m' = S (live_count m).
Proof.
  intros Hwf Hwf' Hk Hnone Hsome Hframe.
  destruct (wf_has_store m Hwf) as [s Hcur].
  destruct (wf_has_store m' Hwf') as [s' Hcur'].
  rewrite (live_count_eq m s Hcur), (live_count_eq m' s' Hcur').
  rewrite (table_content_eq m s k Hcur) in Hnone.
  rewrite (table_content_eq m' s' k Hcur') in Hsome.
  apply (count_more s s' k);
    [by apply (wf_current_store m s) | by apply (wf_current_store m' s')
    | done.. |].
  intros k' Hne Hk'. specialize (Hframe k' Hne Hk').
  by rewrite (table_content_eq m s k' Hcur),
             (table_content_eq m' s' k' Hcur') in Hframe.
Qed.

Lemma wrap64_succ (c : nat) :
  wrap64 (wrap64 (Z.of_nat c) + 1) = wrap64 (Z.of_nat (S c)).
Proof.
  unfold wrap64. rewrite Zplus_mod_idemp_l. f_equal. lia.
Qed.

Lemma wrap64_pred (c : nat) :
  wrap64 (wrap64 (Z.of_nat (S c)) - 1) = wrap64 (Z.of_nat c).
Proof.
  unfold wrap64. rewrite Zminus_mod_idemp_l. f_equal. lia.
Qed.

Lemma count_ok_init : count_ok hihat_a_init.
Proof.
  unfold count_ok, live_count, current_store, hihat_a_init. simpl.
  assert (count_if live (replicate HATRACK_MIN_SIZE zero_bucket) = 0%nat) as ->;
    [| done].
  induction HATRACK_MIN_SIZE as [| n IH]; [done |].
  simpl. by rewrite count_if_cons, IH.
Qed.

(** Every call keeps [item_count] the number of live items. *)
Lemma call_keeps_count fuel m op m' r :
  wf m → op_valid op → (next_epoch (top m) < 2 ^ 62)%Z → count_ok m →
  hihat_a_call (S (S fuel)) m op = Some (m', r) → count_ok m'.
Proof.
  intros Hwf Hv Hroom Hc.
  destruct op as [k | k v | k v | k v | k | | sort];
    unfold op_valid in Hv; simpl in Hv; cbn [hihat_a_call].
  - destruct (hihat_a_get m k) as [[? ?] |]; [| done]. by intros [= <- _].
  - destruct (put_ok fuel m k v Hwf Hv) as (m1 & [o f] & E & Hp); [done |].
    rewrite E. simpl. intros [= <- _]. unfold count_ok.
    rewrite (pp_count _ _ _ _ _ Hp).
    pose proof (pp_new _ _ _ _ _ Hp) as Hnew.
    destruct (table_content m k) as [r0 |] eqn:Ec.
    + rewrite Hc. do 2 f_equal.
      symmetry. apply live_count_same; [done | apply Hp |].
      intros k' Hk'. destruct (Z.eq_dec k' k) as [-> | Hne].
      * by rewrite Hnew, Ec.
      * by rewrite (pp_frame _ _ _ _ _ Hp k' Hne Hk').
    + rewrite Hc, wrap64_succ. do 2 f_equal. symmetry.
      apply (live_count_more m m1 k Hwf (pp_wf _ _ _ _ _ Hp) Hv Ec);
        [by rewrite Hnew | apply Hp].
  - destruct (replace_ok (S fuel) m k v Hwf Hv) as (m1 & [o f] & E & Hp).
    rewrite E. simpl. intros [= <- _]. unfold count_ok.
    rewrite (xp_top _ _ _ _ _ Hp), Hc. do 2 f_equal.
    symmetry. apply live_count_same; [done | apply Hp |].
    intros k' Hk'. destruct (Z.eq_dec k' k) as [-> | Hne].
    + rewrite (xp_new _ _ _ _ _ Hp). by destruct (table_content m k).
    + by rewrite (xp_frame _ _ _ _ _ Hp k' Hne Hk').
  - destruct (add_ok fuel m k v Hwf Hv) as (m1 & ok & E & Hp); [done |].
    rewrite E. simpl. intros [= <- _]. destruct ok.
    + destruct (ap_new _ _ _ _ _ Hp eq_refl) as (Hnew & _ & Hcnt).
      unfold count_ok. rewrite Hcnt, Hc, wrap64_succ. do 2 f_equal. symmetry.
      assert (table_content m k = None) as Ec.
      { pose proof (ap_res _ _ _ _ _ Hp) as Hres.
        by destruct (table_content m k). }
      apply (live_count_more m m1 k Hwf (ap_wf _ _ _ _ _ Hp) Hv Ec);
        [by rewrite Hnew | apply Hp].
    + by rewrite (ap_same _ _ _ _ _ Hp eq_refl).
  - destruct (remove_ok (S fuel) m k Hwf Hv) as (m1 & [o f] & E & Hp).
    rewrite E. simpl. intros [= <- _]. unfold count_ok.
    rewrite (rp_count _ _ _ _ Hp).
    destruct (table_content m k) as [r0 |] eqn:Ec.
    + rewrite Hc.
      rewrite (live_count_more m1 m k (rp_wf _ _ _ _ Hp) Hwf Hv
                 (rp_gone _ _ _ _ Hp)); [apply wrap64_pred | by rewrite Ec |].
      intros k' Hne Hk'. symmetry. by apply (rp_frame _ _ _ _ Hp).
    + by rewrite (rp_same _ _ _ _ Hp Ec).
  - by intros [= <- _].
  - destruct (hihat_a_view m sort) as [[? ?] |]; [| done]. by intros [= <- _].
Qed.

Lemma view_length_live (bs : list hihat_bucket_t) :
  length (omap view_of_bucket bs) = count_if live bs.
Proof.
  induction bs as [| b bs IH]; [done |].
  rewrite count_if_cons, <- IH. cbn [omap list_omap].
  unfold view_of_bucket at 1, live.
  by destruct (has_epoch (record b)).
Qed.

Lemma run_keeps_count fuel m ops :
  wf m → count_ok m → Forall op_valid ops →
  (next_epoch (top m) + Z.of_nat (length ops) ≤ 2 ^ 62)%Z →
  ∃ m', hihat_a_run (S (S fuel)) m ops = Some m' ∧ wf m' ∧ count_ok m'.
Proof.
  revert m. induction ops as [| op ops IH]; intros m Hwf Hc Hv Hroom.
  { by exists m. }
  apply Forall_cons in Hv as [Hop Hv]. simpl in Hroom.
  destruct (call_ok fuel m op Hwf Hop) as (m1 & r & E & Hwf1 & Hne & _); [lia |].
  destruct (IH m1 Hwf1) as (m' & E' & Hwf' & Hc'); [| done | lia |].
  { apply (call_keeps_count fuel m op m1 r); try done. lia. }
  exists m'. cbn [hihat_a_run]. rewrite E. cbn [mbind option_bind].
  by rewrite E'.
Qed.

(** X8: [len] is the number of items in the table.  After any run of calls on
    the table [init] makes, [len] returns the number of entries [view]
    returns, as a 64-bit number: every insertion and every removal that
    succeeds is counted once, an overwrite and a failed call are not. *)
Theorem len_counts_the_live_items fuel ops :
  Forall op_valid ops → (1 + Z.of_nat (length ops) ≤ 2 ^ 62)%Z →
  ∃ m n l,
    hihat_a_run (S (S fuel)) hihat_a_init ops = Some m ∧
    hihat_a_view m false = Some (n, l) ∧
    hihat_a_len m = wrap64 (Z.of_nat n).
Proof.
  intros Hv Hroom.
  destruct (run_keeps_count fuel hihat_a_init ops wf_init count_ok_init Hv)
    as (m & E & Hwf & Hc); [simpl; lia |].
  destruct (wf_has_store m Hwf) as [s Hcur].
  exists m. rewrite (view_spec m s _ Hwf Hcur). cbn zeta.
  eexists _, _. split; [done |]. split; [done |].
  unfold hihat_a_len. rewrite Hc, (live_count_eq m s Hcur).
  by rewrite view_length_live.
Qed.

(** *** The unreserved hash and the empty table *)

Lemma content_zero s : content s 0 = None.
Proof.
  unfold content. destruct (slot_of s 0) as [j |] eqn:Hslot; [| done].
  apply probe_Some in Hslot as (b & Hb & Hstop). cbn [mbind option_bind].
  rewrite Hb. cbn [mbind option_bind]. unfold reserved, hatrack_bucket_unreserved.
  by destruct Hstop as [-> | ->].
Qed.

Lemma find_loop_zero s :
  sized s →
  find_loop s 0 (S (last_slot s)) (hatrack_bucket_index 0 (last_slot s))
  = Some None.
Proof.
  intros Hs. rewrite find_loop_probe by (done || by apply index_lt).
  destruct (probe s 0 _ _) as [j |] eqn:Hp; [| done].
  apply probe_Some in Hp as (b & Hb & Hstop). rewrite Hb.
  unfold hatrack_bucket_unreserved. by destruct Hstop as [-> | ->].
Qed.

(** X9: The all-zero hash marks a bucket as unreserved, and the probes test
    for it first: whatever the table holds, [get], [replace] and [remove]
    find nothing under the all-zero hash and change nothing. *)
Theorem unreserved_hash_is_never_found fuel m s v :
  current_store m = Some s → sized s →
  hihat_a_get m 0 = Some (NULL, false) ∧
  hihat_a_replace (S fuel) m 0 v = Some (m, (NULL, false)) ∧
  hihat_a_remove (S fuel) m 0 = Some (m, (NULL, false)).
Proof.
  intros Hcur Hs. unfold current_store in Hcur.
  unfold hihat_a_get, hihat_a_replace, hihat_a_remove.
  cbn [hihat_a_store_replace hihat_a_store_remove].
  rewrite Hcur. cbn [mbind option_bind].
  rewrite (store_get_content s 0 Hs), content_zero, (find_loop_zero s Hs).
  done.
Qed.

Lemma find_loop_new n k :
  find_loop (hihat_a_store_new (2 ^ n)) k (S (2 ^ n - 1))
    (hatrack_bucket_index k (2 ^ n - 1)) = Some None.
Proof.
  cbn [find_loop hihat_a_store_new buckets].
  rewrite lookup_replicate_2 by apply bucket_index_lt. done.
Qed.

(** X10: The table [init] makes is empty: [len] is 0, [view] returns no entry
    and the null pointer, [get] finds nothing under any hash, and
    [replace] and [remove] find nothing and leave the table as it is. *)
Theorem empty_table_holds_nothing fuel k v sort :
  hihat_a_len hihat_a_init = 0%Z ∧
  hihat_a_view hihat_a_init sort = Some (0%nat, None) ∧
  hihat_a_get hihat_a_init k = Some (NULL, false) ∧
  hihat_a_replace (S fuel) hihat_a_init k v
    = Some (hihat_a_init, (NULL, false)) ∧
  hihat_a_remove (S fuel) hihat_a_init k = Some (hihat_a_init, (NULL, false)).
Proof.
  assert (hihat_a_get hihat_a_init k = Some (NULL, false)) as Hget.
  { rewrite (get_ok _ k wf_init).
    pose proof (items_init k) as Hi. unfold items in Hi.
    by destruct (table_content hihat_a_init k). }
  split; [done |]. split; [| split; [done |]].
  - rewrite (view_spec hihat_a_init _ sort wf_init eq_refl). cbn zeta.
    cbn [hihat_a_store_new buckets].
    assert (omap view_of_bucket (replicate HATRACK_MIN_SIZE zero_bucket) = [])
      as ->; [| done].
    induction HATRACK_MIN_SIZE as [| n IH]; [done | exact IH].
  - destruct min_size_pow2 as (n & Hn).
    unfold hihat_a_replace, hihat_a_remove, hihat_a_init.
    cbn [hihat_a_store_replace hihat_a_store_remove top store_current stores].
    cbn [lookup list_lookup mbind option_bind].
    rewrite Hn. cbn [last_slot hihat_a_store_new].
    rewrite !(find_loop_new n k). done.
Qed.

(** *** Migration *)

Lemma epoch_before_antisym : AntiSymm eq epoch_before.
Proof. intros a b H1 H2. unfold epoch_before in *. lia. Qed.

Lemma view_nodup m s :
  wf m → current_store m = Some s → NoDup (omap view_of_bucket (buckets s)).
Proof.
  intros Hwfm Hcur. destruct (wf_current_store m s Hwfm Hcur) as [Hwf Hep].
  apply (NoDup_fmap_1 sort_epoch).
  apply view_epochs_nodup; [apply Hwf | apply Hep].
Qed.

(** Two tables that map the hashes to the same records have the same
    entries in their views. *)
Lemma view_perm_of_content m m' s s' :
  wf m → wf m' → current_store m = Some s → current_store m' = Some s' →
  (∀ k, k ≠ 0%Z → table_content m' k = table_content m k) →
  omap view_of_bucket (buckets s') ≡ₚ omap view_of_bucket (buckets s).
Proof.
  intros Hwf Hwf' Hcur Hcur' Hsame.
  apply NoDup_Permutation;
    [by apply (view_nodup m' s') | by apply (view_nodup m s) |].
  intros e. rewrite (view_entry_iff m' s' e Hwf' Hcur'),
                    (view_entry_iff m s e Hwf Hcur).
  split; intros (k & r & Hk & Ec & ->); exists k, r; (split; [done |]);
    (split; [| done]).
  - by rewrite <- Hsame.
  - by rewrite Hsame.
Qed.

Lemma table_content_zero m : table_content m 0 = None.
Proof.
  unfold table_content. destruct (current_store m); [| done]. apply content_zero.
Qed.

(** X11: The readers do not see a migration.  A migration of the current store
    of a table returns and leaves a table in which [get] finds under every
    hash what it found before, [len] and the epoch counter are what they
    were, the sorted view is the same array, and the unsorted view has the
    same entries (in the bucket order of the new store). *)
Theorem migration_is_invisible_to_readers m :
  wf m →
  ∃ p m',
    hihat_a_store_migrate (store_current (top m)) m = Some (p, m') ∧
    wf m' ∧ store_current (top m') = p ∧ p ≠ store_current (top m) ∧
    (∀ k, hihat_a_get m' k = hihat_a_get m k) ∧
    hihat_a_len m' = hihat_a_len m ∧
    next_epoch (top m') = next_epoch (top m) ∧
    hihat_a_view m' true = hihat_a_view m true ∧
    ∃ n l l',
      hihat_a_view m false = Some (n, l) ∧
      hihat_a_view m' false = Some (n, l') ∧
      view_entries l' ≡ₚ view_entries l.
Proof.
  intros Hwf. destruct (wf_has_store m Hwf) as [s Hcur].
  destruct (wf_current_store m s Hwf Hcur) as [Hwfs Hep].
  destruct (migrate_memory m s Hcur Hwfs Hep (wf_next_epoch m Hwf))
    as (m2 & ns & E & Hwf2 & Hcur2 & _ & Hsame & Htop & Hst).
  exists (store_current (top m2)), m2. split; [done |]. split; [done |].
  split; [done |].
  assert (∀ k, table_content m2 k = table_content m k) as Hsame'.
  { intros k. destruct (Z.eq_dec k 0) as [-> | Hk].
    - by rewrite !table_content_zero.
    - rewrite (table_content_eq m2 ns k Hcur2), (table_content_eq m s k Hcur).
      by apply Hsame. }
  pose proof (view_perm_of_content m m2 s ns Hwf Hwf2 Hcur Hcur2
                (λ k _, Hsame' k)) as Hperm.
  pose proof (Permutation_length Hperm) as Hlen.
  split; [| split; [| split; [| split; [| split]]]].
  - rewrite Htop. simpl. unfold current_store in Hcur.
    apply lookup_lt_Some in Hcur. lia.
  - intros k. by rewrite (get_ok m2 k Hwf2), (get_ok m k Hwf), Hsame'.
  - unfold hihat_a_len. by rewrite Htop.
  - by rewrite Htop.
  - rewrite (view_spec m2 ns _ Hwf2 Hcur2), (view_spec m s _ Hwf Hcur).
    cbn zeta. rewrite Hlen.
    assert (qsort hatrack_quicksort_cmp (omap view_of_bucket (buckets ns))
            = qsort hatrack_quicksort_cmp (omap view_of_bucket (buckets s)))
      as ->; [| done].
    apply (@StronglySorted_unique _ epoch_before epoch_before_antisym);
      [by apply (view_sorted_strict m2 ns)
      | by apply (view_sorted_strict m s) |].
    by rewrite !(qsort_perm _).
  - rewrite (view_spec m2 ns _ Hwf2 Hcur2), (view_spec m s _ Hwf Hcur).
    cbn zeta. rewrite Hlen. eexists _, _, _. split; [done |]. split; [done |].
    by destruct (Nat.eqb (length (omap view_of_bucket (buckets s))) 0).
Qed.

Lemma count_if_ext f g (l : list hihat_bucket_t) :
  (∀ i b, l !! i = Some b → f b = g b) → count_if f l = count_if g l.
Proof.
  induction l as [| b l IH]; intros Hfg; [done |].
  rewrite !count_if_cons, (Hfg 0%nat b eq_refl), IH; [done |].
  intros i b' Hb'. apply (Hfg (S i) b' Hb').
Qed.

(** The fields of the store a migration allocates. *)
Lemma migrate_new_store m s :
  stores m !! store_current (top m) = Some s → wf_store s →
  ∃ m' ns,
    hihat_a_store_migrate (store_current (top m)) m
      = Some (length (stores m), m') ∧
    stores m' !! length (stores m) = Some ns ∧
    same_fields
      (set_used_count
         (hihat_a_store_new
            (hatrack_new_size (last_slot s) (count_if live (buckets s))))
         (Z.of_nat (count_if live (buckets s)))) ns ∧
    sized ns.
Proof.
  intros Hcur Hwf. set (self := store_current (top m)) in *.
  pose proof (lookup_lt_Some _ _ _ Hcur) as Hself.
  unfold hihat_a_store_migrate. fold self. rewrite Nat.eqb_refl. cbn [negb].
  rewrite Hcur. cbn [mbind option_bind]. rewrite (wf_next s Hwf).
  rewrite freeze_spec by apply Hwf. cbn [mbind option_bind].
  cbn [store_next set_buckets last_slot]. rewrite (wf_next s Hwf).
  destruct (wf_sized s Hwf) as (n & Hls & Hlen).
  set (used := count_if live (buckets s)).
  assert (used ≤ 2 ^ n)%nat as Hused.
  { rewrite <- Hlen. apply count_if_le_length. }
  destruct (new_size_pow2 n used Hused) as (n' & Hn').
  destruct (new_size_room n used Hused) as (Hroom & Hthr).
  rewrite Hls, Hn'. rewrite Hn' in Hroom, Hthr.
  unfold alloc_store, LCAS. cbn [store_ptr_eqb mbind option_bind].
  set (p := length (stores m)) in *.
  set (F := set_store_next (set_buckets s (frozen_bucket <$> buckets s)) (Some p)).
  set (N := hihat_a_store_new (2 ^ n')).
  destruct (have_new_store_spec (stores m) (top m) s n' (Some p))
    as (ns & E & Hinv); [done.. |].
  fold self p used F N in E, Hinv.
  eexists _, (set_used_count ns (Z.of_nat used)).
  split.
  { refine (eq_trans _ E). f_equal.
    - unfold set_store. cbn [stores]. by rewrite length_insert.
    - unfold set_store. cbn [stores top]. rewrite !length_insert. fold p F.
      f_equal. rewrite (insert_app_l _ _ self) by (rewrite length_insert; lia).
      by rewrite list_insert_insert_eq. }
  cbn [stores].
  split.
  { rewrite lookup_app_r by (rewrite length_insert; lia).
    by rewrite length_insert, Nat.sub_diag. }
  destruct (ci_ns _ _ _ _ _ _ _ Hinv) as (Hl1 & Hl2 & Hl3 & Hl4).
  split; [by repeat split |].
  apply (ci_wf _ _ _ _ _ _ _ Hinv).
Qed.

(** X12: A migration sizes the new store by the live items and carries no
    removed bucket into it.  The size is what [hatrack_new_size] gives for
    the number of live items, the threshold is the threshold of that size,
    the reserved buckets of the new store are its live buckets, there are
    as many as there were live buckets in the old store, [used_count] is
    that number and is below the threshold, and no record carries a
    migration flag. *)
Theorem migration_drops_tombstones m s :
  wf m → current_store m = Some s →
  ∃ p m' s',
    hihat_a_store_migrate (store_current (top m)) m = Some (p, m') ∧
    current_store m' = Some s' ∧
    length (buckets s') =
      hatrack_new_size (last_slot s) (count_if live (buckets s)) ∧
    threshold s' = hatrack_compute_table_threshold (length (buckets s')) ∧
    used_count s' = Z.of_nat (count_if live (buckets s)) ∧
    count_if reserved (buckets s') = count_if live (buckets s) ∧
    (used_count s' < threshold s')%Z ∧
    store_next s' = None ∧
    ∀ j b, buckets s' !! j = Some b →
      reserved b = live b ∧ is_moving (record b) = false ∧
      is_moved (record b) = false.
Proof.
  intros Hwf Hcur. destruct (wf_current_store m s Hwf Hcur) as [Hwfs Hep].
  destruct (migrate_memory m s Hcur Hwfs Hep (wf_next_epoch m Hwf))
    as (m2 & ns & E & Hwf2 & Hcur2 & [Hroom _] & Hsame & Htop & Hst).
  destruct (migrate_spec m s Hcur Hwfs)
    as (ns1 & E1 & _ & Hused & _ & _ & Hfrom & _).
  destruct (migrate_new_store m s Hcur Hwfs)
    as (m3 & ns3 & E3 & Hns3 & (Hl1 & Hl2 & Hl3 & Hl4) & Hsz).
  rewrite E in E1, E3. injection E3 as Hp <-. injection E1 as _ Hm2.
  assert (ns3 = ns) as ->.
  { unfold current_store in Hcur2. rewrite Hp in Hcur2. congruence. }
  assert (ns1 = ns) as ->.
  { rewrite Hm2 in Hcur2. unfold current_store in Hcur2.
    cbn [top stores store_current] in Hcur2.
    rewrite lookup_app_r in Hcur2 by (rewrite length_insert; lia).
    rewrite length_insert, Nat.sub_diag in Hcur2. by injection Hcur2. }
  destruct (wf_current_store m2 ns Hwf2 Hcur2) as [Hwfn _].
  assert (∀ j b, buckets ns !! j = Some b → reserved b = live b) as Hrl.
  { intros j b Hb. unfold reserved, hatrack_bucket_unreserved.
    destruct (Z.eqb_spec (hv b) 0) as [E0 | E0]; simpl.
    - unfold live. by rewrite (wf_unres ns Hwfn j b Hb E0).
    - by destruct (Hfrom j b Hb E0) as (i & _ & ->). }
  exists (store_current (top m2)), m2, ns. split; [done |]. split; [done |].
  cbn [last_slot threshold used_count store_next set_used_count
         hihat_a_store_new] in Hl1, Hl2, Hl3, Hl4.
  pose proof (sized_last_slot ns Hsz) as Hlen.
  assert (length (buckets ns) =
            hatrack_new_size (last_slot s) (count_if live (buckets s))) as Hsize.
  { destruct (wf_sized s Hwfs) as (n & Hls & Hbl).
    assert (count_if live (buckets s) ≤ 2 ^ n)%nat as Hle.
    { rewrite <- Hbl. apply count_if_le_length. }
    destruct (new_size_room n _ Hle) as [Hpos _]. rewrite <- Hls in Hpos.
    rewrite <- Hlen, Hl1. lia. }
  split; [done |]. split; [by rewrite Hsize |]. split; [done |].
  split.
  { rewrite (count_if_ext reserved live _ Hrl).
    apply count_same; [done.. |]. intros k Hk. by rewrite Hsame. }
  split; [done |]. split; [apply Hwfn |].
  intros j b Hb. split; [by eapply Hrl |].
  pose proof (wf_info ns Hwfn j b Hb) as Hi.
  unfold is_moving, is_moved.
  by rewrite (land_small_moving _ Hi), (land_small_moved _ Hi).
Qed.

(** *** [add] and [put] *)

(** A successful [add] is the [put] of a new item, from any store of any
    memory. *)
Lemma store_add_is_put fuel :
  ∀ self m k v ma,
    hihat_a_store_add fuel self m k v = Some (ma, true) →
    hihat_a_store_put fuel self m k v = Some (ma, (NULL, false)).
Proof.
  induction fuel as [| fuel IH]; intros self m k v ma; [done |].
  cbn [hihat_a_store_add hihat_a_store_put].
  destruct (stores m !! self) as [store |]; [| done]. cbn [mbind option_bind].
  destruct (acquire_loop store k _ _) as [[s1 j | s1] |]; [| | done];
    cbn [mbind option_bind].
  - destruct (buckets s1 !! j) as [b |]; [| done]. cbn [mbind option_bind].
    destruct (is_moving (record b)).
    + destruct (hihat_a_store_migrate self _) as [[self' m'] |]; [| done].
      cbn [mbind option_bind]. apply IH.
    + destruct (Z.eqb_spec (info (record b)) 0) as [Hi | Hi]; cbn [negb];
        [| done].
      assert (has_epoch (record b) = false) as ->.
      { unfold has_epoch, epoch_of. by rewrite Hi. }
      unfold LCAS. rewrite record_eqb_refl. by intros [= <-].
  - destruct (hihat_a_store_migrate self _) as [[self' m'] |]; [| done].
    cbn [mbind option_bind]. apply IH.
Qed.

(** X13: [add] is [put] restricted to the hashes with no live item: on a
    well-formed table [add] returns, and when it returns true, [put]
    called in its place returns the null item with [found = false] and
    leaves the same memory; when it returns false it leaves the memory as
    it was (and [put] would have overwritten the item [get] finds). *)
Theorem add_is_put_on_a_free_hash fuel m k v :
  wf m → k ≠ 0%Z → (next_epoch (top m) < 2 ^ 62)%Z →
  ∃ ma ok,
    hihat_a_add (S (S fuel)) m k v = Some (ma, ok) ∧
    (ok = true →
       hihat_a_get m k = Some (NULL, false) ∧
       hihat_a_put (S (S fuel)) m k v = Some (ma, (NULL, false))) ∧
    (ok = false →
       ma = m ∧ ∃ old mp,
         hihat_a_get m k = Some (old, true) ∧
         hihat_a_put (S (S fuel)) m k v = Some (mp, (old, true))).
Proof.
  intros Hwf Hk Hroom.
  destruct (add_ok fuel m k v Hwf Hk) as (ma & ok & Ea & Ha); [done |].
  exists ma, ok. split; [done |].
  pose proof (ap_res _ _ _ _ _ Ha) as Hres. rewrite (get_ok m k Hwf).
  split; intros ->.
  - split; [by destruct (table_content m k) |].
    by apply store_add_is_put.
  - split; [by apply (ap_same _ _ _ _ _ Ha) |].
    destruct (put_ok fuel m k v Hwf Hk) as (mp & resp & Ep & Hp); [done |].
    pose proof (pp_res _ _ _ _ _ Hp) as Hrp.
    destruct (table_content m k) as [r |]; [| done]. simpl in Hrp. subst resp.
    by exists (item r), mp.
Qed.

(** *** [put] without a migration *)

(** X14: Below the threshold, and under a hash that has its bucket already
    (live or removed), [put] does not migrate: it completes in the store it
    started from without a retry, allocates nothing, and writes the bucket
    its probe ends at and no other.  A bucket that was unreserved is
    counted in [used_count]; a bucket that held the hash is reused and
    [used_count] stays, and it keeps its epoch when its item was live. *)
Theorem put_below_threshold_stays_in_place m s k v j bj :
  wf m → current_store m = Some s → k ≠ 0%Z →
  slot_of s k = Some j → buckets s !! j = Some bj →
  hv bj = k ∨ (used_count s < threshold s)%Z →
  ∃ m' res s',
    hihat_a_put 1 m k v = Some (m', res) ∧
    store_current (top m') = store_current (top m) ∧
    stores m' = <[store_current (top m) := s']> (stores m) ∧
    buckets s' =
      <[j := mk_bucket k
               (mk_record v (if live bj then info (record bj)
                             else next_epoch (top m)))]> (buckets s) ∧
    used_count s' =
      (if reserved bj then used_count s else wrap64 (used_count s + 1)) ∧
    last_slot s' = last_slot s ∧ threshold s' = threshold s ∧
    store_next s' = store_next s.
Proof.
  intros Hwf Hcur Hk Hslot Hbj Hcase.
  destruct (wf_current_store m s Hwf Hcur) as [Hwfs _].
  pose proof (acquire_loop_probe s k (S (last_slot s))
                (hatrack_bucket_index k (last_slot s)) (wf_sized s Hwfs)
                (index_lt s k (wf_sized s Hwfs)) (wf_unres s Hwfs)) as Hacq.
  fold (slot_of s k) in Hacq. rewrite Hslot, Hbj in Hacq.
  pose proof (lookup_lt_Some _ _ _ Hbj) as Hj.
  pose proof (wf_info s Hwfs j bj Hbj) as Hpj.
  unfold hihat_a_put. unfold current_store in Hcur.
  unfold reserved, hatrack_bucket_unreserved in *.
  destruct (Z.eqb_spec (hv bj) 0) as [E0 | E0]; cbn [negb].
  - destruct Hcase as [Hkj | Hlt]; [congruence |].
    assert ((used_count s >=? threshold s)%Z = false) as Hge by lia.
    rewrite Hge in Hacq.
    assert (buckets (claimed s j k) !! j = Some (mk_bucket k (mk_record NULL 0)))
      as Hb1.
    { cbn [claimed buckets set_used_count set_bucket set_buckets].
      by apply list_lookup_insert_eq. }
    rewrite (put_found 0 m s _ j _ k v Hcur Hacq Hb1) by (simpl; lia).
    change (has_epoch (record (mk_bucket k (mk_record NULL 0)))) with false.
    cbv iota.
    assert (live bj = false) as ->.
    { unfold live. by rewrite (wf_unres s Hwfs j bj Hbj E0). }
    eexists _, _, _. split; [done |]. cbn [top stores store_current].
    split; [done |]. split; [done |].
    cbn [claimed buckets set_used_count set_bucket set_buckets set_record
           used_count last_slot threshold store_next hv record].
    by rewrite list_insert_insert_eq.
  - assert (hv bj = k) as Hkj.
    { apply probe_Some in Hslot as (b & Hb & [? | ?]); congruence. }
    rewrite (put_found 0 m s s j bj k v Hcur Hacq Hbj Hpj).
    unfold live.
    destruct (has_epoch (record bj));
      (eexists _, _, _; split; [done |]; cbn [top stores store_current];
       split; [done |]; split; [done |];
       cbn [buckets set_bucket set_buckets set_record used_count last_slot
              threshold store_next]).
    all: unfold set_record; by rewrite Hkj.
Qed.

(** *** The store a migration leaves behind *)

Lemma get_loop_retired s p k n bix :
  (∀ i b, buckets s !! i = Some b → (0 ≤ info (record b) < 2 ^ 62)%Z) →
  hihat_a_store_get_loop (retired s p) k n bix =
  hihat_a_store_get_loop s k n bix.
Proof.
  intros Hplain. revert bix.
  induction n as [| n IH]; intros bix; [done |].
  cbn [hihat_a_store_get_loop retired set_store_next set_buckets buckets].
  rewrite list_lookup_fmap.
  destruct (buckets s !! bix) as [b |] eqn:Hb; [| done].
  cbn [fmap option_fmap option_map mbind option_bind].
  destruct (moved_bucket_keeps b (Hplain bix b Hb)) as (-> & -> & He).
  unfold has_epoch. rewrite He.
  destruct (hatrack_bucket_unreserved (hv b)); [done |].
  destruct (hatrack_hashes_eq k (hv b)); cbn [negb]; [done |].
  apply IH.
Qed.

Lemma sized_retired s p : sized s → sized (retired s p).
Proof.
  intros (n & Hl & Hlen). exists n. split; [done |].
  cbn [retired set_store_next set_buckets buckets]. by rewrite length_fmap.
Qed.

(** What the opening loop of [replace] and [remove] finds in the store a
    migration left behind: no bucket, and then the table holds nothing
    under the hash, or a bucket whose record carries MOVING. *)
Lemma find_loop_retired s p k :
  sized s →
  ∃ fb,
    find_loop (retired s p) k (S (last_slot (retired s p)))
      (hatrack_bucket_index k (last_slot (retired s p))) = Some fb ∧
    match fb with
    | None => content s k = None
    | Some j => ∃ b, buckets (retired s p) !! j = Some b ∧
                     is_moving (record b) = true
    end.
Proof.
  intros Hs.
  rewrite find_loop_probe
    by (by apply sized_retired || by apply index_lt, sized_retired).
  fold (slot_of (retired s p) k).
  rewrite (slot_of_ext s (retired s p) k); [| done |].
  2: { intros i. cbn [retired set_store_next set_buckets buckets].
       rewrite list_lookup_fmap. by destruct (buckets s !! i). }
  eexists. split; [done |].
  destruct (slot_of s k) as [j |] eqn:Hslot; [| by apply content_no_slot].
  cbn [retired set_store_next set_buckets buckets]. rewrite list_lookup_fmap.
  pose proof Hslot as Hslot'.
  unfold slot_of in Hslot'. apply probe_Some in Hslot' as (b & Hb & _).
  rewrite Hb. cbn [fmap option_fmap option_map].
  change (hv (moved_bucket b)) with (hv b).
  unfold hatrack_bucket_unreserved.
  destruct (Z.eqb_spec (hv b) 0) as [E0 | E0].
  - by apply (content_unreserved s k j b).
  - exists (moved_bucket b). split; [| apply moved_bucket_moving].
    by rewrite list_lookup_fmap, Hb.
Qed.

(** X15: An operation that still holds the store a migration left behind does
    no harm.  After a migration of the current store, [get] on the old
    store returns what the table held at the migration; [migrate] called
    on the old store returns the new store and changes nothing; and
    [replace] and [remove] started from the old store do what they do when
    started from the current one: every record of the old store carries
    MOVING, which sends them to the new store. *)
Theorem stale_store_operations_are_redirected fuel m k v :
  wf m → k ≠ 0%Z →
  ∃ p m' old,
    hihat_a_store_migrate (store_current (top m)) m = Some (p, m') ∧
    stores m' !! store_current (top m) = Some old ∧
    hihat_a_store_get old k = hihat_a_get m k ∧
    hihat_a_store_migrate (store_current (top m)) m' = Some (p, m') ∧
    hihat_a_store_replace (S (S fuel)) (store_current (top m)) m' k v
      = hihat_a_replace (S fuel) m' k v ∧
    hihat_a_store_remove (S (S fuel)) (store_current (top m)) m' k
      = hihat_a_remove (S fuel) m' k ∧
    is_Some (hihat_a_replace (S fuel) m' k v) ∧
    is_Some (hihat_a_remove (S fuel) m' k).
Proof.
  intros Hwf Hk. destruct (wf_has_store m Hwf) as [s Hcur].
  destruct (wf_current_store m s Hwf Hcur) as [Hwfs Hep].
  destruct (migrate_memory m s Hcur Hwfs Hep (wf_next_epoch m Hwf))
    as (m2 & ns & E & Hwf2 & Hcur2 & _ & Hsame & Htop & Hst).
  set (self := store_current (top m)) in *.
  set (p := length (stores m)) in *.
  assert (self < p)%nat as Hlt.
  { unfold current_store in Hcur. by apply lookup_lt_Some in Hcur. }
  assert (store_current (top m2) = p) as Hp by (by rewrite Htop).
  assert (stores m2 !! self = Some (retired s p)) as Hold.
  { rewrite Hst, lookup_app_l by (rewrite length_insert; lia).
    by apply list_lookup_insert_eq. }
  assert (hihat_a_store_migrate self m2 = Some (p, m2)) as Hhelp.
  { unfold hihat_a_store_migrate. rewrite Hp.
    destruct (Nat.eqb_spec p self) as [E0 | E0]; [lia | done]. }
  destruct (replace_ok fuel m2 k v Hwf2 Hk) as (mx & rx & Ex & Hx).
  destruct (remove_ok fuel m2 k Hwf2 Hk) as (mr & rr & Er & Hr).
  exists p, m2, (retired s p). rewrite Hp in E.
  split; [done |]. split; [done |]. split; [| split; [done |]].
  { unfold hihat_a_get, hihat_a_store_get. unfold current_store in Hcur.
    fold self in Hcur |- *. rewrite Hcur. cbn [mbind option_bind].
    apply get_loop_retired, Hwfs. }
  destruct (find_loop_retired s p k (wf_sized s Hwfs)) as (fb & Efb & Hfb).
  split; [| split; [| by rewrite Ex, Er]].
  - remember (S fuel) as f eqn:Hf. cbn [hihat_a_store_replace].
    rewrite Hold. cbn [mbind option_bind]. rewrite Efb.
    cbn [mbind option_bind]. destruct fb as [j |].
    + destruct Hfb as (b & Hb & Hmov). rewrite Hb. cbn [mbind option_bind].
      rewrite Hmov, Hhelp. cbn [mbind option_bind].
      unfold hihat_a_replace. by rewrite Hp.
    + assert (table_content m2 k = None) as Hnone.
      { by rewrite (table_content_eq m2 ns k Hcur2), Hsame. }
      subst f. rewrite Ex. pose proof (xp_res _ _ _ _ _ Hx) as Hres.
      rewrite Hnone in Hres. simpl in Hres. subst rx.
      by rewrite (xp_same _ _ _ _ _ Hx Hnone).
  - remember (S fuel) as f eqn:Hf. cbn [hihat_a_store_remove].
    rewrite Hold. cbn [mbind option_bind]. rewrite Efb.
    cbn [mbind option_bind]. destruct fb as [j |].
    + destruct Hfb as (b & Hb & Hmov). rewrite Hb. cbn [mbind option_bind].
      rewrite Hmov, Hhelp. cbn [mbind option_bind].
      unfold hihat_a_remove. by rewrite Hp.
    + assert (table_content m2 k = None) as Hnone.
      { by rewrite (table_content_eq m2 ns k Hcur2), Hsame. }
      subst f. rewrite Er. pose proof (rp_res _ _ _ _ Hr) as Hres.
      rewrite Hnone in Hres. simpl in Hres. subst rr.
      by rewrite (rp_same _ _ _ _ Hr Hnone).
Qed.

(** *** The load of the current store *)

Lemma count_if_insert_same f (l : list hihat_bucket_t) j b b' :
  l !! j = Some b → f b' = f b → count_if f (<[j := b']> l) = count_if f l.
Proof.
  revert j. induction l as [| a l IH]; intros j Hj Hf; [done |].
  destruct j as [| j]; simpl in *.
  - injection Hj as ->. by rewrite !count_if_cons, Hf.
  - by rewrite !count_if_cons, (IH j).
Qed.

Lemma load_ok_same s s' j b b' :
  load_ok s → used_count s' = used_count s → threshold s' = threshold s →
  buckets s !! j = Some b → buckets s' = <[j := b']> (buckets s) →
  reserved b' = reserved b → load_ok s'.
Proof.
  intros [H1 H2 H3] Hu Ht Hb Hbs Hr.
  pose proof (count_if_insert_same reserved _ j b b' Hb Hr) as Hc.
  rewrite <- Hbs in Hc. split; rewrite ?Hu, ?Ht, ?Hc; done.
Qed.

Lemma load_ok_record s j b r :
  load_ok s → buckets s !! j = Some b →
  load_ok (set_bucket s j (set_record b r)).
Proof. intros Hl Hb. by apply (load_ok_same s _ j b (set_record b r)). Qed.

Lemma load_ok_claimed s j bj k :
  load_ok s → (used_count s < threshold s)%Z →
  buckets s !! j = Some bj → hv bj = 0%Z → k ≠ 0%Z →
  load_ok (claimed s j k).
Proof.
  intros [H1 H2 H3] Hlt Hb H0 Hk.
  assert (count_if reserved (buckets (claimed s j k))
          = S (count_if reserved (buckets s))) as Hc.
  { cbn [claimed buckets set_used_count set_bucket set_buckets].
    apply (count_if_insert reserved _ j bj); [done | |];
      unfold reserved, hatrack_bucket_unreserved; simpl.
    - by rewrite H0.
    - by destruct (Z.eqb_spec k 0). }
  assert (0 ≤ wrap64 (used_count s + 1) ≤ used_count s + 1)%Z as Hw.
  { unfold wrap64. split; [apply Z.mod_pos_bound; lia |].
    apply Z.mod_le; lia. }
  split; rewrite ?Hc;
    cbn [claimed used_count threshold set_used_count set_bucket set_buckets].
  - lia.
  - lia.
  - unfold wrap64 in *. rewrite Z.mod_mod by lia.
    rewrite Nat2Z.inj_succ, <- Z.add_1_r.
    rewrite <- (Zplus_mod_idemp_l (used_count s)), H3.
    by rewrite Zplus_mod_idemp_l.
Qed.

(** The store an acquiring probe hands to [found_bucket] keeps the load. *)
Lemma acquire_load s k s1 j :
  wf_store s → load_ok s → k ≠ 0%Z →
  acquire_loop s k (S (last_slot s)) (hatrack_bucket_index k (last_slot s))
    = Some (found_bucket s1 j) →
  load_ok s1.
Proof.
  intros Hwf Hl Hk.
  rewrite (acquire_loop_probe s k _ _ (wf_sized s Hwf)
             (index_lt s k (wf_sized s Hwf)) (wf_unres s Hwf)).
  destruct (probe s k _ _) as [j0 |]; [| done].
  destruct (buckets s !! j0) as [b |] eqn:Hb; [| done].
  unfold hatrack_bucket_unreserved.
  destruct (Z.eqb_spec (hv b) 0) as [E0 | E0]; [| by intros [= <- _]].
  destruct (Z.geb_spec (used_count s) (threshold s)) as [? | Hlt]; [done |].
  intros [= <- _]. by apply (load_ok_claimed s j0 b k).
Qed.

(** A migration leaves a store whose [used_count] is the number of its
    reserved buckets, which are its live buckets. *)
Lemma migrate_tidy m s :
  current_store m = Some s → wf_store s →
  epochs_ok s (next_epoch (top m)) → (0 < next_epoch (top m) ≤ 2 ^ 62)%Z →
  ∃ m2 ns,
    hihat_a_store_migrate (store_current (top m)) m =
      Some (store_current (top m2), m2) ∧
    wf m2 ∧ current_store m2 = Some ns ∧ has_room ns ∧
    (∀ k, k ≠ 0%Z → content ns k = content s k) ∧
    top m2 = mk_top (length (stores m)) (item_count (top m)) (next_epoch (top m)) ∧
    used_count ns = Z.of_nat (count_if live (buckets s)) ∧
    count_if reserved (buckets ns) = count_if live (buckets s) ∧
    ∀ j b, buckets ns !! j = Some b → reserved b = live b.
Proof.
  intros Hcur Hwfs Hep Hne.
  destruct (migrate_memory m s Hcur Hwfs Hep Hne)
    as (m2 & ns & E & Hwf2 & Hcur2 & Hroom & Hsame & Htop & Hst).
  destruct (migrate_spec m s Hcur Hwfs)
    as (ns1 & E1 & _ & Hused & _ & _ & Hfrom & _).
  rewrite E in E1. injection E1 as _ Hm2.
  assert (ns1 = ns) as ->.
  { rewrite Hm2 in Hcur2. unfold current_store in Hcur2.
    cbn [top stores store_current] in Hcur2.
    rewrite lookup_app_r in Hcur2 by (rewrite length_insert; lia).
    rewrite length_insert, Nat.sub_diag in Hcur2. by injection Hcur2. }
  destruct (wf_current_store m2 ns Hwf2 Hcur2) as [Hwfn _].
  assert (∀ j b, buckets ns !! j = Some b → reserved b = live b) as Hrl.
  { intros j b Hb. unfold reserved, hatrack_bucket_unreserved.
    destruct (Z.eqb_spec (hv b) 0) as [E0 | E0]; simpl.
    - unfold live. by rewrite (wf_unres ns Hwfn j b Hb E0).
    - by destruct (Hfrom j b Hb E0) as (i & _ & ->). }
  exists m2, ns. repeat (split; [done |]). split; [| done].
  rewrite (count_if_ext reserved live _ Hrl).
  apply count_same; [done.. |]. intros k Hk. by rewrite Hsame.
Qed.

Lemma migrate_load m s :
  current_store m = Some s → wf_store s →
  epochs_ok s (next_epoch (top m)) → (0 < next_epoch (top m) ≤ 2 ^ 62)%Z →
  ∃ m2 ns,
    hihat_a_store_migrate (store_current (top m)) m =
      Some (store_current (top m2), m2) ∧
    wf m2 ∧ current_store m2 = Some ns ∧ has_room ns ∧ load_ok ns ∧
    next_epoch (top m2) = next_epoch (top m).
Proof.
  intros Hcur Hwfs Hep Hne.
  destruct (migrate_tidy m s Hcur Hwfs Hep Hne)
    as (m2 & ns & E & Hwf2 & Hcur2 & Hroom & _ & Htop & Hu & Hc & _).
  exists m2, ns. repeat (split; [done |]). split; [| by rewrite Htop].
  destruct Hroom as [Hlt _]. split; rewrite ?Hc, Hu; (done || lia).
Qed.

Lemma put_direct_load fuel m s s1 j k v :
  wf m → current_store m = Some s → load_ok s → k ≠ 0%Z →
  acquire_loop s k (S (last_slot s)) (hatrack_bucket_index k (last_slot s))
    = Some (found_bucket s1 j) →
  ∃ m' res,
    hihat_a_store_put (S fuel) (store_current (top m)) m k v = Some (m', res) ∧
    table_load_ok m'.
Proof.
  intros Hwfm Hcur Hl Hk Hacq.
  destruct (wf_current_store m s Hwfm Hcur) as [Hwf _].
  pose proof (acquire_load s k s1 j Hwf Hl Hk Hacq) as Hl1.
  destruct (acquire_outcome s k Hwf Hk) as (a & Ha & Hwf1 & _ & _ & Hfound).
  rewrite Hacq in Ha. injection Ha as <-. simpl in Hwf1.
  destruct Hfound as (_ & b1 & Hb1 & _).
  pose proof (wf_info s1 Hwf1 j b1 Hb1) as Hp.
  unfold current_store in Hcur.
  pose proof (lookup_lt_Some _ _ _ Hcur) as Hlt.
  rewrite (put_found fuel m s s1 j b1 k v Hcur Hacq Hb1 Hp).
  destruct (has_epoch (record b1)); eexists _, _; (split; [done |]);
    eexists; (split; [unfold current_store; simpl;
                      by apply list_lookup_insert_eq |]);
    by apply load_ok_record.
Qed.

Lemma put_load fuel m k v :
  wf m → table_load_ok m → k ≠ 0%Z → (next_epoch (top m) < 2 ^ 62)%Z →
  ∃ m' res,
    hihat_a_put (S (S fuel)) m k v = Some (m', res) ∧ table_load_ok m'.
Proof.
  intros Hwfm (s & Hcur & Hl) Hk Hroom.
  destruct (wf_current_store m s Hwfm Hcur) as [Hwf Hep].
  destruct (acquire_outcome s k Hwf Hk) as (a & Ha & Hwf1 & _ & He1 & Hfound).
  unfold hihat_a_put. destruct a as [s1 j | s1].
  { by apply (put_direct_load (S fuel) m s s1 j). }
  simpl in Hwf1, He1.
  pose proof Hcur as Hcur0. unfold current_store in Hcur0.
  pose proof (lookup_lt_Some _ _ _ Hcur0) as Hlt.
  set (m1 := set_store m (store_current (top m)) s1).
  destruct (migrate_load m1 s1)
    as (m2 & ns & E & Hwf2 & Hcur2 & Hroom2 & Hl2 & Hne2).
  { by apply set_store_current. }
  { done. }
  { by apply He1. }
  { apply Hwfm. }
  cbn [m1 set_store top stores] in E, Hne2.
  destruct (wf_current_store m2 ns Hwf2 Hcur2) as [Hwfn _].
  destruct (acquire_outcome ns k Hwfn Hk) as (a & Ha2 & _ & _ & _ & Hfound2).
  destruct a as [ns1 j2 | ns1]; [| by destruct Hfound2].
  destruct (put_direct_load fuel m2 ns ns1 j2 k v)
    as (m' & res & E' & Hl'); try done.
  exists m', res. split; [| done].
  rewrite (put_retry _ _ _ s s1) by done. fold m1.
  rewrite E. cbn [mbind option_bind]. exact E'.
Qed.

Lemma add_direct_load fuel m s s1 j k v :
  wf m → current_store m = Some s → load_ok s → k ≠ 0%Z →
  acquire_loop s k (S (last_slot s)) (hatrack_bucket_index k (last_slot s))
    = Some (found_bucket s1 j) →
  ∃ m' res,
    hihat_a_store_add (S fuel) (store_current (top m)) m k v = Some (m', res) ∧
    table_load_ok m'.
Proof.
  intros Hwfm Hcur Hl Hk Hacq.
  destruct (wf_current_store m s Hwfm Hcur) as [Hwf _].
  pose proof (acquire_load s k s1 j Hwf Hl Hk Hacq) as Hl1.
  destruct (acquire_outcome s k Hwf Hk) as (a & Ha & Hwf1 & _ & _ & Hfound).
  rewrite Hacq in Ha. injection Ha as <-. simpl in Hwf1.
  destruct Hfound as (_ & b1 & Hb1 & _).
  pose proof (wf_info s1 Hwf1 j b1 Hb1) as Hp.
  unfold current_store in Hcur.
  pose proof (lookup_lt_Some _ _ _ Hcur) as Hlt.
  rewrite (add_found fuel m s s1 j b1 k v Hcur Hacq Hb1 Hp).
  destruct (negb (info (record b1) =? 0)%Z); eexists _, _; (split; [done |]);
    eexists; (split; [unfold current_store; simpl;
                      by apply list_lookup_insert_eq |]);
    (done || by apply load_ok_record).
Qed.

Lemma add_load fuel m k v :
  wf m → table_load_ok m → k ≠ 0%Z → (next_epoch (top m) < 2 ^ 62)%Z →
  ∃ m' res,
    hihat_a_add (S (S fuel)) m k v = Some (m', res) ∧ table_load_ok m'.
Proof.
  intros Hwfm (s & Hcur & Hl) Hk Hroom.
  destruct (wf_current_store m s Hwfm Hcur) as [Hwf Hep].
  destruct (acquire_outcome s k Hwf Hk) as (a & Ha & Hwf1 & _ & He1 & Hfound).
  unfold hihat_a_add. destruct a as [s1 j | s1].
  { by apply (add_direct_load (S fuel) m s s1 j). }
  simpl in Hwf1, He1.
  pose proof Hcur as Hcur0. unfold current_store in Hcur0.
  pose proof (lookup_lt_Some _ _ _ Hcur0) as Hlt.
  set (m1 := set_store m (store_current (top m)) s1).
  destruct (migrate_load m1 s1)
    as (m2 & ns & E & Hwf2 & Hcur2 & Hroom2 & Hl2 & Hne2).
  { by apply set_store_current. }
  { done. }
  { by apply He1. }
  { apply Hwfm. }
  cbn [m1 set_store top stores] in E, Hne2.
  destruct (wf_current_store m2 ns Hwf2 Hcur2) as [Hwfn _].
  destruct (acquire_outcome ns k Hwfn Hk) as (a & Ha2 & _ & _ & _ & Hfound2).
  destruct a as [ns1 j2 | ns1]; [| by destruct Hfound2].
  destruct (add_direct_load fuel m2 ns ns1 j2 k v)
    as (m' & res & E' & Hl'); try done.
  exists m', res. split; [| done].
  rewrite (add_retry _ _ _ s s1) by done. fold m1.
  rewrite E. cbn [mbind option_bind]. exact E'.
Qed.

Lemma remove_load fuel m k :
  wf m → table_load_ok m → k ≠ 0%Z →
  ∃ m' res,
    hihat_a_remove (S fuel) m k = Some (m', res) ∧ table_load_ok m'.
Proof.
  intros Hwfm (s & Hcur & Hl) Hk. unfold hihat_a_remove.
  destruct (wf_current_store m s Hwfm Hcur) as [Hwf _].
  assert (table_load_ok m) as Hm by (by exists s).
  unfold current_store in Hcur.
  pose proof (lookup_lt_Some _ _ _ Hcur) as Hlt.
  cbn [hihat_a_store_remove]. rewrite Hcur. cbn [mbind option_bind].
  rewrite find_loop_probe; [| apply Hwf | apply index_lt, Hwf].
  fold (slot_of s k). cbn [mbind option_bind].
  destruct (slot_of s k) as [j |] eqn:Hslot; [| by eexists _, _].
  destruct (slot_of_Some _ _ _ Hslot) as (b & Hb & Hstop). rewrite Hb.
  destruct (hatrack_bucket_unreserved (hv b)); [by eexists _, _ |].
  rewrite Hb. cbn [mbind option_bind].
  rewrite (plain_not_moving _ (wf_info s Hwf j b Hb)).
  destruct (info (record b) =? 0)%Z; [by eexists _, _ |].
  rewrite LCAS_record_same.
  eexists _, _. split; [done |]. eexists.
  split; [unfold current_store; simpl; by apply list_lookup_insert_eq |].
  by apply load_ok_record.
Qed.

Lemma replace_load fuel m k v :
  wf m → table_load_ok m → k ≠ 0%Z →
  ∃ m' res,
    hihat_a_replace (S fuel) m k v = Some (m', res) ∧ table_load_ok m'.
Proof.
  intros Hwfm (s & Hcur & Hl) Hk. unfold hihat_a_replace.
  destruct (wf_current_store m s Hwfm Hcur) as [Hwf _].
  assert (table_load_ok m) as Hm by (by exists s).
  unfold current_store in Hcur.
  pose proof (lookup_lt_Some _ _ _ Hcur) as Hlt.
  cbn [hihat_a_store_replace]. rewrite Hcur. cbn [mbind option_bind].
  rewrite find_loop_probe; [| apply Hwf | apply index_lt, Hwf].
  fold (slot_of s k). cbn [mbind option_bind].
  destruct (slot_of s k) as [j |] eqn:Hslot; [| by eexists _, _].
  destruct (slot_of_Some _ _ _ Hslot) as (b & Hb & Hstop). rewrite Hb.
  destruct (hatrack_bucket_unreserved (hv b)); [by eexists _, _ |].
  rewrite Hb. cbn [mbind option_bind].
  rewrite (plain_not_moving _ (wf_info s Hwf j b Hb)).
  destruct (info (record b) =? 0)%Z; [by eexists _, _ |].
  rewrite LCAS_record_same.
  eexists _, _. split; [done |]. eexists.
  split; [unfold current_store; simpl; by apply list_lookup_insert_eq |].
  by apply load_ok_record.
Qed.

(** Every call keeps the load of the current store. *)
Lemma call_keeps_load fuel m op m' r :
  wf m → table_load_ok m → op_valid op → (next_epoch (top m) < 2 ^ 62)%Z →
  hihat_a_call (S (S fuel)) m op = Some (m', r) → table_load_ok m'.
Proof.
  intros Hwf Hl Hv Hroom.
  destruct op as [k | k v | k v | k v | k | | sort];
    unfold op_valid in Hv; simpl in Hv; cbn [hihat_a_call].
  - destruct (hihat_a_get m k) as [[? ?] |]; [| done]. by intros [= <- _].
  - destruct (put_load fuel m k v Hwf Hl Hv Hroom) as (m1 & [o f] & E & Hl1).
    rewrite E. simpl. by intros [= <- _].
  - destruct (replace_load (S fuel) m k v Hwf Hl Hv) as (m1 & [o f] & E & Hl1).
    rewrite E. simpl. by intros [= <- _].
  - destruct (add_load fuel m k v Hwf Hl Hv Hroom) as (m1 & ok & E & Hl1).
    rewrite E. simpl. by intros [= <- _].
  - destruct (remove_load (S fuel) m k Hwf Hl Hv) as (m1 & [o f] & E & Hl1).
    rewrite E. simpl. by intros [= <- _].
  - by intros [= <- _].
  - destruct (hihat_a_view m sort) as [[? ?] |]; [| done]. by intros [= <- _].
Qed.

Lemma run_keeps_load fuel m ops :
  wf m → table_load_ok m → Forall op_valid ops →
  (next_epoch (top m) + Z.of_nat (length ops) ≤ 2 ^ 62)%Z →
  ∃ m', hihat_a_run (S (S fuel)) m ops = Some m' ∧ wf m' ∧ table_load_ok m'.
Proof.
  revert m. induction ops as [| op ops IH]; intros m Hwf Hl Hv Hroom.
  { by exists m. }
  apply Forall_cons in Hv as [Hop Hv]. simpl in Hroom.
  destruct (call_ok fuel m op Hwf Hop) as (m1 & r & E & Hwf1 & Hne & _); [lia |].
  destruct (IH m1 Hwf1) as (m' & E' & Hwf' & Hl'); [| done | lia |].
  { apply (call_keeps_load fuel m op m1 r); try done. lia. }
  exists m'. cbn [hihat_a_run]. rewrite E. cbn [mbind option_bind].
  by rewrite E'.
Qed.

(** X18: [used_count] counts the reserved buckets and stays within the
    threshold.  After any run of calls on the table [init] makes,
    [used_count] of the current store is between 0 and [threshold]; it is
    the number of reserved buckets (the buckets that hold a hash, with a
    live item or a removed one) as a 64-bit number, and is that number
    when the store has fewer than 2^64 buckets.  The threshold of the
    first store is not negative. *)
Theorem used_count_counts_the_reserved_buckets fuel ops :
  (0 ≤ hatrack_compute_table_threshold HATRACK_MIN_SIZE)%Z →
  Forall op_valid ops → (1 + Z.of_nat (length ops) ≤ 2 ^ 62)%Z →
  ∃ m s,
    hihat_a_run (S (S fuel)) hihat_a_init ops = Some m ∧
    current_store m = Some s ∧
    (0 ≤ used_count s ≤ threshold s)%Z ∧
    wrap64 (used_count s) = wrap64 (Z.of_nat (count_if reserved (buckets s))) ∧
    ((Z.of_nat (length (buckets s)) < 2 ^ 64)%Z →
     used_count s = Z.of_nat (count_if reserved (buckets s))).
Proof.
  intros Hthr Hv Hroom.
  assert (table_load_ok hihat_a_init) as Hl0.
  { eexists. split; [done |].
    split; cbn [hihat_a_store_new used_count threshold buckets];
      rewrite ?count_if_reserved_zero; (done || lia). }
  destruct (run_keeps_load fuel hihat_a_init ops wf_init Hl0 Hv)
    as (m & E & Hwf & s & Hcur & [H1 H2 H3]); [simpl; lia |].
  exists m, s. repeat (split; [done |]). intros Hlen.
  pose proof (count_if_le_length reserved (buckets s)) as Hle.
  rewrite !wrap64_small in H3 by lia. done.
Qed.

(** *** The sorted view and the order of insertion *)

Lemma unstamp_del (T : stamped_t) k :
  fst <$> stamped_del T k = dict_del (fst <$> T) k.
Proof.
  induction T as [| [[k0 v0] e0] T IH]; [done |].
  unfold stamped_del, dict_del in *. simpl.
  destruct (k0 =? k)%Z; cbn [negb]; [exact IH |].
  rewrite fmap_cons. f_equal. exact IH.
Qed.

Lemma unstamp_set (T : stamped_t) k v :
  fst <$> stamped_set T k v = dict_set (fst <$> T) k v.
Proof.
  unfold stamped_set, dict_set. rewrite <- !list_fmap_compose.
  apply list_fmap_ext. intros i [[k0 v0] e0] _. simpl.
  by destruct (k0 =? k)%Z.
Qed.

Lemma unstamp_step (T : stamped_t) op ne :
  fst <$> stamped_step T op ne = dict_step (fst <$> T) op.
Proof.
  destruct op as [k | k v | k v | k v | k | |]; simpl; try done.
  - destruct (dict_has _ k); [apply unstamp_set | by rewrite fmap_app].
  - destruct (dict_has _ k); [apply unstamp_set | done].
  - destruct (dict_has _ k); [done | by rewrite fmap_app].
  - apply unstamp_del.
Qed.

Lemma stamped_has m (T : stamped_t) k :
  stamped_ok m T → k ≠ 0%Z →
  dict_has (fst <$> T) k =
    match table_content m k with Some _ => true | None => false end.
Proof.
  intros [_ Hel] Hk. unfold dict_has.
  destruct (table_content m k) as [[v e] |] eqn:Ec.
  - apply existsb_exists. exists (k, v). split; [| apply Z.eqb_refl].
    apply list_elem_of_In, list_elem_of_fmap. exists (k, v, e).
    split; [done |]. by apply Hel.
  - destruct (existsb _ _) eqn:Ex; [| done].
    apply existsb_exists in Ex as ([k0 v0] & Hin & Heq).
    apply list_elem_of_In, list_elem_of_fmap in Hin
      as ([[k1 v1] e1] & [= <- <-] & Hin).
    simpl in Heq. apply Z.eqb_eq in Heq as ->.
    apply Hel in Hin as [_ Hc]. congruence.
Qed.

Lemma sorted_filter {A} (R : relation A) (f : A → bool) (l : list A) :
  StronglySorted R l → StronglySorted R (List.filter f l).
Proof.
  induction l as [| a l IH]; [done |].
  intros [Hall Hs]%StronglySorted_cons. simpl.
  destruct (f a); [| by apply IH].
  apply StronglySorted_cons. split; [| by apply IH].
  rewrite Forall_forall in Hall |- *. intros x Hx. apply Hall.
  apply list_elem_of_In, filter_In in Hx as [Hx _]. by apply list_elem_of_In.
Qed.

(** The dictionary after an overwrite, after an insertion and after a
    removal. *)
Lemma stamped_ok_set m m' (T : stamped_t) k v r0 :
  stamped_ok m T → k ≠ 0%Z → table_content m k = Some r0 →
  table_content m' k = Some (mk_record v (info r0)) →
  (∀ k', k' ≠ k → k' ≠ 0%Z → table_content m' k' = table_content m k') →
  stamped_ok m' (stamped_set T k v).
Proof.
  intros [Hs Hel] Hk Ec Enew Hframe. split.
  - unfold stamped_set. apply (StronglySorted_fmap _ stamp_before); [| done].
    intros [[k1 v1] e1] [[k2 v2] e2]. unfold stamp_before. simpl.
    by destruct (k1 =? k)%Z, (k2 =? k)%Z.
  - intros k' v' e'. unfold stamped_set. rewrite list_elem_of_fmap. split.
    + intros ([[k0 v0] e0] & Heq & Hin). simpl in Heq.
      apply Hel in Hin as [Hk0 Hc0].
      destruct (Z.eqb_spec k0 k) as [-> | Hne]; injection Heq as -> -> ->.
      * split; [done |]. rewrite Enew. rewrite Ec in Hc0. by injection Hc0 as ->.
      * split; [done |]. by rewrite Hframe.
    + intros [Hk' Hc]. destruct (Z.eq_dec k' k) as [-> | Hne].
      * rewrite Enew in Hc. injection Hc as <- <-.
        exists (k, item r0, info r0). simpl. rewrite Z.eqb_refl.
        split; [done |]. apply Hel. split; [done |]. by destruct r0.
      * exists (k', v', e'). simpl.
        destruct (Z.eqb_spec k' k) as [? | _]; [done |].
        split; [done |]. apply Hel. split; [done |]. by rewrite <- Hframe.
Qed.

Lemma stamped_ok_app m m' (T : stamped_t) k v :
  wf m → stamped_ok m T → k ≠ 0%Z → table_content m k = None →
  table_content m' k = Some (mk_record v (next_epoch (top m))) →
  (∀ k', k' ≠ k → k' ≠ 0%Z → table_content m' k' = table_content m k') →
  stamped_ok m' (T ++ [(k, v, next_epoch (top m))]).
Proof.
  intros Hwf [Hs Hel] Hk Ec Enew Hframe. split.
  - apply StronglySorted_app_2; [| done | repeat constructor].
    intros [[k1 v1] e1] x2 H1 ->%list_elem_of_singleton.
    apply Hel in H1 as [Hk1 Hc1]. unfold stamp_before. simpl.
    pose proof (content_epoch_lt m k1 _ Hwf Hk1 Hc1). simpl in *. lia.
  - intros k' v' e'. rewrite elem_of_app, list_elem_of_singleton, Hel. split.
    + intros [[Hk' Hc] | [= -> -> ->]]; [| done].
      split; [done |]. rewrite Hframe; [done | congruence | done].
    + intros [Hk' Hc]. destruct (Z.eq_dec k' k) as [-> | Hne].
      * right. rewrite Enew in Hc. by injection Hc as <- <-.
      * left. split; [done |]. by rewrite <- Hframe.
Qed.

Lemma stamped_ok_del m m' (T : stamped_t) k :
  stamped_ok m T → table_content m' k = None →
  (∀ k', k' ≠ k → k' ≠ 0%Z → table_content m' k' = table_content m k') →
  stamped_ok m' (stamped_del T k).
Proof.
  intros [Hs Hel] Egone Hframe. split; [by apply sorted_filter |].
  intros k' v' e'. unfold stamped_del.
  rewrite list_elem_of_In, filter_In, <- list_elem_of_In, Hel. simpl. split.
  - intros [[Hk' Hc] Hne%negb_true_iff%Z.eqb_neq].
    split; [done |]. by rewrite Hframe.
  - intros [Hk' Hc]. destruct (Z.eqb_spec k' k) as [-> | Hne]; [congruence |].
    split; [| done]. split; [done |]. by rewrite <- Hframe.
Qed.

Lemma stamped_ok_same m m' (T : stamped_t) :
  stamped_ok m T → (∀ k, table_content m' k = table_content m k) →
  stamped_ok m' T.
Proof.
  intros [Hs Hel] Hsame. split; [done |]. intros k v e. by rewrite Hsame.
Qed.

(** One call on the table and on the dictionary. *)
Lemma call_stamped fuel m op (T : stamped_t) :
  wf m → stamped_ok m T → op_valid op → (next_epoch (top m) < 2 ^ 62)%Z →
  ∃ m' r,
    hihat_a_call (S (S fuel)) m op = Some (m', r) ∧ wf m' ∧
    (next_epoch (top m') ≤ next_epoch (top m) + 1)%Z ∧
    stamped_ok m' (stamped_step T op (next_epoch (top m))).
Proof.
  intros Hwf Hok Hv Hroom.
  destruct (call_ok fuel m op Hwf Hv Hroom) as (m' & r & E & Hwf' & Hne & _).
  exists m', r. split; [done |]. split; [done |]. split; [done |].
  destruct op as [k | k v | k v | k v | k | | sort];
    unfold op_valid in Hv; simpl in Hv, E; cbn [stamped_step].
  - destruct (hihat_a_get m k) as [[? ?] |]; [| done]. by injection E as <- _.
  - destruct (put_ok fuel m k v Hwf Hv) as (m1 & [o f] & E1 & Hp); [done |].
    rewrite E1 in E. simpl in E. injection E as <- _.
    rewrite (stamped_has m T k Hok Hv).
    pose proof (pp_new _ _ _ _ _ Hp) as Hnew.
    destruct (table_content m k) as [r0 |] eqn:Ec.
    + by apply (stamped_ok_set m m1 T k v r0 Hok Hv Ec Hnew), Hp.
    + by apply (stamped_ok_app m m1 T k v Hwf Hok Hv Ec Hnew), Hp.
  - destruct (replace_ok (S fuel) m k v Hwf Hv) as (m1 & [o f] & E1 & Hp).
    rewrite E1 in E. simpl in E. injection E as <- _.
    rewrite (stamped_has m T k Hok Hv).
    pose proof (xp_new _ _ _ _ _ Hp) as Hnew.
    destruct (table_content m k) as [r0 |] eqn:Ec.
    + by apply (stamped_ok_set m m1 T k v r0 Hok Hv Ec Hnew), Hp.
    + by rewrite (xp_same _ _ _ _ _ Hp Ec).
  - destruct (add_ok fuel m k v Hwf Hv) as (m1 & ok & E1 & Hp); [done |].
    rewrite E1 in E. simpl in E. injection E as <- _.
    rewrite (stamped_has m T k Hok Hv).
    pose proof (ap_res _ _ _ _ _ Hp) as Hres.
    destruct (table_content m k) as [r0 |] eqn:Ec; simpl in Hres; subst ok.
    + by rewrite (ap_same _ _ _ _ _ Hp eq_refl).
    + destruct (ap_new _ _ _ _ _ Hp eq_refl) as (Hnew & _).
      by apply (stamped_ok_app m m1 T k v Hwf Hok Hv Ec Hnew), Hp.
  - destruct (remove_ok (S fuel) m k Hwf Hv) as (m1 & [o f] & E1 & Hp).
    rewrite E1 in E. simpl in E. injection E as <- _.
    by apply (stamped_ok_del m m1 T k Hok (rp_gone _ _ _ _ Hp)), Hp.
  - by injection E as <- _.
  - destruct (hihat_a_view m sort) as [[? ?] |]; [| done]. by injection E as <- _.
Qed.

Lemma run_stamped fuel m ops (T : stamped_t) :
  wf m → stamped_ok m T → Forall op_valid ops →
  (next_epoch (top m) + Z.of_nat (length ops) ≤ 2 ^ 62)%Z →
  ∃ m' T',
    hihat_a_run (S (S fuel)) m ops = Some m' ∧ wf m' ∧ stamped_ok m' T' ∧
    fst <$> T' = foldl dict_step (fst <$> T) ops.
Proof.
  revert m T. induction ops as [| op ops IH]; intros m T Hwf Hok Hv Hroom.
  { by exists m, T. }
  apply Forall_cons in Hv as [Hop Hv]. simpl in Hroom.
  destruct (call_stamped fuel m op T Hwf Hok Hop)
    as (m1 & r & E & Hwf1 & Hne & Hok1); [lia |].
  destruct (IH m1 _ Hwf1 Hok1 Hv) as (m' & T' & E' & Hwf' & Hok' & HT); [lia |].
  exists m', T'. cbn [hihat_a_run]. rewrite E. cbn [mbind option_bind].
  split; [done |]. split; [done |]. split; [done |].
  simpl. by rewrite HT, unstamp_step.
Qed.

Lemma sorted_nodup {A} (R : relation A) (l : list A) :
  (∀ x, ¬ R x x) → StronglySorted R l → NoDup l.
Proof.
  intros Hirr. induction l as [| a l IH]; [constructor |].
  intros [Hall Hs]%StronglySorted_cons. apply NoDup_cons. split; [| by apply IH].
  intros Hin. rewrite Forall_forall in Hall. by apply (Hirr a), Hall.
Qed.

(** The sorted view of a table is its dictionary. *)
Lemma stamped_view_eq m s (T : stamped_t) :
  wf m → current_store m = Some s → stamped_ok m T →
  qsort hatrack_quicksort_cmp (omap view_of_bucket (buckets s))
  = stamped_view T.
Proof.
  intros Hwf Hcur [Hs Hel].
  assert (StronglySorted epoch_before (stamped_view T)) as Hsv.
  { unfold stamped_view. by apply (StronglySorted_fmap _ stamp_before). }
  apply (@StronglySorted_unique _ epoch_before epoch_before_antisym);
    [by apply (view_sorted_strict m s) | done |].
  rewrite (qsort_perm _).
  apply NoDup_Permutation; [by apply (view_nodup m s) | |].
  { apply (sorted_nodup epoch_before); [| done].
    intros x. unfold epoch_before. lia. }
  intros e. rewrite (view_entry_iff m s e Hwf Hcur).
  unfold stamped_view. rewrite list_elem_of_fmap. split.
  - intros (k & [v e0] & Hk & Ec & ->). exists (k, v, e0).
    split; [done |]. by apply Hel.
  - intros ([[k v] e0] & -> & [Hk Ec]%Hel). by exists k, (mk_record v e0).
Qed.

(** X19: The sorted view is the order of insertion.  After any run of
    calls on the table [init] makes, [view] with [sort = true] returns the
    items of an insertion-ordered dictionary on which the same calls were
    made: an overwrite ([put] on a live hash, [replace]) keeps the place of
    the hash, an insertion ([put] or [add] on a hash with no live item,
    also one that was removed before) goes to the end, and a [remove]
    takes the hash out.  [get] finds each item of the dictionary under its
    hash. *)
Theorem sorted_view_is_the_insertion_order fuel ops :
  Forall op_valid ops → (1 + Z.of_nat (length ops) ≤ 2 ^ 62)%Z →
  ∃ m n l,
    hihat_a_run (S (S fuel)) hihat_a_init ops = Some m ∧
    hihat_a_view m true = Some (n, l) ∧
    n = length (dict_run ops) ∧
    view_item <$> view_entries l = snd <$> dict_run ops ∧
    Forall (λ kv, hihat_a_get m kv.1 = Some (kv.2, true)) (dict_run ops).
Proof.
  intros Hv Hroom.
  assert (stamped_ok hihat_a_init []) as Hok0.
  { split; [constructor |]. intros k v e. split; [by intros ?%elem_of_nil |].
    intros [_ Hc]. pose proof (items_init k) as Hi. unfold items in Hi.
    by rewrite Hc in Hi. }
  destruct (run_stamped fuel hihat_a_init ops [] wf_init Hok0 Hv)
    as (m & T & E & Hwf & Hok & HT); [simpl; lia |].
  change (foldl dict_step (fst <$> []) ops) with (dict_run ops) in HT.
  destruct (wf_has_store m Hwf) as [s Hcur].
  exists m. rewrite (view_spec m s _ Hwf Hcur). cbn zeta.
  pose proof (stamped_view_eq m s T Hwf Hcur Hok) as Hq.
  assert (length (omap view_of_bucket (buckets s)) = length T) as Hlen.
  { rewrite <- (Permutation_length (qsort_perm _)), Hq.
    unfold stamped_view. by rewrite length_fmap. }
  eexists _, _. split; [done |]. split; [done |].
  rewrite <- HT, length_fmap, Hlen. split; [done |]. split.
  - rewrite Hq.
    assert (view_item <$> stamped_view T = snd <$> (fst <$> T)) as Hitems.
    { unfold stamped_view. rewrite <- !list_fmap_compose.
      apply list_fmap_ext. by intros i [[? ?] ?] _. }
    by destruct T.
  - apply Forall_forall.
    intros [k v] ([[k0 v0] e] & [= <- <-] & Hin)%list_elem_of_fmap.
    apply (so_elem m T Hok) in Hin as [Hk Ec]. simpl.
    by rewrite (get_ok m k Hwf), Ec.
Qed.

(** *** The end of the epoch counter *)

(** The bucket an acquiring probe ends at, below the threshold or under a
    hash that has its bucket. *)
Lemma acquire_in_place s k j bj :
  wf_store s → k ≠ 0%Z → slot_of s k = Some j → buckets s !! j = Some bj →
  hv bj = k ∨ (used_count s < threshold s)%Z →
  ∃ s1,
    acquire_loop s k (S (last_slot s)) (hatrack_bucket_index k (last_slot s))
      = Some (found_bucket s1 j) ∧
    buckets s1 !! j = Some (mk_bucket k (record bj)) ∧
    buckets s1 = <[j := mk_bucket k (record bj)]> (buckets s) ∧
    last_slot s1 = last_slot s.
Proof.
  intros Hwfs Hk Hslot Hbj Hcase.
  pose proof (acquire_loop_probe s k (S (last_slot s))
                (hatrack_bucket_index k (last_slot s)) (wf_sized s Hwfs)
                (index_lt s k (wf_sized s Hwfs)) (wf_unres s Hwfs)) as Hacq.
  fold (slot_of s k) in Hacq. rewrite Hslot, Hbj in Hacq.
  pose proof (lookup_lt_Some _ _ _ Hbj) as Hj.
  unfold hatrack_bucket_unreserved in Hacq.
  destruct (Z.eqb_spec (hv bj) 0) as [E0 | E0].
  - destruct Hcase as [Hkj | Hlt]; [congruence |].
    assert ((used_count s >=? threshold s)%Z = false) as Hge by lia.
    rewrite Hge in Hacq. eexists. split; [exact Hacq |].
    cbn [claimed buckets set_used_count set_bucket set_buckets last_slot].
    rewrite (wf_unres s Hwfs j bj Hbj E0).
    split; [by apply list_lookup_insert_eq | done].
  - assert (hv bj = k) as Hkj.
    { apply slot_of_Some in Hslot as (b & Hb & [? | ?]); congruence. }
    assert (mk_bucket k (record bj) = bj) as ->
      by (destruct bj; simpl in *; congruence).
    eexists. split; [exact Hacq |]. split; [done |].
    split; [by rewrite list_insert_id | done].
Qed.

(** X20: The epoch field ends at 2^62.  When [next_epoch] has reached
    2^62, a [put] that inserts writes the info word 2^62: its epoch bits
    are all zero and bit 62, a migration flag, is set.  The [put] returns
    the null item with [found = false] and counts the item in
    [item_count], but [get] does not find the item.  (The insertion
    completes in the store it started from: the hash has its bucket or the
    store is below its threshold.) *)
Theorem put_at_the_end_of_the_epochs_loses_the_item m s k v j bj :
  wf m → current_store m = Some s → k ≠ 0%Z →
  next_epoch (top m) = (2 ^ 62)%Z →
  slot_of s k = Some j → buckets s !! j = Some bj → live bj = false →
  hv bj = k ∨ (used_count s < threshold s)%Z →
  ∃ m' s',
    hihat_a_put 1 m k v = Some (m', (NULL, false)) ∧
    current_store m' = Some s' ∧
    buckets s' !! j = Some (mk_bucket k (mk_record v (2 ^ 62))) ∧
    has_epoch (mk_record v (2 ^ 62)) = false ∧
    hihat_a_get m' k = Some (NULL, false) ∧
    hihat_a_len m' = wrap64 (hihat_a_len m + 1).
Proof.
  intros Hwf Hcur Hk Hfull Hslot Hbj Hdead Hcase.
  destruct (wf_current_store m s Hwf Hcur) as [Hwfs _].
  destruct (acquire_in_place s k j bj Hwfs Hk Hslot Hbj Hcase)
    as (s1 & Hacq & Hb1 & Hbs1 & Hls1).
  pose proof (lookup_lt_Some _ _ _ Hbj) as Hj.
  unfold hihat_a_put. pose proof Hcur as Hcur0. unfold current_store in Hcur0.
  pose proof (lookup_lt_Some _ _ _ Hcur0) as Hlt.
  rewrite (put_found 0 m s s1 j _ k v Hcur0 Hacq Hb1)
    by apply (wf_info s Hwfs j bj Hbj).
  cbn [record]. unfold live in Hdead. rewrite Hdead, Hfull.
  set (b' := mk_bucket k (mk_record v (2 ^ 62))).
  set (s2 := set_bucket s1 j (set_record (mk_bucket k (record bj))
                                (mk_record v (2 ^ 62)))).
  assert (buckets s2 = <[j := b']> (buckets s)) as Hbs2.
  { unfold s2. cbn [buckets set_bucket set_buckets].
    by rewrite Hbs1, list_insert_insert_eq. }
  assert (buckets s2 !! j = Some b') as Hb2.
  { rewrite Hbs2. by apply list_lookup_insert_eq. }
  assert (slot_of s2 k = Some j) as Hslot2.
  { destruct (Z.eq_dec (hv bj) 0) as [E0 | E0].
    - assert (slot_of (set_bucket s j b') k = Some j) as <-.
      { apply (probe_claim s j bj b' k _ _ j Hbj E0 Hslot). by right. }
      apply slot_of_ext; [exact Hls1 |].
      intros i. by rewrite Hbs2.
    - assert (hv bj = k) as Hkj.
      { apply slot_of_Some in Hslot as (b & Hb & [? | ?]); congruence. }
      rewrite <- Hslot. apply slot_of_ext; [by rewrite <- Hls1 |].
      intros i. rewrite Hbs2. destruct (Nat.eq_dec i j) as [-> | Hne].
      + rewrite list_lookup_insert_eq, Hbj by done. simpl. by rewrite Hkj.
      + by rewrite list_lookup_insert_ne. }
  assert (sized s2) as Hsz.
  { destruct (wf_sized s Hwfs) as (n & Hl & Hlen). exists n.
    split; [by rewrite <- Hl, <- Hls1 |]. by rewrite Hbs2, length_insert. }
  eexists _, s2. split; [done |].
  split; [unfold current_store; simpl; by apply list_lookup_insert_eq |].
  split; [done |]. split; [done |]. split; [| done].
  unfold hihat_a_get. cbn [stores top store_current item_count_add
                             next_epoch_incr].
  rewrite list_lookup_insert_eq by done. cbn [mbind option_bind].
  rewrite (store_get_content s2 k Hsz). unfold content.
  rewrite Hslot2. cbn [mbind option_bind]. rewrite Hb2.
  cbn [mbind option_bind]. by destruct (reserved b').
Qed.

(** X21: [put] takes the all-zero hash for a hash.  Below the threshold,
    [put] under the all-zero hash claims the unreserved bucket its probe
    ends at (it stays unreserved), counts it in [used_count], writes the
    item there with a new epoch, returns the null item with
    [found = false] and counts the item in [item_count]; [view] lists the
    item, but [get] does not find it. *)
Theorem put_under_the_unreserved_hash_hides_the_item m s v j bj :
  wf m → current_store m = Some s →
  (next_epoch (top m) < 2 ^ 62)%Z → (used_count s < threshold s)%Z →
  slot_of s 0 = Some j → buckets s !! j = Some bj →
  ∃ m' s' n l,
    hihat_a_put 1 m 0 v = Some (m', (NULL, false)) ∧
    current_store m' = Some s' ∧
    buckets s' =
      <[j := mk_bucket 0 (mk_record v (next_epoch (top m)))]> (buckets s) ∧
    used_count s' = wrap64 (used_count s + 1) ∧
    hihat_a_len m' = wrap64 (hihat_a_len m + 1) ∧
    hihat_a_get m' 0 = Some (NULL, false) ∧
    hihat_a_view m' false = Some (n, Some l) ∧
    mk_view v (next_epoch (top m)) ∈ l.
Proof.
  intros Hwf Hcur Hroom Hlt Hslot Hbj.
  destruct (wf_current_store m s Hwf Hcur) as [Hwfs _].
  pose proof (wf_next_epoch m Hwf) as Hne.
  assert (hv bj = 0%Z) as E0.
  { apply slot_of_Some in Hslot as (b & Hb & [? | ?]); congruence. }
  pose proof (acquire_loop_probe s 0 (S (last_slot s))
                (hatrack_bucket_index 0 (last_slot s)) (wf_sized s Hwfs)
                (index_lt s 0 (wf_sized s Hwfs)) (wf_unres s Hwfs)) as Hacq.
  fold (slot_of s 0) in Hacq. rewrite Hslot, Hbj, E0 in Hacq.
  change (hatrack_bucket_unreserved 0) with true in Hacq. cbv iota in Hacq.
  assert ((used_count s >=? threshold s)%Z = false) as Hge by lia.
  rewrite Hge in Hacq.
  pose proof (lookup_lt_Some _ _ _ Hbj) as Hj.
  assert (buckets (claimed s j 0) !! j = Some (mk_bucket 0 (mk_record NULL 0)))
    as Hb1.
  { cbn [claimed buckets set_used_count set_bucket set_buckets].
    by apply list_lookup_insert_eq. }
  unfold hihat_a_put. pose proof Hcur as Hcur0. unfold current_store in Hcur0.
  pose proof (lookup_lt_Some _ _ _ Hcur0) as Hcl.
  rewrite (put_found 0 m s _ j _ 0 v Hcur0 Hacq Hb1) by (simpl; lia).
  change (has_epoch (record (mk_bucket 0 (mk_record NULL 0)))) with false.
  cbv iota.
  set (b' := mk_bucket 0 (mk_record v (next_epoch (top m)))).
  set (s2 := set_bucket (claimed s j 0) j
               (set_record (mk_bucket 0 (mk_record NULL 0))
                  (mk_record v (next_epoch (top m))))).
  assert (buckets s2 = <[j := b']> (buckets s)) as Hbs2.
  { unfold s2. cbn [claimed buckets set_used_count set_bucket set_buckets].
    by rewrite list_insert_insert_eq. }
  assert (sized s2) as Hsz.
  { destruct (wf_sized s Hwfs) as (n & Hl & Hlen). exists n.
    split; [done |]. by rewrite Hbs2, length_insert. }
  assert (view_of_bucket b' = Some (mk_view v (next_epoch (top m)))) as Hvb.
  { unfold view_of_bucket, b'. cbn [record item].
    rewrite plain_has_epoch, plain_epoch_of by (simpl; lia). simpl.
    by destruct (Z.eqb_spec (next_epoch (top m)) 0); [lia |]. }
  assert (mk_view v (next_epoch (top m)) ∈ omap view_of_bucket (buckets s2))
    as Hin.
  { apply list_elem_of_omap. exists b'. split; [| done].
    apply (list_elem_of_lookup_2 _ j). rewrite Hbs2.
    by apply list_lookup_insert_eq. }
  destruct (omap view_of_bucket (buckets s2)) as [| e es] eqn:El;
    [by apply elem_of_nil in Hin |].
  eexists _, s2, _, _. split; [done |].
  split; [unfold current_store; simpl; by apply list_lookup_insert_eq |].
  split; [done |]. split; [done |]. split; [done |].
  unfold hihat_a_get, hihat_a_view.
  cbn [stores top store_current item_count_add next_epoch_incr].
  rewrite list_lookup_insert_eq by done. cbn [mbind option_bind].
  rewrite (store_get_content s2 0 Hsz), content_zero. split; [done |].
  rewrite view_loop_spec by (by rewrite (sized_last_slot s2 Hsz)).
  rewrite drop_0, El. cbn [mbind option_bind length Nat.eqb].
  split; [reflexivity | exact Hin].
Qed.

(** *** Bounds and reachable tables *)

(** X16: A probe stays inside the bucket array.  In a store whose size is a
    power of two, [(bix + 1) & last_slot] is the next index modulo the
    size, so it is an index of the array; [get] reads no bucket outside
    the array, whatever the store holds; and in a store where every bucket
    is reserved for another hash, the loop bound ends the probe and [get]
    finds nothing. *)
Theorem probes_stay_inside_the_bucket_array s k bix :
  sized s → (bix < length (buckets s))%nat →
  next_bix s bix = ((bix + 1) mod length (buckets s))%nat ∧
  (next_bix s bix < length (buckets s))%nat ∧
  (∃ r, hihat_a_store_get s k = Some r) ∧
  ((∀ i b, buckets s !! i = Some b → hv b ≠ 0%Z ∧ hv b ≠ k) →
   hihat_a_store_get s k = Some (NULL, false)).
Proof.
  intros Hs Hbix. rewrite (next_bix_mod s bix Hs).
  split; [done |]. split; [apply Nat.mod_upper_bound; lia |].
  rewrite (store_get_content s k Hs). split; [by eexists |].
  intros Hfull. rewrite content_no_slot; [done |].
  destruct (slot_of s k) as [j |] eqn:Hslot; [| done].
  apply slot_of_Some in Hslot as (b & Hb & Hstop).
  destruct (Hfull j b Hb) as [H0 Hk]. by destruct Hstop.
Qed.

Lemma run_keeps_wf fuel m ops :
  wf m → Forall op_valid ops →
  (next_epoch (top m) + Z.of_nat (length ops) ≤ 2 ^ 62)%Z →
  ∃ m', hihat_a_run (S (S fuel)) m ops = Some m' ∧ wf m' ∧
        (next_epoch (top m) ≤ next_epoch (top m')
         ≤ next_epoch (top m) + Z.of_nat (length ops))%Z ∧
        (moved_implies_moving m → moved_implies_moving m').
Proof.
  revert m. induction ops as [| op ops IH]; intros m Hwf Hv Hroom.
  { exists m. split; [done |]. split; [done |]. split; [simpl; lia | done]. }
  apply Forall_cons in Hv as [Hop Hv]. simpl in Hroom.
  destruct (call_simulates fuel m op Hwf Hop) as (m1 & r & E & Hwf1 & Hne & _);
    [lia |].
  assert (next_epoch (top m) ≤ next_epoch (top m1))%Z as Hmono.
  { destruct op as [k | k v | k v | k v | k | | sort];
      unfold op_valid in Hop; simpl in Hop, E.
    - destruct (hihat_a_get m k) as [[? ?] |]; [| done].
      injection E as <- _. lia.
    - destruct (put_ok fuel m k v Hwf Hop) as (mp & rp & Ep & Hp); [lia |].
      rewrite Ep in E. destruct rp. injection E as <- _.
      rewrite (pp_epoch _ _ _ _ _ Hp). destruct (table_content m k); lia.
    - destruct (replace_ok (S fuel) m k v Hwf Hop) as (mp & rp & Ep & Hp).
      rewrite Ep in E. destruct rp. injection E as <- _.
      rewrite (xp_top _ _ _ _ _ Hp). lia.
    - destruct (add_ok fuel m k v Hwf Hop) as (mp & ok & Ep & Hp); [lia |].
      rewrite Ep in E. injection E as <- _. destruct ok.
      + destruct (ap_new _ _ _ _ _ Hp eq_refl) as (_ & -> & _). lia.
      + rewrite (ap_same _ _ _ _ _ Hp eq_refl). lia.
    - destruct (remove_ok (S fuel) m k Hwf Hop) as (mp & rp & Ep & Hp).
      rewrite Ep in E. destruct rp. injection E as <- _.
      rewrite (rp_epoch _ _ _ _ Hp). lia.
    - injection E as <- _. lia.
    - destruct (hihat_a_view m sort) as [[? ?] |]; [| done].
      injection E as <- _. lia. }
  destruct (IH m1 Hwf1 Hv) as (m' & E' & Hwf' & Hb & Hmim); [lia |].
  exists m'. cbn [hihat_a_run]. rewrite E. cbn [mbind option_bind].
  split; [done |]. split; [done |]. split; [simpl; lia |].
  intros Hm. apply Hmim.
  apply (call_keeps_invariants fuel m op m1 r Hwf Hm); [| done].
  destruct op; unfold op_valid in Hop; simpl in Hop |- *; try done;
    split; (done || lia).
Qed.

(** X17: The tables the interface makes are well formed.  Any run of calls on
    the table [init] makes returns, and in the table it leaves the size of
    the current store is a power of two and the length of its bucket
    array, every reserved bucket is the end of the probe path of its own
    hash (so no hash has two buckets), an unreserved bucket holds no
    record, no record of the current store carries a flag and no successor
    store is installed, the live epochs are pairwise distinct and below
    [next_epoch], [next_epoch] has grown by one per call at most, and in
    every store a record with MOVED has MOVING. *)
Theorem reachable_tables_are_well_formed fuel ops :
  Forall op_valid ops → (1 + Z.of_nat (length ops) ≤ 2 ^ 62)%Z →
  ∃ m s,
    hihat_a_run (S (S fuel)) hihat_a_init ops = Some m ∧
    current_store m = Some s ∧
    sized s ∧ probe_inv s ∧
    (∀ i b, buckets s !! i = Some b → hv b = 0%Z → record b = mk_record NULL 0) ∧
    (∀ i b, buckets s !! i = Some b → (0 ≤ info (record b) < 2 ^ 62)%Z) ∧
    store_next s = None ∧
    epochs_ok s (next_epoch (top m)) ∧
    (1 ≤ next_epoch (top m) ≤ 1 + Z.of_nat (length ops))%Z ∧
    moved_implies_moving m.
Proof.
  intros Hv Hroom.
  destruct (run_keeps_wf fuel hihat_a_init ops wf_init Hv)
    as (m & E & Hwf & Hb & Hmim); [simpl; lia |].
  destruct (wf_has_store m Hwf) as [s Hcur].
  destruct (wf_current_store m s Hwf Hcur) as [[H1 H2 H3 H4 H5] Hep].
  exists m, s. simpl in Hb. repeat (split; [done |]). by apply Hmim, mim_init.
Qed.

End properties.

(** ** Witnesses of the further properties *)

Lemma replace_overwrites_only_live_items_witness :
  ∃ m' old found,
    @hihat_a_replace example_common 1 example_full 5 55
      = Some (m', (old, found)) ∧
    @hihat_a_get example_common example_full 5 = Some (old, found) ∧
    top m' = top example_full ∧
    (found = false → old = NULL ∧ m' = example_full) ∧
    (found = true →
       @hihat_a_get example_common m' 5 = Some (55%Z, true) ∧
       ∃ r r', @table_content example_common example_full 5 = Some r ∧
               @table_content example_common m' 5 = Some r' ∧
               epoch_of r' = epoch_of r) ∧
    ∀ k', k' ≠ 5%Z → k' ≠ 0%Z →
          @hihat_a_get example_common m' k'
          = @hihat_a_get example_common example_full k'.
Proof.
  apply (@replace_overwrites_only_live_items example_common example_common_ok
           0 example_full 5 55 wf_example_full).
  lia.
Defined.

Lemma remove_returns_the_item_once_witness :
  ∃ m' old found,
    @hihat_a_remove example_common 1 example_full 5
      = Some (m', (old, found)) ∧
    @hihat_a_get example_common example_full 5 = Some (old, found) ∧
    (found = false → old = NULL ∧ m' = example_full) ∧
    next_epoch (top m') = next_epoch (top example_full) ∧
    @hihat_a_remove example_common 1 m' 5 = Some (m', (NULL, false)) ∧
    ∀ k', k' ≠ 5%Z → k' ≠ 0%Z →
          @hihat_a_get example_common m' k'
          = @hihat_a_get example_common example_full k'.
Proof.
  apply (@remove_returns_the_item_once example_common example_common_ok
           0 example_full 5 wf_example_full).
  lia.
Defined.

Lemma table_refines_finite_map_witness :
  ∃ rs m,
    @hihat_a_trace example_common 2 (@hihat_a_init example_common)
      [op_put 1 10; op_put 5 50; op_add 5 51; op_remove 1; op_replace 1 11;
       op_put 9 90; op_put 13 130; op_get 5; op_len; op_view true]
      = Some (rs, m) ∧
    Forall2 result_agrees rs
      (map_trace map_empty
         [op_put 1 10; op_put 5 50; op_add 5 51; op_remove 1; op_replace 1 11;
          op_put 9 90; op_put 13 130; op_get 5; op_len; op_view true]).1 ∧
    ∀ k, k ≠ 0%Z →
      @hihat_a_call example_common 2 m (op_get k)
      = Some (m, map_item
                   (map_trace map_empty
                      [op_put 1 10; op_put 5 50; op_add 5 51; op_remove 1;
                       op_replace 1 11; op_put 9 90; op_put 13 130; op_get 5;
                       op_len; op_view true]).2 k).
Proof.
  apply (@table_refines_finite_map example_common example_common_ok 0).
  - repeat constructor; unfold op_valid; simpl; lia.
  - simpl. lia.
Defined.

Lemma view_lists_what_get_finds_witness :
  ∃ n l s,
    current_store example_full = Some s ∧
    hihat_a_view example_full false = Some (n, l) ∧
    view_entries l = omap view_of_bucket (buckets s) ∧
    n = length (view_entries l) ∧
    (l = None ↔ n = 0%nat) ∧
    (∀ k v, k ≠ 0%Z →
       @hihat_a_get example_common example_full k = Some (v, true) →
       ∃ e, e ∈ view_entries l ∧ view_item e = v) ∧
    (∀ e, e ∈ view_entries l →
       (0 < sort_epoch e < next_epoch (top example_full))%Z ∧
       ∃ k, k ≠ 0%Z ∧
            @hihat_a_get example_common example_full k
            = Some (view_item e, true)) ∧
    ∃ l', hihat_a_view example_full true = Some (n, l') ∧
          view_entries l' ≡ₚ view_entries l.
Proof.
  apply (@view_lists_what_get_finds example_common example_common_ok
           example_full wf_example_full).
Defined.

Lemma view_is_null_exactly_when_empty_witness :
  hihat_a_view example_empty true = Some (0%nat, None) ↔
  ∀ k, k ≠ 0%Z → @hihat_a_get example_common example_empty k = Some (NULL, false).
Proof.
  apply (@view_is_null_exactly_when_empty example_common example_common_ok
           example_empty true wf_example_empty).
Defined.

Lemma fresh_insert_sorts_last_witness :
  ∃ mp ma,
    @hihat_a_put example_common 2 example_full 13 130
      = Some (mp, (NULL, false)) ∧
    @hihat_a_add example_common 2 example_full 13 130 = Some (ma, true) ∧
    ∀ m', m' = mp ∨ m' = ma →
      ∃ n l, hihat_a_view m' true = Some (n, Some l) ∧
             last l = Some (mk_view 130 (next_epoch (top example_full))).
Proof.
  apply (@fresh_insert_sorts_last example_common example_common_ok
           0 example_full 13 130 wf_example_full).
  - lia.
  - vm_compute. reflexivity.
  - vm_compute. reflexivity.
Defined.

Lemma reinsert_after_remove_sorts_last_witness :
  ∃ m1 r1 m2 n l,
    @hihat_a_remove example_common 1 example_full 1 = Some (m1, r1) ∧
    @hihat_a_put example_common 2 m1 1 11 = Some (m2, (NULL, false)) ∧
    hihat_a_view m2 true = Some (n, Some l) ∧
    last l = Some (mk_view 11 (next_epoch (top example_full))).
Proof.
  apply (@reinsert_after_remove_sorts_last example_common example_common_ok
           0 example_full 1 11 wf_example_full).
  - lia.
  - vm_compute. reflexivity.
Defined.

Lemma len_counts_the_live_items_witness :
  ∃ m n l,
    @hihat_a_run example_common 2 (@hihat_a_init example_common)
      [op_put 1 10; op_put 5 50; op_add 5 51; op_remove 1; op_replace 1 11;
       op_put 9 90; op_put 13 130; op_remove 7]
      = Some m ∧
    hihat_a_view m false = Some (n, l) ∧
    hihat_a_len m = wrap64 (Z.of_nat n).
Proof.
  apply (@len_counts_the_live_items example_common example_common_ok 0).
  - repeat constructor; unfold op_valid; simpl; lia.
  - simpl. lia.
Defined.

Lemma unreserved_hash_is_never_found_witness :
  @hihat_a_get example_common example_full 0 = Some (NULL, false) ∧
  @hihat_a_replace example_common 1 example_full 0 7
    = Some (example_full, (NULL, false)) ∧
  @hihat_a_remove example_common 1 example_full 0
    = Some (example_full, (NULL, false)).
Proof.
  apply (@unreserved_hash_is_never_found example_common example_common_ok
           0 example_full example_full_store 7).
  - reflexivity.
  - exists 2%nat. split; reflexivity.
Defined.

Lemma empty_table_holds_nothing_witness :
  hihat_a_len example_empty = 0%Z ∧
  hihat_a_view example_empty true = Some (0%nat, None) ∧
  @hihat_a_get example_common example_empty 5 = Some (NULL, false) ∧
  @hihat_a_replace example_common 1 example_empty 5 55
    = Some (example_empty, (NULL, false)) ∧
  @hihat_a_remove example_common 1 example_empty 5
    = Some (example_empty, (NULL, false)).
Proof.
  apply (@empty_table_holds_nothing example_common example_common_ok
           0 5 55 true).
Defined.

Lemma migration_is_invisible_to_readers_witness :
  ∃ p m',
    @hihat_a_store_migrate example_common
      (store_current (top example_full)) example_full = Some (p, m') ∧
    @wf example_common m' ∧ store_current (top m') = p ∧
    p ≠ store_current (top example_full) ∧
    (∀ k, @hihat_a_get example_common m' k
          = @hihat_a_get example_common example_full k) ∧
    hihat_a_len m' = hihat_a_len example_full ∧
    next_epoch (top m') = next_epoch (top example_full) ∧
    hihat_a_view m' true = hihat_a_view example_full true ∧
    ∃ n l l',
      hihat_a_view example_full false = Some (n, l) ∧
      hihat_a_view m' false = Some (n, l') ∧
      view_entries l' ≡ₚ view_entries l.
Proof.
  apply (@migration_is_invisible_to_readers example_common example_common_ok
           example_full wf_example_full).
Defined.

Lemma migration_drops_tombstones_witness :
  ∃ p m' s',
    @hihat_a_store_migrate example_common
      (store_current (top example_full)) example_full = Some (p, m') ∧
    current_store m' = Some s' ∧
    length (buckets s') =
      @hatrack_new_size example_common (last_slot example_full_store)
        (count_if live (buckets example_full_store)) ∧
    threshold s' =
      @hatrack_compute_table_threshold example_common (length (buckets s')) ∧
    used_count s' = Z.of_nat (count_if live (buckets example_full_store)) ∧
    count_if reserved (buckets s')
      = count_if live (buckets example_full_store) ∧
    (used_count s' < threshold s')%Z ∧
    store_next s' = None ∧
    ∀ j b, buckets s' !! j = Some b →
      reserved b = live b ∧ is_moving (record b) = false ∧
      is_moved (record b) = false.
Proof.
  apply (@migration_drops_tombstones example_common example_common_ok
           example_full example_full_store wf_example_full).
  reflexivity.
Defined.

Lemma add_is_put_on_a_free_hash_witness :
  ∃ ma ok,
    @hihat_a_add example_common 2 example_full 13 130 = Some (ma, ok) ∧
    (ok = true →
       @hihat_a_get example_common example_full 13 = Some (NULL, false) ∧
       @hihat_a_put example_common 2 example_full 13 130
         = Some (ma, (NULL, false))) ∧
    (ok = false →
       ma = example_full ∧ ∃ old mp,
         @hihat_a_get example_common example_full 13 = Some (old, true) ∧
         @hihat_a_put example_common 2 example_full 13 130
           = Some (mp, (old, true))).
Proof.
  apply (@add_is_put_on_a_free_hash example_common example_common_ok
           0 example_full 13 130 wf_example_full).
  - lia.
  - vm_compute. reflexivity.
Defined.

Lemma put_below_threshold_stays_in_place_witness :
  ∃ m' res s',
    @hihat_a_put example_common 1 example_full 5 55 = Some (m', res) ∧
    store_current (top m') = store_current (top example_full) ∧
    stores m' = <[store_current (top example_full) := s']> (stores example_full) ∧
    buckets s' =
      <[2%nat := mk_bucket 5
               (mk_record 55
                  (if live (mk_bucket 5 (mk_record 50 2))
                   then info (record (mk_bucket 5 (mk_record 50 2)))
                   else next_epoch (top example_full)))]>
        (buckets example_full_store) ∧
    used_count s' =
      (if reserved (mk_bucket 5 (mk_record 50 2))
       then used_count example_full_store
       else wrap64 (used_count example_full_store + 1)) ∧
    last_slot s' = last_slot example_full_store ∧
    threshold s' = threshold example_full_store ∧
    store_next s' = store_next example_full_store.
Proof.
  apply (@put_below_threshold_stays_in_place example_common example_common_ok
           example_full example_full_store 5 55 2%nat
           (mk_bucket 5 (mk_record 50 2)) wf_example_full).
  - reflexivity.
  - lia.
  - vm_compute. reflexivity.
  - reflexivity.
  - left. reflexivity.
Defined.

Lemma stale_store_operations_are_redirected_witness :
  ∃ p m' old,
    @hihat_a_store_migrate example_common
      (store_current (top example_full)) example_full = Some (p, m') ∧
    stores m' !! store_current (top example_full) = Some old ∧
    @hihat_a_store_get example_common old 5
      = @hihat_a_get example_common example_full 5 ∧
    @hihat_a_store_migrate example_common
      (store_current (top example_full)) m' = Some (p, m') ∧
    @hihat_a_store_replace example_common 2
      (store_current (top example_full)) m' 5 55
      = @hihat_a_replace example_common 1 m' 5 55 ∧
    @hihat_a_store_remove example_common 2
      (store_current (top example_full)) m' 5
      = @hihat_a_remove example_common 1 m' 5 ∧
    is_Some (@hihat_a_replace example_common 1 m' 5 55) ∧
    is_Some (@hihat_a_remove example_common 1 m' 5).
Proof.
  apply (@stale_store_operations_are_redirected example_common
           example_common_ok 0 example_full 5 55 wf_example_full).
  lia.
Defined.

Lemma probes_stay_inside_the_bucket_array_witness :
  next_bix example_full_store 3
    = ((3 + 1) mod length (buckets example_full_store))%nat ∧
  (next_bix example_full_store 3 < length (buckets example_full_store))%nat ∧
  (∃ r, @hihat_a_store_get example_common example_full_store 13 = Some r) ∧
  ((∀ i b, buckets example_full_store !! i = Some b →
           hv b ≠ 0%Z ∧ hv b ≠ 13%Z) →
   @hihat_a_store_get example_common example_full_store 13
   = Some (NULL, false)).
Proof.
  apply (@probes_stay_inside_the_bucket_array example_common
           example_common_ok example_full_store 13 3).
  - exists 2%nat. split; reflexivity.
  - simpl. lia.
Defined.

Lemma reachable_tables_are_well_formed_witness :
  ∃ m s,
    @hihat_a_run example_common 2 (@hihat_a_init example_common)
      [op_put 1 10; op_put 5 50; op_remove 1; op_put 9 90; op_put 13 130]
      = Some m ∧
    current_store m = Some s ∧
    sized s ∧ @probe_inv example_common s ∧
    (∀ i b, buckets s !! i = Some b → hv b = 0%Z → record b = mk_record NULL 0) ∧
    (∀ i b, buckets s !! i = Some b → (0 ≤ info (record b) < 2 ^ 62)%Z) ∧
    store_next s = None ∧
    epochs_ok s (next_epoch (top m)) ∧
    (1 ≤ next_epoch (top m)
     ≤ 1 + Z.of_nat
             (length [op_put 1 10; op_put 5 50; op_remove 1; op_put 9 90;
                      op_put 13 130]))%Z ∧
    moved_implies_moving m.
Proof.
  apply (@reachable_tables_are_well_formed example_common example_common_ok 0).
  - repeat constructor; unfold op_valid; simpl; lia.
  - simpl. lia.
Defined.

Lemma used_count_counts_the_reserved_buckets_witness :
  ∃ m s,
    @hihat_a_run example_common 2 (@hihat_a_init example_common)
      [op_put 1 10; op_put 5 50; op_remove 1; op_put 9 90; op_add 13 130;
       op_replace 5 55; op_put 1 11]
      = Some m ∧
    current_store m = Some s ∧
    (0 ≤ used_count s ≤ threshold s)%Z ∧
    wrap64 (used_count s) = wrap64 (Z.of_nat (count_if reserved (buckets s))) ∧
    ((Z.of_nat (length (buckets s)) < 2 ^ 64)%Z →
     used_count s = Z.of_nat (count_if reserved (buckets s))).
Proof.
  apply (@used_count_counts_the_reserved_buckets example_common
           example_common_ok 0).
  - simpl. lia.
  - repeat constructor; unfold op_valid; simpl; lia.
  - simpl. lia.
Defined.

Lemma sorted_view_is_the_insertion_order_witness :
  ∃ m n l,
    @hihat_a_run example_common 2 (@hihat_a_init example_common)
      [op_put 1 10; op_put 5 50; op_put 9 90; op_put 5 55; op_remove 1;
       op_add 13 130; op_put 1 11; op_replace 9 99; op_add 5 51]
      = Some m ∧
    hihat_a_view m true = Some (n, l) ∧
    n = length
          (dict_run
             [op_put 1 10; op_put 5 50; op_put 9 90; op_put 5 55; op_remove 1;
              op_add 13 130; op_put 1 11; op_replace 9 99; op_add 5 51]) ∧
    view_item <$> view_entries l =
      snd <$> dict_run
                [op_put 1 10; op_put 5 50; op_put 9 90; op_put 5 55;
                 op_remove 1; op_add 13 130; op_put 1 11; op_replace 9 99;
                 op_add 5 51] ∧
    Forall (λ kv, @hihat_a_get example_common m kv.1 = Some (kv.2, true))
      (dict_run
         [op_put 1 10; op_put 5 50; op_put 9 90; op_put 5 55; op_remove 1;
          op_add 13 130; op_put 1 11; op_replace 9 99; op_add 5 51]).
Proof.
  apply (@sorted_view_is_the_insertion_order example_common
           example_common_ok 0).
  - repeat constructor; unfold op_valid; simpl; lia.
  - simpl. lia.
Defined.

Lemma wf_example_exhausted : @wf example_common example_exhausted.
Proof.
  destruct wf_example_empty as [(s & Hcur & Hwf & [Hlt Hinj]) _].
  split; [| simpl; lia].
  exists s. split; [exact Hcur |]. split; [exact Hwf |]. split; [| exact Hinj].
  intros i b Hb. specialize (Hlt i b Hb). simpl in *. lia.
Qed.

Lemma put_at_the_end_of_the_epochs_loses_the_item_witness :
  ∃ m' s',
    @hihat_a_put example_common 1 example_exhausted 5 55
      = Some (m', (NULL, false)) ∧
    current_store m' = Some s' ∧
    buckets s' !! 1%nat = Some (mk_bucket 5 (mk_record 55 (2 ^ 62))) ∧
    has_epoch (mk_record 55 (2 ^ 62)) = false ∧
    @hihat_a_get example_common m' 5 = Some (NULL, false) ∧
    hihat_a_len m' = wrap64 (hihat_a_len example_exhausted + 1).
Proof.
  apply (@put_at_the_end_of_the_epochs_loses_the_item example_common
           example_common_ok example_exhausted
           (@hihat_a_store_new example_common 4) 5 55 1%nat zero_bucket
           wf_example_exhausted).
  - reflexivity.
  - lia.
  - reflexivity.
  - vm_compute. reflexivity.
  - reflexivity.
  - reflexivity.
  - right. simpl. lia.
Defined.

Lemma put_under_the_unreserved_hash_hides_the_item_witness :
  ∃ m' s' n l,
    @hihat_a_put example_common 1 example_empty 0 77
      = Some (m', (NULL, false)) ∧
    current_store m' = Some s' ∧
    buckets s' =
      <[0%nat := mk_bucket 0 (mk_record 77 (next_epoch (top example_empty)))]>
        (buckets (@hihat_a_store_new example_common 4)) ∧
    used_count s'
      = wrap64 (used_count (@hihat_a_store_new example_common 4) + 1) ∧
    hihat_a_len m' = wrap64 (hihat_a_len example_empty + 1) ∧
    @hihat_a_get example_common m' 0 = Some (NULL, false) ∧
    hihat_a_view m' false = Some (n, Some l) ∧
    mk_view 77 (next_epoch (top example_empty)) ∈ l.
Proof.
  apply (@put_under_the_unreserved_hash_hides_the_item example_common
           example_common_ok example_empty
           (@hihat_a_store_new example_common 4) 77 0%nat zero_bucket
           wf_example_empty).
  - reflexivity.
  - simpl. lia.
  - simpl. lia.
  - vm_compute. reflexivity.
  - reflexivity.
Defined.
